(** * Greenlight MD: a shallow embedding of the note graph, the text buffer
      and the force-directed layout, with the properties of the design
      document checked against the Python sources.

    Sources embedded here:
    - [src/greenlight/link_utils.py]: [link_pattern], [extract_links_from_file],
      [build_note_graph], [build_incoming_links];
    - [src/editor.py]: the body of [editing_screen] (buffer loading, the key
      handlers, the scroll adjustment, saving), and the session as a whole
      with the outcomes of its curses calls, of the vault scan and of what
      CTRL+G starts;
    - [src/greenlight/graph.py]: [force_layout], and of [graph_view_screen]
      the degrees, the symbols, the note under the cursor and the keys;
    - [src/greenlight/links.py]: of [link_tree_screen] the lines of the tree,
      the cursor, the window and the link followed;
    - [src/greenlight/helper.py]: the scrolling of [help_screen];
    - [src/greenlight/themes.py]: [resolve_theme], [init_colors];
    - [src/greenlight/boot.py]: [precompute_for_mode] and the call that ends
      [bootup_screen];
    - [src/greenlight/main.py]: [main_entry].

    Python values are modelled as follows.  A [str] is a list of Unicode code
    points ([N]); an [int] is a [Z]; a [float] is an IEEE-754 binary64 value
    of [SpecFloat] (53 bits of precision, exponents up to 1024); a [dict] is an
    insertion-ordered association list; a raised exception is the [Raise]
    branch of [result]. *)

From Stdlib Require Import String Ascii.
From Stdlib Require Import ZArith NArith List Bool Lia.
From Stdlib Require Import SpecFloat.
From Stdlib Require DecimalString.
From Equations Require Import Equations.
From Equations.Prop Require Import Logic.
Import ListNotations.

Set Implicit Arguments.

(* ===================================================================== *)
(** * Part I: the model *)
(* ===================================================================== *)

(** ** Python values: exceptions, strings, sequences, dictionaries *)

Module Py.

(** The exceptions the embedded code can raise: the built-in ones, and
    [curses.error], which a curses call raises when it fails (writing
    outside the window, for one). *)
Inductive exn : Type :=
| FileNotFoundError
| PermissionError
| IsADirectoryError
| UnicodeDecodeError
| IndexError
| KeyError
| ValueError
| ZeroDivisionError
| OverflowError
| CursesError.

Inductive result (A : Type) : Type :=
| Ok (a : A)
| Raise (e : exn).

Arguments Ok {A} a.
Arguments Raise {A} e.

Definition bind {A B : Type} (r : result A) (k : A -> result B) : result B :=
  match r with
  | Ok a => k a
  | Raise e => Raise e
  end.

(** A [for] loop whose body may raise: the state is threaded through the
    items, the first exception ends the loop. *)
Fixpoint for_each {A S : Type} (items : list A) (body : S -> A -> result S)
  (s : S) : result S :=
  match items with
  | [] => Ok s
  | a :: rest => bind (body s a) (for_each rest body)
  end.

(** A character is a Unicode code point, a [str] a sequence of them. *)
Definition char : Type := N.
Definition pystr : Type := list char.

Definition pystr_eq_dec : forall a b : pystr, {a = b} + {a <> b} :=
  list_eq_dec N.eq_dec.

Definition pystr_eqb (a b : pystr) : bool :=
  if pystr_eq_dec a b then true else false.

(** Reading a Rocq string literal as a Python string. *)
Definition str (s : string) : pystr :=
  map N_of_ascii (list_ascii_of_string s).

(** [len(l)], as a Python int. *)
Definition len {A : Type} (l : list A) : Z := Z.of_nat (length l).

(** [l[i]]: negative indices count from the end, anything out of range
    raises [IndexError]. *)
Definition norm_index {A : Type} (l : list A) (i : Z) : option nat :=
  let j := if (i <? 0)%Z then (i + len l)%Z else i in
  if ((0 <=? j) && (j <? len l))%Z then Some (Z.to_nat j) else None.

Definition getitem {A : Type} (l : list A) (i : Z) : result A :=
  match norm_index l i with
  | Some n =>
      match nth_error l n with
      | Some a => Ok a
      | None => Raise IndexError
      end
  | None => Raise IndexError
  end.

Fixpoint set_nth {A : Type} (l : list A) (n : nat) (a : A) : list A :=
  match l, n with
  | [], _ => []
  | _ :: l', O => a :: l'
  | b :: l', S n' => b :: set_nth l' n' a
  end.

(** [l[i] = a]. *)
Definition setitem {A : Type} (l : list A) (i : Z) (a : A) : result (list A) :=
  match norm_index l i with
  | Some n => Ok (set_nth l n a)
  | None => Raise IndexError
  end.

(** A slice bound is clamped into [0, len(l)] after the negative shift. *)
Definition clamp_index {A : Type} (l : list A) (i : Z) : nat :=
  let j := if (i <? 0)%Z then (i + len l)%Z else i in
  Z.to_nat (Z.min (Z.max 0 j) (len l)).

(** [l[:i]] and [l[i:]]. *)
Definition slice_to {A : Type} (l : list A) (i : Z) : list A :=
  firstn (clamp_index l i) l.

Definition slice_from {A : Type} (l : list A) (i : Z) : list A :=
  skipn (clamp_index l i) l.

(** [l.insert(i, a)]: the index is clamped like a slice bound, never raises. *)
Definition list_insert {A : Type} (l : list A) (i : Z) (a : A) : list A :=
  firstn (clamp_index l i) l ++ a :: skipn (clamp_index l i) l.

(** [l.pop(i)]: the list without its [i]-th element. *)
Definition list_pop {A : Type} (l : list A) (i : Z) : result (list A) :=
  match norm_index l i with
  | Some n => Ok (firstn n l ++ skipn (S n) l)
  | None => Raise IndexError
  end.

(** [sep.join(parts)]. *)
Fixpoint join (sep : pystr) (parts : list pystr) : pystr :=
  match parts with
  | [] => []
  | p :: rest =>
      match rest with
      | [] => p
      | _ :: _ => p ++ sep ++ join sep rest
      end
  end.

(** [s.endswith(suffix)]. *)
Definition endswith (s suffix : pystr) : bool :=
  pystr_eqb (skipn (length s - length suffix) s) suffix
  && (length suffix <=? length s)%nat.

(** The line boundaries of [str.splitlines]: LF, VT, FF, CR, FS, GS, RS,
    NEL, LINE SEPARATOR and PARAGRAPH SEPARATOR; CR LF counts as one. *)
Definition LF : char := 10%N.
Definition CR : char := 13%N.

Definition is_linebreak (c : char) : bool :=
  match c with
  | 10%N | 11%N | 12%N | 13%N | 28%N | 29%N | 30%N
  | 133%N | 8232%N | 8233%N => true
  | _ => false
  end.

(** [s.splitlines()]: every boundary ends a line, the boundary itself is
    dropped, and no empty line is produced after a final boundary. *)
Fixpoint splitlines (s : pystr) : list pystr :=
  match s with
  | [] => []
  | c :: s' =>
      if is_linebreak c then
        match N.eqb c CR, s' with
        | true, c' :: s'' =>
            if N.eqb c' LF then [] :: splitlines s'' else [] :: splitlines s'
        | _, _ => [] :: splitlines s'
        end
      else
        match splitlines s' with
        | [] => [[c]]
        | line :: rest => (c :: line) :: rest
        end
  end.

(** An insertion-ordered [dict] keyed by strings. *)
Section Dict.
Variable V : Type.

Definition dict : Type := list (pystr * V).

Fixpoint dict_get (d : dict) (k : pystr) : option V :=
  match d with
  | [] => None
  | (k', v) :: d' => if pystr_eq_dec k k' then Some v else dict_get d' k
  end.

(** [d[k] = v]: an existing key keeps its place, a new one goes last. *)
Fixpoint dict_set (d : dict) (k : pystr) (v : V) : dict :=
  match d with
  | [] => [(k, v)]
  | (k', v') :: d' =>
      if pystr_eq_dec k k' then (k', v) :: d' else (k', v') :: dict_set d' k v
  end.

Definition dict_mem (d : dict) (k : pystr) : bool :=
  match dict_get d k with Some _ => true | None => false end.

Definition dict_keys (d : dict) : list pystr := map fst d.

End Dict.

End Py.

Import Py.

Declare Scope py_scope.
Notation "x <- c1 ;; c2" := (bind c1 (fun x => c2))
  (at level 61, c1 at next level, right associativity) : py_scope.
Notation "' pat <- c1 ;; c2" := (bind c1 (fun x => match x with pat => c2 end))
  (at level 61, pat pattern, c1 at next level, right associativity) : py_scope.
Local Open Scope py_scope.

(** ** [link_utils.py] *)

Module LinkUtils.

Definition LBRACKET : char := 91%N.
Definition RBRACKET : char := 93%N.

(** The group [([^\]]+)] is greedy: it takes the whole run of characters
    other than [']'].  Returns the run and what follows it. *)
Fixpoint name_run (s : pystr) : pystr * pystr :=
  match s with
  | [] => ([], [])
  | c :: s' =>
      if N.eqb c RBRACKET then ([], s)
      else let (name, rest) := name_run s' in (c :: name, rest)
  end.

(** One attempt of [link_pattern = \[\[([^\]]+)\]\]] at the head of [s]:
    the captured name and the text after the match.  Giving characters of
    the run back cannot help, the next one would have to be [']']. *)
Definition match_here (s : pystr) : option (pystr * pystr) :=
  match s with
  | a :: b :: s' =>
      if N.eqb a LBRACKET && N.eqb b LBRACKET then
        match name_run s' with
        | (c :: name, r1 :: r2 :: rest) =>
            if N.eqb r1 RBRACKET && N.eqb r2 RBRACKET
            then Some (c :: name, rest) else None
        | _ => None
        end
      else None
  | _ => None
  end.

(** [link_pattern.findall(text)]: leftmost matches, scanning resumes after
    each match, one captured name per match. *)
Equations? findall (s : pystr) : list pystr by wf (length s) lt :=
  findall [] := [];
  findall (c :: s') with inspect (match_here (c :: s')) => {
    | exist _ (Some (name, rest)) Hm := name :: findall rest;
    | exist _ None _ := findall s' }.
Proof.
  assert (Hrun : forall t, length (snd (name_run t)) <= length t).
  { induction t as [|x t IH]; simpl; auto.
    destruct (N.eqb x RBRACKET); simpl; auto.
    destruct (name_run t); simpl in *; lia. }
  change (match_here (c :: s') = Some (name, rest)) in Hm.
  unfold match_here in Hm.
  destruct s' as [|b s']; try discriminate.
  destruct (N.eqb c LBRACKET && N.eqb b LBRACKET); try discriminate.
  specialize (Hrun s').
  destruct (name_run s') as [[|x nm] [|r1 [|r2 rs]]]; try discriminate.
  destruct (N.eqb r1 RBRACKET && N.eqb r2 RBRACKET); try discriminate.
  inversion Hm; subst. simpl in *. lia.
Qed.

(** What [open(path, "r", encoding="utf-8")] followed by [f.read()] gives
    for each path: the decoded text, or the exception raised on the way. *)
Definition filesystem : Type := pystr -> result pystr.

(** Lines 18-26.  Only [FileNotFoundError] is caught. *)
Definition extract_links_from_file (fs : filesystem) (path : pystr)
  : result (list pystr) :=
  match fs path with
  | Ok text => Ok (findall text)
  | Raise FileNotFoundError => Ok []
  | Raise e => Raise e
  end.

(** [os.path.join(a, b)] on POSIX. *)
Definition SLASH : char := 47%N.

Definition path_join (a b : pystr) : pystr :=
  match b with
  | c :: _ =>
      if N.eqb c SLASH then b
      else if endswith a [SLASH] || match a with [] => true | _ => false end
           then a ++ b else a ++ [SLASH] ++ b
  | [] =>
      if endswith a [SLASH] || match a with [] => true | _ => false end
      then a else a ++ [SLASH]
  end.

(** One entry of [os.walk]: [(dirpath, dirnames, filenames)]. *)
Definition walk_entry : Type := pystr * list pystr * list pystr.

Definition md_suffix : pystr := str ".md".

(** Lines 34-40, the body of the inner loop. *)
Definition scan_file (fs : filesystem) (dirpath : pystr)
  (st : dict (list pystr) * dict pystr) (file : pystr)
  : result (dict (list pystr) * dict pystr) :=
  let (graph, paths) := st in
  if endswith file md_suffix then
    let name := slice_to file (-3) in
    let path := path_join dirpath file in
    links <- extract_links_from_file fs path ;;
    Ok (dict_set graph name links, dict_set paths name path)
  else Ok st.

(** Lines 30-41.  [walk] is what [os.walk(root_dir)] yields. *)
Definition build_note_graph (fs : filesystem) (walk : list walk_entry)
  : result (dict (list pystr) * dict pystr) :=
  for_each walk
    (fun st entry =>
       let '(dirpath, _, files) := entry in
       for_each files (scan_file fs dirpath) st)
    ([], []).

(** Line 46: [{note: [] for note in graph}]. *)
Definition empty_incoming (graph : dict (list pystr)) : dict (list pystr) :=
  fold_left (fun incoming note => dict_set incoming note [])
    (dict_keys graph) [].

(** Lines 49-51, the body of the inner loop. *)
Definition add_incoming (src : pystr) (incoming : dict (list pystr))
  (tgt : pystr) : dict (list pystr) :=
  match dict_get incoming tgt with
  | Some sources => dict_set incoming tgt (sources ++ [src])
  | None => incoming
  end.

(** Lines 44-52. *)
Definition build_incoming_links (graph : dict (list pystr))
  : dict (list pystr) :=
  fold_left
    (fun incoming item => fold_left (add_incoming (fst item)) (snd item) incoming)
    graph (empty_incoming graph).

End LinkUtils.

(** ** [editor.py]: loading and saving the buffer *)

Module Editor.

(** What [f.read()] returns for a file opened with [open(path, "r")]:
    universal newlines turn CR LF and a lone CR into LF. *)
Fixpoint text_mode_read (raw : pystr) : pystr :=
  match raw with
  | [] => []
  | c :: raw' =>
      if N.eqb c CR then
        match raw' with
        | c' :: raw'' =>
            if N.eqb c' LF then LF :: text_mode_read raw''
            else LF :: text_mode_read raw'
        | [] => [LF]
        end
      else c :: text_mode_read raw'
  end.

(** Lines 29-37: [buffer = f.read().splitlines()], and an empty buffer
    (missing or empty file) becomes the single empty line. *)
Definition loadFromText (content : pystr) : list pystr :=
  match splitlines content with
  | [] => [[]]
  | buffer => buffer
  end.

(** Line 141: what CTRL+S writes, ["\n".join(buffer)]. *)
Definition serialize (buffer : list pystr) : pystr := join [LF] buffer.

(** Line 30-37 as a whole: the buffer the session starts with, given what
    reading [file_path] yields.  A missing file gives the empty buffer, any
    other exception leaves [editing_screen]. *)
Definition load (file : result pystr) : result (list pystr) :=
  match file with
  | Ok content => Ok (loadFromText content)
  | Raise FileNotFoundError => Ok [[]]
  | Raise e => Raise e
  end.

(** The key codes of [curses] the loop tests for. *)
Definition KEY_DOWN : Z := 258.
Definition KEY_UP : Z := 259.
Definition KEY_LEFT : Z := 260.
Definition KEY_RIGHT : Z := 261.
Definition KEY_BACKSPACE : Z := 263.

(** The local variables of [editing_screen] that outlive an iteration of
    the [while True] loop, with the file the session writes to.  The screen
    contents and [last_saved_time], which only feed the status bar, are left
    out. *)
Record state : Type := {
  buffer : list pystr;
  y : Z;
  x : Z;
  offset : Z;
  save_status : bool;
  disk : option pystr
}.

(** Lines 42-44. *)
Definition initial (buffer0 : list pystr) (disk0 : option pystr) : state :=
  {| buffer := buffer0; y := 0; x := 0; offset := 0;
     save_status := true; disk := disk0 |}.

Definition with_cursor (s : state) (y' x' : Z) : state :=
  {| buffer := buffer s; y := y'; x := x'; offset := offset s;
     save_status := save_status s; disk := disk s |}.

Definition edited (s : state) (buffer' : list pystr) (y' x' : Z) : state :=
  {| buffer := buffer'; y := y'; x := x'; offset := offset s;
     save_status := false; disk := disk s |}.

Local Open Scope Z_scope.

(** Lines 137-142, CTRL+S.  [writable] tells whether [open(file_path, "w")]
    and the write succeed. *)
Definition save (writable : bool) (s : state) : result state :=
  if writable then
    Ok {| buffer := buffer s; y := y s; x := x s; offset := offset s;
          save_status := true; disk := Some (serialize (buffer s)) |}
  else Raise PermissionError.

(** Lines 155-161, Enter. *)
Definition splitLine (s : state) : result state :=
  current_line <- getitem (buffer s) (y s) ;;
  buffer1 <- setitem (buffer s) (y s) (slice_to current_line (x s)) ;;
  let buffer2 := list_insert buffer1 (y s + 1) (slice_from current_line (x s)) in
  Ok (edited s buffer2 (y s + 1) 0).

(** Lines 162-165, Tab. *)
Definition indent (s : state) : result state :=
  line <- getitem (buffer s) (y s) ;;
  buffer1 <- setitem (buffer s) (y s)
               (slice_to line (x s) ++ str "    " ++ slice_from line (x s)) ;;
  Ok (edited s buffer1 (y s) (x s + 4)).

(** Lines 166-177, Backspace. *)
Definition backspace (s : state) : result state :=
  if x s >? 0 then
    line <- getitem (buffer s) (y s) ;;
    buffer1 <- setitem (buffer s) (y s)
                 (slice_to line (x s - 1) ++ slice_from line (x s)) ;;
    Ok (edited s buffer1 (y s) (x s - 1))
  else if y s >? 0 then
    prev <- getitem (buffer s) (y s - 1) ;;
    let prev_len := len prev in
    current <- getitem (buffer s) (y s) ;;
    buffer1 <- setitem (buffer s) (y s - 1) (prev ++ current) ;;
    buffer2 <- list_pop buffer1 (y s) ;;
    Ok (edited s buffer2 (y s - 1) prev_len)
  else Ok (edited s (buffer s) (y s) (x s)).

(** Lines 178-184. *)
Definition left (s : state) : result state :=
  if x s >? 0 then Ok (with_cursor s (y s) (x s - 1))
  else if y s >? 0 then
    line <- getitem (buffer s) (y s - 1) ;;
    Ok (with_cursor s (y s - 1) (len line))
  else Ok s.

(** Lines 185-191. *)
Definition right (s : state) : result state :=
  line <- getitem (buffer s) (y s) ;;
  if x s <? len line then Ok (with_cursor s (y s) (x s + 1))
  else if y s <? len (buffer s) - 1 then Ok (with_cursor s (y s + 1) 0)
  else Ok s.

(** Lines 192-199. *)
Definition up (s : state) : result state :=
  if y s >? 0 then
    line <- getitem (buffer s) (y s - 1) ;;
    Ok (with_cursor s (y s - 1) (Z.min (x s) (len line)))
  else Ok (with_cursor s (y s) 0).

(** Lines 200-207. *)
Definition down (s : state) : result state :=
  if y s <? len (buffer s) - 1 then
    line <- getitem (buffer s) (y s + 1) ;;
    Ok (with_cursor s (y s + 1) (Z.min (x s) (len line)))
  else
    line <- getitem (buffer s) (y s) ;;
    Ok (with_cursor s (y s) (len line)).

(** Lines 208-212, a printable character; [chr(key)] is the code point
    [key]. *)
Definition insertChar (key : Z) (s : state) : result state :=
  line <- getitem (buffer s) (y s) ;;
  buffer1 <- setitem (buffer s) (y s)
               (slice_to line (x s) ++ [Z.to_N key] ++ slice_from line (x s)) ;;
  Ok (edited s buffer1 (y s) (x s + 1)).

(** Lines 214-218. *)
Definition adjust_scroll (height : Z) (s : state) : state :=
  let offset' :=
    if y s <? offset s then y s
    else if y s >=? offset s + (height - 2) then y s - (height - 2)
    else offset s in
  {| buffer := buffer s; y := y s; x := x s; offset := offset';
     save_status := save_status s; disk := disk s |}.

(** What one iteration of the loop takes from outside: the key read by
    [getch], the height given by [getmaxyx], and whether the file can be
    written. *)
Record input : Type := { key : Z; height : Z; writable : bool }.

(** Lines 137-212, the [if]/[elif] chain for a key other than -1 and
    CTRL+Q, as far as the state of this buffer goes.  CTRL+G (7) opens the
    linked note in a nested session, which has a buffer of its own: when
    that session returns, this state is as it was, and without a link under
    the cursor no later branch takes 7 either.  What lines 143-154 do
    outside this buffer, and what they may raise (creating the note, the
    nested session), is not part of this function: [Session.follow_link]
    has it. *)
Definition handle_key (i : input) (s : state) : result state :=
  let k := key i in
  if k =? 19 then save (writable i) s
  else if k =? 7 then Ok s
  else if (k =? 10) || (k =? 13) then splitLine s
  else if k =? 9 then indent s
  else if (k =? KEY_BACKSPACE) || (k =? 127) || (k =? 8) then backspace s
  else if k =? KEY_LEFT then left s
  else if k =? KEY_RIGHT then right s
  else if k =? KEY_UP then up s
  else if k =? KEY_DOWN then down s
  else if (32 <=? k) && (k <=? 126) then insertChar k s
  else Ok s.

(** What one iteration of [while True] does to the state once the key is
    read, lines 133-218: [None] when CTRL+Q leaves the loop.  A time-out of
    [getch] (-1) skips the scroll adjustment.  The drawing of lines 48-129,
    whose curses calls may raise [curses.error], changes no variable of the
    state and is not part of this function: [Session.pass] has it. *)
Definition iteration (i : input) (s : state) : result (option state) :=
  if key i =? -1 then Ok (Some s)
  else if key i =? 17 then Ok None
  else s' <- handle_key i s ;; Ok (Some (adjust_scroll (height i) s')).

(** The loop over a finite sequence of inputs, up to CTRL+Q. *)
Fixpoint run (inputs : list input) (s : state) : result state :=
  match inputs with
  | [] => Ok s
  | i :: rest =>
      r <- iteration i s ;;
      match r with
      | Some s' => run rest s'
      | None => Ok s
      end
  end.

(** The state invariant of the design document, in two parts. *)
Definition cursor_ok (s : state) : Prop :=
  buffer s <> [] /\
  0 <= y s < len (buffer s) /\
  exists line, getitem (buffer s) (y s) = Ok line /\ 0 <= x s <= len line.

Definition invariant (s : state) : Prop :=
  cursor_ok s /\ 0 <= offset s <= y s.

End Editor.

(** ** Python numbers: [float] as IEEE-754 binary64, and the mix of [int] and
    [float] that dynamic typing allows *)

Module Float.

Definition prec : Z := 53.
Definition emax : Z := 1024.

Definition float : Type := spec_float.

Definition add : float -> float -> float := SFadd prec emax.
Definition sub : float -> float -> float := SFsub prec emax.
Definition mul : float -> float -> float := SFmul prec emax.
Definition ltb : float -> float -> bool := SFltb.

Definition is_zero (f : float) : bool :=
  match f with S754_zero _ => true | _ => false end.

(** The literals of [force_layout], each the binary64 value nearest to the
    decimal. *)
Definition lit_0_01 : float := S754_finite false 5764607523034235 (-59).
Definition lit_0_02 : float := S754_finite false 5764607523034235 (-58).
Definition lit_1_0 : float := S754_finite false 4503599627370496 (-52).
Definition lit_2_0 : float := S754_finite false 4503599627370496 (-51).
Definition lit_5_0 : float := S754_finite false 5629499534213120 (-50).

(** [float(z)]: the nearest binary64, [OverflowError] beyond the range. *)
Definition of_int (z : Z) : result float :=
  match binary_normalize prec emax z 0 false with
  | S754_infinity _ => Raise OverflowError
  | f => Ok f
  end.

(** [a / b] on floats: Python raises where IEEE would give an infinity or a
    NaN for a zero divisor. *)
Definition truediv (a b : float) : result float :=
  if is_zero b then Raise ZeroDivisionError else Ok (SFdiv prec emax a b).

(** [a / b] on ints: the exact quotient, rounded once. *)
Definition int_truediv (a b : Z) : result float :=
  match a, b with
  | _, Z0 => Raise ZeroDivisionError
  | Z0, _ => Ok (S754_zero (b <? 0)%Z)
  | _, _ =>
      match SFdiv prec emax
              (S754_finite (a <? 0)%Z (Z.to_pos (Z.abs a)) 0)
              (S754_finite (b <? 0)%Z (Z.to_pos (Z.abs b)) 0) with
      | S754_infinity _ => Raise OverflowError
      | f => Ok f
      end
  end.

(** [math.sqrt(x)] on a float: a negative argument is a domain error. *)
Definition math_sqrt (x : float) : result float :=
  match x with
  | S754_finite true _ _ | S754_infinity true => Raise ValueError
  | _ => Ok (SFsqrt prec emax x)
  end.

(** Comparing a float with an int is exact in Python: no conversion of the
    int takes place. *)
Definition compare_int (f : float) (z : Z) : option comparison :=
  match f with
  | S754_nan => None
  | S754_infinity s => Some (if s then Lt else Gt)
  | S754_zero _ => Some (Z.compare 0 z)
  | S754_finite s m e =>
      let v := if s then Zneg m else Zpos m in
      Some (match e with
            | Zneg k => Z.compare v (z * 2 ^ Zpos k)
            | _ => Z.compare (v * 2 ^ e) z
            end)
  end.

(** [int(f)]: truncation towards zero. *)
Definition to_int (f : float) : result Z :=
  match f with
  | S754_nan => Raise ValueError
  | S754_infinity _ => Raise OverflowError
  | S754_zero _ => Ok 0%Z
  | S754_finite s m e =>
      let t := match e with
               | Zneg k => (Zpos m / 2 ^ Zpos k)%Z
               | _ => (Zpos m * 2 ^ e)%Z
               end in
      Ok (if s then (- t)%Z else t)
  end.

(** The conversion the design document describes, not the one of the code:
    the nearest integer (ties to even, as Python's [round(f)]). *)
Definition nearest_int (f : float) : result Z :=
  match f with
  | S754_nan => Raise ValueError
  | S754_infinity _ => Raise OverflowError
  | S754_zero _ => Ok 0%Z
  | S754_finite s m e =>
      let t := match e with
               | Zneg k =>
                   let q := (Zpos m / 2 ^ Zpos k)%Z in
                   let r := (Zpos m mod 2 ^ Zpos k)%Z in
                   match (2 * r ?= 2 ^ Zpos k)%Z with
                   | Lt => q
                   | Gt => (q + 1)%Z
                   | Eq => if Z.even q then q else (q + 1)%Z
                   end
               | _ => (Zpos m * 2 ^ e)%Z
               end in
      Ok (if s then (- t)%Z else t)
  end.

(** A number met at run time. *)
Inductive num : Type :=
| Int (z : Z)
| Flt (f : float).

Definition to_float (a : num) : result float :=
  match a with
  | Int z => of_int z
  | Flt f => Ok f
  end.

Definition num_add (a b : num) : result num :=
  match a, b with
  | Int x, Int y => Ok (Int (x + y))
  | _, _ => fa <- to_float a ;; fb <- to_float b ;; Ok (Flt (add fa fb))
  end.

Definition num_sub (a b : num) : result num :=
  match a, b with
  | Int x, Int y => Ok (Int (x - y))
  | _, _ => fa <- to_float a ;; fb <- to_float b ;; Ok (Flt (sub fa fb))
  end.

Definition num_mul (a b : num) : result num :=
  match a, b with
  | Int x, Int y => Ok (Int (x * y))
  | _, _ => fa <- to_float a ;; fb <- to_float b ;; Ok (Flt (mul fa fb))
  end.

Definition num_truediv (a b : num) : result num :=
  match a, b with
  | Int x, Int y => f <- int_truediv x y ;; Ok (Flt f)
  | _, _ => fa <- to_float a ;; fb <- to_float b ;;
            f <- truediv fa fb ;; Ok (Flt f)
  end.

(** [a < b]. *)
Definition num_lt (a b : num) : bool :=
  match a, b with
  | Int x, Int y => (x <? y)%Z
  | Flt f, Flt g => ltb f g
  | Flt f, Int z => match compare_int f z with Some Lt => true | _ => false end
  | Int z, Flt f => match compare_int f z with Some Gt => true | _ => false end
  end.

(** [max(a, b)] keeps [a] unless [b > a]; [min(a, b)] keeps [a] unless
    [b < a]. *)
Definition py_max (a b : num) : num := if num_lt a b then b else a.
Definition py_min (a b : num) : num := if num_lt b a then b else a.

(** [math.sqrt(a)] and [int(a)]. *)
Definition sqrt_num (a : num) : result float :=
  f <- to_float a ;; math_sqrt f.

Definition int_num (a : num) : result Z :=
  match a with
  | Int z => Ok z
  | Flt f => to_int f
  end.

End Float.

(** ** [graph.py]: [force_layout] *)

Module Graph.

Import Float.

(** A two-element list [[x, y]]. *)
Definition vec : Type := (num * num)%type.

(** The random source is the sequence of raw draws behind the successive
    calls of [random.randint]; every seed is one such sequence. *)
Definition randint (draws : nat -> N) (n : nat) (a b : Z) : result Z :=
  if (b <? a)%Z then Raise ValueError
  else Ok (a + Z.of_N (draws n) mod (b - a + 1))%Z.

(** [d[k]] read. *)
Definition lookup {V : Type} (d : dict V) (k : pystr) : result V :=
  match dict_get d k with
  | Some v => Ok v
  | None => Raise KeyError
  end.

(** Lines 22-25: one entry of the comprehension, two draws per note. *)
Definition place (draws : nat -> N) (width height : Z)
  (st : dict vec * nat) (note : pystr) : result (dict vec * nat) :=
  let (positions, n) := st in
  px <- randint draws n 1 (width - 2) ;;
  py <- randint draws (S n) 1 (height - 3) ;;
  Ok (dict_set positions note (Int px, Int py), S (S n)).

Definition init_positions (draws : nat -> N) (graph : dict (list pystr))
  (width height : Z) : result (dict vec) :=
  r <- for_each (dict_keys graph) (place draws width height) ([], 0%nat) ;;
  Ok (fst r).

(** Line 28. *)
Definition ideal_distance (graph : dict (list pystr)) (width height : Z)
  : result float :=
  q <- int_truediv (width * height) (len graph + 1) ;;
  math_sqrt q.

(** Line 32. *)
Definition zero_disp (graph : dict (list pystr)) : dict vec :=
  fold_left (fun disp note => dict_set disp note (Int 0, Int 0))
    (dict_keys graph) [].

(** Lines 39-41 and 56-58: [dx], [dy] and [dist]. *)
Definition separation (positions : dict vec) (v u : pystr)
  : result (num * num * float) :=
  pv <- lookup positions v ;;
  pu <- lookup positions u ;;
  dx <- num_sub (fst pv) (fst pu) ;;
  dy <- num_sub (snd pv) (snd pu) ;;
  dx2 <- num_mul dx dx ;;
  dy2 <- num_mul dy dy ;;
  sq <- num_add dx2 dy2 ;;
  root <- sqrt_num sq ;;
  Ok (dx, dy, add root lit_0_01).

(** [disp[v][0] += (dx / dist) * force; disp[v][1] += (dy / dist) * force],
    and the same with [-=]. *)
Definition push (op : num -> num -> result num) (disp : dict vec) (v : pystr)
  (dx dy : num) (dist force : float) : result (dict vec) :=
  qx <- num_truediv dx (Flt dist) ;;
  tx <- num_mul qx (Flt force) ;;
  d <- lookup disp v ;;
  nx <- op (fst d) tx ;;
  let disp1 := dict_set disp v (nx, snd d) in
  qy <- num_truediv dy (Flt dist) ;;
  ty <- num_mul qy (Flt force) ;;
  d1 <- lookup disp1 v ;;
  ny <- op (snd d1) ty ;;
  Ok (dict_set disp1 v (fst d1, ny)).

(** Lines 38-50, the body of the repulsion loops. *)
Definition repel (k : float) (positions : dict vec) (v : pystr)
  (disp : dict vec) (u : pystr) : result (dict vec) :=
  if pystr_eqb u v then Ok disp
  else
    sep <- separation positions v u ;;
    let '(dx, dy, dist) := sep in
    force <- (if ltb dist lit_2_0
              then Ok (mul lit_5_0 (sub lit_2_0 dist))
              else truediv (mul lit_0_02 (mul k k)) dist) ;;
    push num_add disp v dx dy dist force.

(** Lines 55-65, the body of the attraction loops. *)
Definition attract (k : float) (graph : dict (list pystr))
  (positions : dict vec) (v : pystr) (disp : dict vec) (u : pystr)
  : result (dict vec) :=
  if dict_mem graph u then
    sep <- separation positions v u ;;
    let '(dx, dy, dist) := sep in
    force <- truediv (mul lit_1_0 (mul dist dist)) k ;;
    disp1 <- push num_sub disp v dx dy dist force ;;
    push num_add disp1 u dx dy dist force
  else Ok disp.

(** Lines 76-77. *)
Definition clamp (lo hi : Z) (a : num) : num :=
  py_min (Int hi) (py_max (Int lo) a).

(** Lines 69-77, the body of the last loop of a round. *)
Definition move (width height : Z) (disp : dict vec) (positions : dict vec)
  (v : pystr) : result (dict vec) :=
  d <- lookup disp v ;;
  let (dx, dy) := d in
  dx2 <- num_mul dx dx ;;
  dy2 <- num_mul dy dy ;;
  sq <- num_add dx2 dy2 ;;
  dist <- sqrt_num sq ;;
  p <- lookup positions v ;;
  moved <- (if num_lt (Int 0) (Flt dist) then
              qx <- num_truediv dx (Flt dist) ;;
              px <- num_add (fst p) qx ;;
              qy <- num_truediv dy (Flt dist) ;;
              py <- num_add (snd p) qy ;;
              Ok (px, py)
            else Ok p) ;;
  Ok (dict_set positions v
        (clamp 1 (width - 2) (fst moved), clamp 1 (height - 3) (snd moved))).

(** Lines 31-77, one round of the simulation. *)
Definition round (k : float) (graph : dict (list pystr)) (width height : Z)
  (positions : dict vec) : result (dict vec) :=
  disp1 <- for_each (dict_keys graph)
             (fun disp v => for_each (dict_keys graph) (repel k positions v) disp)
             (zero_disp graph) ;;
  disp2 <- for_each graph
             (fun disp item =>
                for_each (snd item) (attract k graph positions (fst item)) disp)
             disp1 ;;
  for_each (dict_keys graph) (move width height disp2) positions.

Fixpoint rounds (n : nat) (k : float) (graph : dict (list pystr))
  (width height : Z) (positions : dict vec) : result (dict vec) :=
  match n with
  | O => Ok positions
  | S n' =>
      positions' <- round k graph width height positions ;;
      rounds n' k graph width height positions'
  end.

(** Lines 21-77: the positions before the final conversion. *)
Definition simulate (draws : nat -> N) (graph : dict (list pystr))
  (width height iterations : Z) : result (dict vec) :=
  positions <- init_positions draws graph width height ;;
  k <- ideal_distance graph width height ;;
  rounds (Z.to_nat iterations) k graph width height positions.

(** Line 80: one entry of the final comprehension. *)
Definition to_cell (cells : dict (Z * Z)) (item : pystr * vec)
  : result (dict (Z * Z)) :=
  cx <- int_num (fst (snd item)) ;;
  cy <- int_num (snd (snd item)) ;;
  Ok (dict_set cells (fst item) (cx, cy)).

Definition to_cells (positions : dict vec) : result (dict (Z * Z)) :=
  for_each positions to_cell [].

(** Lines 19-80. *)
Definition force_layout (draws : nat -> N) (graph : dict (list pystr))
  (width height iterations : Z) : result (dict (Z * Z)) :=
  positions <- simulate draws graph width height iterations ;;
  to_cells positions.

Definition default_iterations : Z := 200.

End Graph.

(** ** A small vault used in the examples: [v/A.md] holds [[[B]]], [v/B.md]
    is empty, [v/todo.txt] is not a note. *)

Module Vault.

Import LinkUtils.

Definition walk : list walk_entry :=
  [(str "v", [], [str "A.md"; str "B.md"; str "todo.txt"])].

Definition fs : filesystem := fun path =>
  if pystr_eqb path (str "v/A.md") then Ok (str "see [[B]]")
  else if pystr_eqb path (str "v/B.md") then Ok []
  else Raise FileNotFoundError.

(** The same vault when [v/B.md] has vanished after the listing. *)
Definition fs_vanished : filesystem := fun path =>
  if pystr_eqb path (str "v/A.md") then Ok (str "see [[B]]")
  else Raise FileNotFoundError.

(** The same vault when [v/B.md] may not be read. *)
Definition fs_denied : filesystem := fun path =>
  if pystr_eqb path (str "v/A.md") then Ok (str "see [[B]]")
  else if pystr_eqb path (str "v/B.md") then Raise PermissionError
  else Raise FileNotFoundError.

(** The same vault when [v/B.md] is not valid UTF-8. *)
Definition fs_undecodable : filesystem := fun path =>
  if pystr_eqb path (str "v/A.md") then Ok (str "see [[B]]")
  else if pystr_eqb path (str "v/B.md") then Raise UnicodeDecodeError
  else Raise FileNotFoundError.

Definition graph : dict (list pystr) := [(str "A", [str "B"]); (str "B", [])].

(** Random draws that start [A] at (10, 4) and [B] at (11, 5) on a screen
    of 80 columns and 24 rows. *)
Definition draws (n : nat) : N :=
  match n with
  | 0%nat => 9%N
  | 1%nat => 3%N
  | 2%nat => 10%N
  | _ => 4%N
  end.

End Vault.

(** ** [link_pattern.finditer] and the link under the cursor *)

Module Spans.

Import LinkUtils.
Local Open Scope Z_scope.

(** [l[a:b]]: both bounds are clamped like any slice bound. *)
Definition slice {A : Type} (l : list A) (a b : Z) : list A :=
  firstn (clamp_index l b - clamp_index l a) (skipn (clamp_index l a) l).

(** A match object, as far as the callers look at it: [group(1)] and
    [span()]. *)
Record span : Type := { group1 : pystr; span_start : Z; span_end : Z }.

(** [link_pattern.finditer(s)], scanning from offset [pos] of the line: a
    match ends where the unmatched rest begins. *)
Equations? finditer_from (pos : Z) (s : pystr) : list span
  by wf (length s) lt :=
  finditer_from pos [] := [];
  finditer_from pos (c :: s') with inspect (match_here (c :: s')) => {
    | exist _ (Some (name, rest)) Hm :=
        let stop := pos + (len (c :: s') - len rest) in
        {| group1 := name; span_start := pos; span_end := stop |}
          :: finditer_from stop rest;
    | exist _ None _ := finditer_from (pos + 1) s' }.
Proof.
  assert (Hrun : forall t, (length (snd (name_run t)) <= length t)%nat).
  { induction t as [|x t IH]; simpl; auto.
    destruct (N.eqb x RBRACKET); simpl; auto.
    destruct (name_run t); simpl in *; lia. }
  change (match_here (c :: s') = Some (name, rest)) in Hm.
  unfold match_here in Hm.
  destruct s' as [|b s']; try discriminate.
  destruct (N.eqb c LBRACKET && N.eqb b LBRACKET); try discriminate.
  specialize (Hrun s').
  destruct (name_run s') as [[|x nm] [|r1 [|r2 rs]]]; try discriminate.
  destruct (N.eqb r1 RBRACKET && N.eqb r2 RBRACKET); try discriminate.
  inversion Hm; subst. simpl in *. lia.
Qed.

Definition finditer (s : pystr) : list span := finditer_from 0 s.

End Spans.

(** ** [editor.py]: the links on screen and the link under the cursor *)

Module EditorLinks.

Import Spans Editor.
Local Open Scope Z_scope.

(** [enumerate(l)], counting from [row]. *)
Fixpoint enumerate_from {A : Type} (row : Z) (l : list A) : list (Z * A) :=
  match l with
  | [] => []
  | a :: l' => (row, a) :: enumerate_from (row + 1) l'
  end.

(** An entry of [links_on_screen] (lines 60-65). *)
Record link : Type := { note : pystr; link_y : Z; x_start : Z; x_end : Z }.

(** Lines 50-65: the links of the visible lines, row by row.  The drawing
    calls between them are left out. *)
Definition links_on_screen (s : state) (height : Z) : list link :=
  let visible_lines := slice (buffer s) (offset s) (offset s + height - 1) in
  flat_map
    (fun entry : Z * pystr =>
       map (fun m => {| note := group1 m; link_y := fst entry + offset s;
                        x_start := span_start m; x_end := span_end m |})
         (finditer (snd entry)))
    (enumerate_from 0 visible_lines).

(** Lines 97-102: the first link the cursor is over. *)
Definition current_link (s : state) (height : Z) : option link :=
  find (fun l => (y s =? link_y l) && (x_start l <=? x s) && (x s <? x_end l))
    (links_on_screen s height).

(** Lines 143-154, CTRL+G: the file the nested session opens, and whether it
    is created first. *)
Definition extension : pystr := str ".md".

Definition jump_target (paths : dict pystr) (vault_root note_name : pystr)
  : pystr * bool :=
  match dict_get paths note_name with
  | Some target_file => (target_file, false)
  | None => (LinkUtils.path_join vault_root (note_name ++ extension), true)
  end.

End EditorLinks.

(** ** [editor.py]: opening a session on the file as it is on disk *)

Module EditorFile.

Import Editor.

(** Line 31-32: [open(file_path, "r")] and [f.read()] for a file holding
    [raw], or for no file at all. *)
Definition read_disk (d : option pystr) : result pystr :=
  match d with
  | Some raw => Ok (text_mode_read raw)
  | None => Raise FileNotFoundError
  end.

(** Lines 26-45, as far as the buffer goes: the state the loop starts in
    when the file holds [d] or does not exist, and nothing else fails.  The
    curses calls of lines 22-24 and 45, the vault scan of line 40 and a read
    that fails for another reason than a missing file are not part of this
    function: [Session.open] has them. *)
Definition open_session (d : option pystr) : result state :=
  buffer0 <- load (read_disk d) ;;
  Ok (initial buffer0 d).

End EditorFile.

(** ** [editor.py]: [editing_screen] as a whole, with everything around the
       buffer that may raise *)

Module Session.

Import LinkUtils Editor EditorLinks.
Local Open Scope Z_scope.

(** What the session meets before its loop: the outcome of the curses calls
    of lines 22-24 ([curs_set], [keypad], [init_colors]), of the read of
    lines 31-32 (the text as it is stored, before the text mode translates
    its line ends), the files and the listing line 40 scans, and the outcome
    of [stdscr.timeout] at line 45. *)
Record opening : Type := {
  curses_setup : result unit;
  file_read : result pystr;
  vault_fs : filesystem;
  vault_walk : list walk_entry;
  curses_timeout : result unit
}.

Definition read_text (file : result pystr) : result pystr :=
  match file with
  | Ok raw => Ok (text_mode_read raw)
  | Raise e => Raise e
  end.

Definition on_disk (file : result pystr) : option pystr :=
  match file with
  | Ok raw => Some raw
  | Raise _ => None
  end.

(** Lines 22-45: the state the loop starts in, with [paths]. *)
Definition open (o : opening) : result (state * dict pystr) :=
  _ <- curses_setup o ;;
  buffer0 <- load (read_text (file_read o)) ;;
  '(graph, paths) <- build_note_graph (vault_fs o) (vault_walk o) ;;
  _ <- curses_timeout o ;;
  Ok (initial buffer0 (on_disk (file_read o)), paths).

(** What one pass of the loop meets: the outcome of its curses calls (lines
    48-132: [erase], [getmaxyx], [addstr], [move], [refresh], [getch]), the
    key, height and write permission it reads, and what lines 144-154 do
    with the target of a link: creating the file when it is to be created,
    then the nested session on it, until that session returns or raises. *)
Record pass_input : Type := {
  screen : result unit;
  read : input;
  nested : pystr * bool -> result unit
}.

(** Lines 143-154: CTRL+G with a link under the cursor. *)
Definition follow_link (p : pass_input) (paths : dict pystr)
  (vault_root : pystr) (s : state) : result unit :=
  if key (read p) =? 7 then
    match current_link s (height (read p)) with
    | Some l => nested p (jump_target paths vault_root (note l))
    | None => Ok tt
    end
  else Ok tt.

(** Lines 48-218, one pass of [while True]. *)
Definition pass (p : pass_input) (paths : dict pystr) (vault_root : pystr)
  (s : state) : result (option state) :=
  _ <- screen p ;;
  _ <- follow_link p paths vault_root s ;;
  iteration (read p) s.

Fixpoint run (passes : list pass_input) (paths : dict pystr)
  (vault_root : pystr) (s : state) : result state :=
  match passes with
  | [] => Ok s
  | p :: rest =>
      r <- pass p paths vault_root s ;;
      match r with
      | Some s' => run rest paths vault_root s'
      | None => Ok s
      end
  end.

(** Lines 21-218: the session on a finite sequence of passes, up to CTRL+Q;
    the value is the state the session is left in. *)
Definition editing_screen (o : opening) (vault_root : pystr)
  (passes : list pass_input) : result state :=
  '(s0, paths) <- open o ;;
  run passes paths vault_root s0.

End Session.

(** ** [graph.py]: [graph_view_screen] *)

Module GraphView.

Import Float Graph.
Local Open Scope Z_scope.

(** Line 104: one entry of [degrees]. *)
Definition degree_of (graph incoming : dict (list pystr)) (degrees : dict Z)
  (note : pystr) : result (dict Z) :=
  out <- lookup graph note ;;
  inc <- lookup incoming note ;;
  Ok (dict_set degrees note (len out + len inc)).

Definition degrees (graph incoming : dict (list pystr)) : result (dict Z) :=
  for_each (dict_keys graph) (degree_of graph incoming) [].

(** Line 105: [max(degrees.values()) if degrees else 1]. *)
Definition max_deg (degrees : dict Z) : Z :=
  match map snd degrees with
  | [] => 1
  | d :: rest => fold_left Z.max rest d
  end.

(** The thresholds of lines 124-128, each the binary64 value nearest to the
    decimal. *)
Definition lit_0_66 : float := S754_finite false 5944751508129055 (-53).
Definition lit_0_45 : float := S754_finite false 8106479329266893 (-54).
Definition lit_0_25 : float := S754_finite false 4503599627370496 (-54).

(** Line 122: [deg / max_deg if max_deg > 0 else 0]. *)
Definition importance (deg max_deg : Z) : result num :=
  if 0 <? max_deg then f <- int_truediv deg max_deg ;; Ok (Flt f)
  else Ok (Int 0).

(** The four symbols of lines 125-131. *)
Definition FISHEYE : pystr := [9673%N].
Definition BULLSEYE : pystr := [9678%N].
Definition SMALL_O : pystr := str "o".
Definition MIDDLE_DOT : pystr := [183%N].

(** Lines 124-131. *)
Definition symbol_of (importance : num) : pystr :=
  if num_lt (Flt lit_0_66) importance then FISHEYE
  else if num_lt (Flt lit_0_45) importance then BULLSEYE
  else if num_lt (Flt lit_0_25) importance then SMALL_O
  else MIDDLE_DOT.

(** Lines 121-131: the symbol drawn for one node. *)
Definition node_symbol (degrees : dict Z) (max_deg : Z) (note : pystr)
  : result pystr :=
  deg <- lookup degrees note ;;
  imp <- importance deg max_deg ;;
  Ok (symbol_of imp).

(** Lines 140-144: the loop has no [break], the last node on the cursor's
    cell is the one kept. *)
Definition current_note (positions : dict (Z * Z)) (cursor_x cursor_y : Z)
  : option pystr :=
  fold_left
    (fun current item =>
       if (cursor_x =? fst (snd item)) && (cursor_y =? snd (snd item))
       then Some (fst item) else current)
    positions None.

(** The cursor of the graph view. *)
Record view : Type := { cursor_x : Z; cursor_y : Z }.

(** Line 112. *)
Definition start (width height : Z) : view :=
  {| cursor_x := width / 2; cursor_y := height / 2 |}.

(** Lines 172-185: [None] when CTRL+Q leaves the loop.  CTRL+G opens the
    editor and comes back to the same cursor. *)
Definition handle_key (key width height : Z) (v : view) : option view :=
  if key =? 17 then None
  else if (key =? Editor.KEY_UP) && (cursor_y v >? 0) then
    Some {| cursor_x := cursor_x v; cursor_y := cursor_y v - 1 |}
  else if (key =? Editor.KEY_DOWN) && (cursor_y v <? height - 2) then
    Some {| cursor_x := cursor_x v; cursor_y := cursor_y v + 1 |}
  else if (key =? Editor.KEY_LEFT) && (cursor_x v >? 0) then
    Some {| cursor_x := cursor_x v - 1; cursor_y := cursor_y v |}
  else if (key =? Editor.KEY_RIGHT) && (cursor_x v <? width - 1) then
    Some {| cursor_x := cursor_x v + 1; cursor_y := cursor_y v |}
  else Some v.

(** The loop over a finite sequence of keys on a screen of constant size,
    up to CTRL+Q. *)
Fixpoint run (keys : list Z) (width height : Z) (v : view) : view :=
  match keys with
  | [] => v
  | key :: rest =>
      match handle_key key width height v with
      | Some v' => run rest width height v'
      | None => v
      end
  end.

(** Lines 182-185: the file CTRL+G opens, if any.  An empty name counts as
    no note ([if current_note]). *)
Definition jump (positions : dict (Z * Z)) (paths : dict pystr) (v : view)
  : option pystr :=
  match current_note positions (cursor_x v) (cursor_y v) with
  | Some (c :: name) => dict_get paths (c :: name)
  | _ => None
  end.

End GraphView.

(** ** [helper.py]: [help_screen] *)

Module Help.

Import Spans.
Local Open Scope Z_scope.

(** Line 63: the lines drawn above the status bar. *)
Definition visible (lines : list pystr) (offset height : Z) : list pystr :=
  slice lines offset (offset + height - 1).

(** Lines 78-87: [None] when CTRL+Q leaves the loop.  The height was read
    once, before the loop (line 56). *)
Definition handle_key (lines : list pystr) (height key offset : Z)
  : option Z :=
  if key =? 17 then None
  else if (key =? Editor.KEY_UP) && (offset >? 0) then Some (offset - 1)
  else if (key =? Editor.KEY_DOWN) && (offset <? len lines - height)
       then Some (offset + 1)
  else Some offset.

(** The loop over a finite sequence of keys, up to CTRL+Q. *)
Fixpoint run (keys : list Z) (lines : list pystr) (height offset : Z) : Z :=
  match keys with
  | [] => offset
  | key :: rest =>
      match handle_key lines height key offset with
      | Some offset' => run rest lines height offset'
      | None => offset
      end
  end.

End Help.

(** ** [links.py]: [link_tree_screen] *)

Module LinkTree.

Import Spans EditorLinks.
Local Open Scope Z_scope.

(** [str(n)] for an int. *)
Definition str_of_int (n : Z) : pystr :=
  str (DecimalString.NilZero.string_of_int (Z.to_int n)).

(** [a <= b] on strings: code point by code point. *)
Fixpoint str_le (a b : pystr) : bool :=
  match a, b with
  | [], _ => true
  | _ :: _, [] => false
  | x :: a', y :: b' =>
      if (x <? y)%N then true
      else if (y <? x)%N then false
      else str_le a' b'
  end.

(** [sorted(l, key=key)]: the sort is stable, an item goes behind the items
    already placed that may stay before it.  With [reverse=True] the items
    that may stay are those of a key at least as large. *)
Section Sorted.

Variables (A K : Type) (key : A -> K) (stays_before : K -> K -> bool).

Fixpoint insert_sorted (a : A) (l : list A) : list A :=
  match l with
  | [] => [a]
  | b :: l' =>
      if stays_before (key b) (key a) then b :: insert_sorted a l'
      else a :: l
  end.

Definition sorted (l : list A) : list A :=
  fold_left (fun placed a => insert_sorted a placed) l [].

End Sorted.

(** [d.get(k, [])]. *)
Definition get_or_empty (d : dict (list pystr)) (k : pystr) : list pystr :=
  match dict_get d k with
  | Some v => v
  | None => []
  end.

Section Lines.

(** [str.lower], which the model leaves open. *)
Variable lower : pystr -> pystr.

Variables (sort : option pystr) (graph incoming : dict (list pystr)).

Definition is_mode (name : string) : bool :=
  match sort with
  | Some mode => pystr_eqb mode (str name)
  | None => false
  end.

(** Lines 38-47.  The key of line 45 reads [graph[n]] for keys of [graph]
    only. *)
Definition ordered_notes : list pystr :=
  let notes := dict_keys graph in
  if is_mode "alpha" then sorted lower str_le notes
  else if is_mode "quantity" then
    sorted (fun n => len (get_or_empty graph n) + len (get_or_empty incoming n))
      Z.geb notes
  else notes.

(** Lines 56-59 and 67-70. *)
Definition ordered_links (l : list pystr) : list pystr :=
  if is_mode "alpha" then sorted lower str_le l
  else if is_mode "quantity" then
    sorted (fun x => len (get_or_empty graph x)) Z.geb l
  else l.

(** Lines 61 and 72. *)
Definition header (label : string) (n : Z) : pystr :=
  str "  " ++ str label ++ str " (" ++ str_of_int n ++ str ")".

(** Lines 63 and 74. *)
Definition entry (arrow : string) (name : pystr) : pystr :=
  str "    " ++ str arrow ++ str " [[" ++ name ++ str "]]".

(** Lines 52-76: the lines of one note. *)
Definition note_lines (note : pystr) : result (list pystr) :=
  let inc := ordered_links (get_or_empty incoming note) in
  out0 <- Graph.lookup graph note ;;
  let out := ordered_links out0 in
  Ok ([note] ++ [header "Incoming" (len inc)] ++ map (entry "<-") inc
      ++ [header "Outgoing" (len out)] ++ map (entry "->") out ++ [[]]).

(** Lines 50-76. *)
Definition build_lines : result (list pystr) :=
  for_each ordered_notes
    (fun lines note => block <- note_lines note ;; Ok (lines ++ block)) [].

End Lines.

(** The cursor and the scroll offset of the tree (lines 79-80). *)
Record tree : Type := { cursor_y : Z; cursor_x : Z; offset : Z }.

Definition start : tree := {| cursor_y := 0; cursor_x := 0; offset := 0 |}.

(** Line 88. *)
Definition visible (lines : list pystr) (height : Z) (t : tree) : list pystr :=
  slice lines (offset t) (offset t + height - 1).

(** Lines 91-103: the links of the window, by screen row. *)
Definition links_on_screen (vis : list pystr) : list link :=
  flat_map
    (fun entry : Z * pystr =>
       map (fun m => {| note := group1 m; link_y := fst entry;
                        x_start := span_start m; x_end := span_end m |})
         (finditer (snd entry)))
    (enumerate_from 0 vis).

(** Lines 133-136. *)
Definition clamp_cursor (vis : list pystr) (width : Z) (t : tree) : tree :=
  {| cursor_y := if cursor_y t >=? len vis then len vis - 1 else cursor_y t;
     cursor_x := if cursor_x t >=? width then width - 1 else cursor_x t;
     offset := offset t |}.

(** Lines 143-174: [None] when CTRL+Q leaves the loop.  CTRL+G opens the
    editor and comes back to the same cursor. *)
Definition handle_key (lines vis : list pystr) (key height width : Z)
  (t : tree) : option tree :=
  if key =? 17 then None
  else if key =? Editor.KEY_UP then
    if cursor_y t >? 0 then
      Some {| cursor_y := cursor_y t - 1; cursor_x := cursor_x t;
              offset := offset t |}
    else if offset t >? 0 then
      Some {| cursor_y := cursor_y t; cursor_x := cursor_x t;
              offset := offset t - 1 |}
    else Some {| cursor_y := cursor_y t; cursor_x := 0; offset := offset t |}
  else if key =? Editor.KEY_DOWN then
    if cursor_y t <? len vis - 1 then
      Some {| cursor_y := cursor_y t + 1; cursor_x := cursor_x t;
              offset := offset t |}
    else if offset t <? len lines - (height - 1) then
      Some {| cursor_y := cursor_y t; cursor_x := cursor_x t;
              offset := offset t + 1 |}
    else
      match vis with
      | [] => Some t
      | _ :: _ =>
          Some {| cursor_y := cursor_y t; cursor_x := len (last vis []);
                  offset := offset t |}
      end
  else if (key =? Editor.KEY_LEFT) && (cursor_x t >? 0) then
    Some {| cursor_y := cursor_y t; cursor_x := cursor_x t - 1;
            offset := offset t |}
  else if (key =? Editor.KEY_RIGHT) && (cursor_x t <? width - 1) then
    Some {| cursor_y := cursor_y t; cursor_x := cursor_x t + 1;
            offset := offset t |}
  else Some t.

(** What one iteration takes from outside: the key read by [getch] and the
    size given by [getmaxyx]. *)
Record input : Type := { key : Z; height : Z; width : Z }.

(** Lines 133-138: where [stdscr.move] puts the cursor in this iteration. *)
Definition moved_to (lines : list pystr) (i : input) (t : tree) : tree :=
  clamp_cursor (visible lines (height i) t) (width i) t.

(** One iteration of [while True], lines 82-174. *)
Definition iteration (lines : list pystr) (i : input) (t : tree)
  : option tree :=
  handle_key lines (visible lines (height i) t) (key i) (height i) (width i)
    (moved_to lines i t).

Fixpoint run (inputs : list input) (lines : list pystr) (t : tree) : tree :=
  match inputs with
  | [] => t
  | i :: rest =>
      match iteration lines i t with
      | Some t' => run rest lines t'
      | None => t
      end
  end.

(** Lines 164-174: the file CTRL+G opens in this iteration, if any. *)
Definition follow (lines : list pystr) (paths : dict pystr) (i : input)
  (t : tree) : option pystr :=
  let at_cursor := moved_to lines i t in
  match find (fun l => (link_y l =? cursor_y at_cursor)
                       && (x_start l <=? cursor_x at_cursor)
                       && (cursor_x at_cursor <? x_end l))
          (links_on_screen (visible lines (height i) t)) with
  | Some l => dict_get paths (note l)
  | None => None
  end.

End LinkTree.

(** ** [themes.py] *)

Module Themes.

(** Line 14. *)
Definition AVAILABLE_THEMES : list pystr :=
  [str "green"; str "purple"; str "cyan"; str "blue"; str "yellow";
   str "white"; str "red"].

(** Lines 16-21.  [random.choice] picks the item at the index the raw draw
    gives. *)
Definition resolve_theme (draw : N) (theme : pystr) : pystr :=
  if pystr_eqb theme (str "random")
  then nth (N.to_nat (draw mod 7)) AVAILABLE_THEMES []
  else theme.

(** The colours of [curses]. *)
Inductive color : Type :=
| COLOR_BLACK | COLOR_RED | COLOR_GREEN | COLOR_YELLOW
| COLOR_BLUE | COLOR_MAGENTA | COLOR_CYAN | COLOR_WHITE.

(** The colour pairs of the terminal: foreground and background by pair
    number. *)
Definition pairs : Type := Z -> option (color * color).

Definition init_pair (n : Z) (fg bg : color) (p : pairs) : pairs :=
  fun k => if (k =? n)%Z then Some (fg, bg) else p k.

(** Lines 23-54. *)
Definition init_colors (theme : pystr) (p : pairs) : pairs :=
  let p := init_pair 1 COLOR_GREEN COLOR_BLACK p in
  let p := init_pair 2 COLOR_RED COLOR_BLACK p in
  if pystr_eqb theme (str "green") then
    init_pair 2 COLOR_YELLOW COLOR_BLACK (init_pair 1 COLOR_GREEN COLOR_BLACK p)
  else if pystr_eqb theme (str "purple") then
    init_pair 2 COLOR_WHITE COLOR_BLACK (init_pair 1 COLOR_MAGENTA COLOR_BLACK p)
  else if pystr_eqb theme (str "cyan") then
    init_pair 2 COLOR_WHITE COLOR_BLACK (init_pair 1 COLOR_CYAN COLOR_BLACK p)
  else if pystr_eqb theme (str "blue") then
    init_pair 2 COLOR_WHITE COLOR_BLACK (init_pair 1 COLOR_BLUE COLOR_BLACK p)
  else if pystr_eqb theme (str "yellow") then
    init_pair 2 COLOR_RED COLOR_BLACK (init_pair 1 COLOR_YELLOW COLOR_BLACK p)
  else if pystr_eqb theme (str "white") then
    init_pair 2 COLOR_CYAN COLOR_BLACK (init_pair 1 COLOR_WHITE COLOR_BLACK p)
  else if pystr_eqb theme (str "red") then
    init_pair 2 COLOR_BLUE COLOR_BLACK (init_pair 1 COLOR_RED COLOR_BLACK p)
  else p.

End Themes.

(** ** [boot.py]: what is computed before a screen opens *)

Module Boot.

Import LinkUtils.

(** What the program reads from outside: the files, the listing [os.walk]
    gives for a directory, the random draws behind the layout, and whether
    [os.makedirs] succeeds. *)
Record world : Type := {
  fs : filesystem;
  walk_of : pystr -> list walk_entry;
  layout_draws : nat -> N;
  theme_draw : N;
  makedirs : pystr -> result unit
}.

(** The tuple [args] of [bootup_screen], by position: two strings, then a
    string or [None], or two strings only. *)
Inductive boot_args : Type :=
| Args3 (a b : pystr) (c : option pystr)
| Args2 (a b : pystr).

(** The screen that is finally called, with its arguments by name. *)
Inductive screen_call : Type :=
| editing_screen (file_path : pystr) (theme : option pystr)
    (vault_root : pystr)
| link_tree_screen (root_dir : pystr) (sort : option pystr) (theme : pystr)
    (graph : dict (list pystr)) (paths : dict pystr)
    (incoming : dict (list pystr))
| graph_view_screen (root_dir theme : pystr)
    (graph : dict (list pystr)) (paths : dict pystr)
    (incoming : dict (list pystr)) (positions : dict (Z * Z))
| help_screen (theme : pystr).

(** The value [precompute_for_mode] returns: the mode and the tuple, by
    position. *)
Inductive precomputed : Type :=
| PEdit (a : pystr) (b : option pystr) (c : pystr)
| PTree (a : pystr) (b : option pystr) (c : pystr)
    (graph : dict (list pystr)) (paths : dict pystr)
    (incoming : dict (list pystr))
| PGraph (a b : pystr)
    (graph : dict (list pystr)) (paths : dict pystr)
    (incoming : dict (list pystr)) (positions : dict (Z * Z)).

(** Lines 82-101.  Unpacking a tuple of the wrong length is a
    [ValueError], like an unknown mode. *)
Definition precompute_for_mode (w : world) (mode : pystr) (args : boot_args)
  (screen_size : Z * Z) : result precomputed :=
  if pystr_eqb mode (str "edit") then
    match args with
    | Args3 full_path vault_root theme => Ok (PEdit full_path theme vault_root)
    | _ => Raise ValueError
    end
  else if pystr_eqb mode (str "link-tree") then
    match args with
    | Args3 root_dir theme sort =>
        '(graph, paths) <- build_note_graph (fs w) (walk_of w root_dir) ;;
        let incoming := build_incoming_links graph in
        Ok (PTree root_dir sort theme graph paths incoming)
    | _ => Raise ValueError
    end
  else if pystr_eqb mode (str "link-graph") then
    match args with
    | Args2 root_dir theme =>
        '(graph, paths) <- build_note_graph (fs w) (walk_of w root_dir) ;;
        let incoming := build_incoming_links graph in
        let (height, width) := screen_size in
        positions <- Graph.force_layout (layout_draws w) graph width height
                       Graph.default_iterations ;;
        Ok (PGraph root_dir theme graph paths incoming positions)
    | _ => Raise ValueError
    end
  else Raise ValueError.

(** Lines 109-117 and 190-222: the precomputation runs with the size of the
    screen at that time, then the screen of the mode is called with what it
    returned.  This is the path from the arguments to the call, for a boot
    screen whose curses calls succeed: the calls of lines 104-107 and the
    animation loop of lines 124-187, which draws on rows 1 and 2 and raises
    [curses.error] where the terminal has no such row, are not part of this
    function, nor is what the screen called does. *)
Definition bootup_screen (w : world) (mode : pystr) (args : boot_args)
  (screen_size : Z * Z) : result screen_call :=
  r <- precompute_for_mode w mode args screen_size ;;
  match r with
  | PEdit full_path theme vault_root =>
      Ok (editing_screen full_path theme vault_root)
  | PTree root_dir sort theme graph paths incoming =>
      Ok (link_tree_screen root_dir sort theme graph paths incoming)
  | PGraph root_dir theme graph paths incoming positions =>
      Ok (graph_view_screen root_dir theme graph paths incoming positions)
  end.

End Boot.

(** ** [main.py]: the command line *)

Module Main.

Import LinkUtils Themes Boot.

(** Lines 25-29: what the parsing loop fills in. *)
Record config : Type := {
  mode : pystr;
  theme : pystr;
  link_tree_sort : option pystr;
  path : option pystr;
  file_name : option pystr
}.

Definition defaults : config :=
  {| mode := str "edit"; theme := str "green"; link_tree_sort := None;
     path := None; file_name := None |}.

(** How [main_entry] ends: by returning from a call, or by [sys.exit(1)]
    after a printed message. *)
Inductive outcome (A : Type) : Type :=
| Done (a : A)
| Exit (message : pystr).

Arguments Done {A} a.
Arguments Exit {A} message.

Definition set_mode (c : config) (m : pystr) : config :=
  {| mode := m; theme := theme c; link_tree_sort := link_tree_sort c;
     path := path c; file_name := file_name c |}.

Definition set_theme (c : config) (t : pystr) : config :=
  {| mode := mode c; theme := t; link_tree_sort := link_tree_sort c;
     path := path c; file_name := file_name c |}.

Definition set_sort (c : config) (s : pystr) : config :=
  {| mode := mode c; theme := theme c; link_tree_sort := Some s;
     path := path c; file_name := file_name c |}.

Definition set_path (c : config) (p : pystr) : config :=
  {| mode := mode c; theme := theme c; link_tree_sort := link_tree_sort c;
     path := Some p; file_name := file_name c |}.

Definition set_file_name (c : config) (f : pystr) : config :=
  {| mode := mode c; theme := theme c; link_tree_sort := link_tree_sort c;
     path := path c; file_name := Some f |}.

(** Lines 33-64: the loop over [args], from index [i] on. *)
Fixpoint parse (args : list pystr) (c : config) : outcome config :=
  match args with
  | [] => Done c
  | arg :: rest =>
      if pystr_eqb arg (str "--theme") then
        match rest with
        | value :: rest' => parse rest' (set_theme c value)
        | [] => Exit (str "Error: --theme requires a value")
        end
      else if pystr_eqb arg (str "--link-tree") then
        parse rest (set_mode c (str "link-tree"))
      else if pystr_eqb arg (str "-h") || pystr_eqb arg (str "--help") then
        parse rest (set_mode c (str "help"))
      else if pystr_eqb arg (str "-a") then parse rest (set_sort c (str "alpha"))
      else if pystr_eqb arg (str "-q") then
        parse rest (set_sort c (str "quantity"))
      else if pystr_eqb arg (str "--link-graph") then
        parse rest (set_mode c (str "link-graph"))
      else
        match path c, file_name c with
        | None, _ => parse rest (set_path c arg)
        | Some _, None => parse rest (set_file_name c arg)
        | Some _, Some _ => Exit (str "Unknown argument: " ++ arg)
        end
  end.

(** [not path]: no argument, or the empty string. *)
Definition missing (a : option pystr) : bool :=
  match a with
  | Some (_ :: _) => false
  | _ => true
  end.

Definition given (a : option pystr) : pystr :=
  match a with
  | Some s => s
  | None => []
  end.

Definition extension : pystr := str ".md".

(** Lines 66-102, after the loop: the screen that ends up being called,
    [None] when no branch is taken.  [screen_size] is what [getmaxyx] gives
    when the boot screen starts. *)
Definition launch (w : world) (screen_size : Z * Z) (c : config)
  : outcome (result (option screen_call)) :=
  let theme := resolve_theme (theme_draw w) (theme c) in
  if pystr_eqb (mode c) (str "edit") then
    if missing (path c) || missing (file_name c) then
      Exit (str "Usage: greenlight <directory> <filename>")
    else
      Done (_ <- makedirs w (given (path c)) ;;
            let full_path :=
              path_join (given (path c)) (given (file_name c) ++ extension) in
            call <- bootup_screen w (str "edit")
                      (Args3 full_path (given (path c)) (Some theme))
                      screen_size ;;
            Ok (Some call))
  else if pystr_eqb (mode c) (str "link-tree") then
    if missing (path c) then
      Exit (str "Usage: greenlight <directory> --link-tree [-a|-q]")
    else
      Done (call <- bootup_screen w (str "link-tree")
                      (Args3 (given (path c)) theme (link_tree_sort c))
                      screen_size ;;
            Ok (Some call))
  else if pystr_eqb (mode c) (str "link-graph") then
    if missing (path c) then
      Exit (str "Usage: greenlight <directory> --link-graph")
    else
      Done (call <- bootup_screen w (str "link-graph")
                      (Args2 (given (path c)) theme) screen_size ;;
            Ok (Some call))
  else if pystr_eqb (mode c) (str "help") then
    Done (Ok (Some (help_screen theme)))
  else Done (Ok None).

(** Lines 22-102. *)
Definition main_entry (w : world) (screen_size : Z * Z) (argv : list pystr)
  : outcome (result (option screen_call)) :=
  match parse argv defaults with
  | Done c => launch w screen_size c
  | Exit message => Exit message
  end.

End Main.

(* ===================================================================== *)
(** * Part II: properties *)
(* ===================================================================== *)

Unset Implicit Arguments.

(** ** Text: line splitting, joining, link extraction *)

Section TextFacts.

Import LinkUtils Editor.

Lemma findall_cons (c : char) (s : pystr) :
  findall (c :: s) =
  match match_here (c :: s) with
  | Some (name, rest) => name :: findall rest
  | None => findall s
  end.
Proof.
  simp findall.
  destruct (inspect (match_here (c :: s))) as [[[name rest]|] E];
    simp findall; rewrite E; reflexivity.
Qed.

(** The run of name characters, seen from the text with one more character. *)
Lemma name_run_snoc (s : pystr) (c : char) :
  c <> RBRACKET ->
  name_run (s ++ [c]) =
  match snd (name_run s) with
  | [] => (fst (name_run s) ++ [c], [])
  | _ :: _ => (fst (name_run s), snd (name_run s) ++ [c])
  end.
Proof.
  intros Hc. induction s as [|x s IH]; simpl.
  - apply N.eqb_neq in Hc. rewrite Hc. reflexivity.
  - destruct (N.eqb x RBRACKET) eqn:Ex; simpl; [reflexivity|].
    rewrite IH. destruct (name_run s) as [n [|r rs]]; reflexivity.
Qed.

Lemma match_here_snoc (s : pystr) (c : char) :
  c <> RBRACKET ->
  match_here (s ++ [c]) =
  match match_here s with
  | Some (name, rest) => Some (name, rest ++ [c])
  | None => None
  end.
Proof.
  intros Hc. destruct s as [|a [|b s]]; simpl.
  - reflexivity.
  - destruct (N.eqb a LBRACKET && N.eqb c LBRACKET); reflexivity.
  - destruct (N.eqb a LBRACKET && N.eqb b LBRACKET); [|reflexivity].
    rewrite name_run_snoc by assumption.
    destruct (name_run s) as [[|x n] [|r1 [|r2 rest]]]; simpl;
      try reflexivity; try (destruct n; reflexivity).
    + apply N.eqb_neq in Hc. rewrite Hc, andb_false_r. reflexivity.
    + destruct (N.eqb r1 RBRACKET && N.eqb r2 RBRACKET); reflexivity.
Qed.

(** A character other than [']'] added at the end creates no link and
    breaks none. *)
Lemma findall_snoc (c : char) :
  c <> RBRACKET -> forall s, findall (s ++ [c]) = findall s.
Proof.
  intros Hc s.
  remember (length s) as n eqn:Hn.
  revert s Hn. induction n as [n IH] using lt_wf_ind. intros s Hn.
  destruct s as [|x s].
  - simpl. rewrite findall_cons. simpl. simp findall. reflexivity.
  - change ((x :: s) ++ [c]) with (x :: (s ++ [c])).
    rewrite !findall_cons.
    change (x :: (s ++ [c])) with ((x :: s) ++ [c]).
    rewrite match_here_snoc by assumption.
    destruct (match_here (x :: s)) as [[name rest]|] eqn:E.
    + f_equal. apply (IH (length rest)); [|reflexivity].
      subst n. clear - E. revert E. unfold match_here.
      destruct s as [|b s]; try discriminate.
      destruct (N.eqb x LBRACKET && N.eqb b LBRACKET); try discriminate.
      assert (Hrun : forall t, length (snd (name_run t)) <= length t).
      { induction t as [|y t IHt]; simpl; auto.
        destruct (N.eqb y RBRACKET); simpl; auto.
        destruct (name_run t); simpl in *; lia. }
      specialize (Hrun s).
      destruct (name_run s) as [[|y nm] [|r1 [|r2 rs]]]; try discriminate.
      destruct (N.eqb r1 RBRACKET && N.eqb r2 RBRACKET); try discriminate.
      intros H; inversion H; subst. simpl in *. lia.
    + apply (IH (length s)); [subst n; simpl; lia | reflexivity].
Qed.

Lemma join_cons_char (sep : pystr) (c : char) (l : pystr) (ls : list pystr) :
  join sep ((c :: l) :: ls) = c :: join sep (l :: ls).
Proof. destruct ls; reflexivity. Qed.

Lemma splitlines_cons (c : char) (s : pystr) :
  splitlines (c :: s) =
  if is_linebreak c then
    if N.eqb c CR then
      match s with
      | c' :: s'' =>
          if N.eqb c' LF then [] :: splitlines s'' else [] :: splitlines s
      | [] => [] :: splitlines s
      end
    else [] :: splitlines s
  else
    match splitlines s with
    | [] => [[c]]
    | line :: rest => (c :: line) :: rest
    end.
Proof.
  simpl. destruct (is_linebreak c), (N.eqb c CR), s; reflexivity.
Qed.

Lemma splitlines_nil_inv (s : pystr) : splitlines s = [] -> s = [].
Proof.
  destruct s as [|c s]; [reflexivity|]. simpl.
  destruct (is_linebreak c).
  - destruct (N.eqb c CR); [destruct s as [|c' s]|]; try discriminate.
    destruct (N.eqb c' LF); discriminate.
  - destruct (splitlines s); discriminate.
Qed.

(** No line of [splitlines] contains a line boundary. *)
Lemma splitlines_no_linebreak (s : pystr) :
  Forall (Forall (fun c => is_linebreak c = false)) (splitlines s).
Proof.
  remember (length s) as n eqn:Hn. revert s Hn.
  induction n as [n IH] using lt_wf_ind. intros s Hn.
  destruct s as [|c s]; simpl; [constructor|].
  assert (IHs : Forall (Forall (fun c => is_linebreak c = false)) (splitlines s))
    by (apply (IH (length s)); [subst n; simpl; lia | reflexivity]).
  destruct (is_linebreak c) eqn:Hc.
  - destruct (N.eqb c CR); [destruct s as [|c' s]|];
      try (constructor; [constructor | assumption]).
    destruct (N.eqb c' LF); constructor; try constructor; try assumption.
    apply (IH (length s)); [subst n; simpl; lia | reflexivity].
  - destruct (splitlines s) as [|line rest]; repeat constructor; try assumption.
    + inversion IHs; assumption.
    + inversion IHs; assumption.
Qed.

(** The lines hold the characters that are not boundaries, in order. *)
Lemma concat_splitlines (s : pystr) :
  concat (splitlines s) = filter (fun c => negb (is_linebreak c)) s.
Proof.
  remember (length s) as n eqn:Hn. revert s Hn.
  induction n as [n IH] using lt_wf_ind. intros s Hn.
  destruct s as [|c s]; [reflexivity|].
  assert (IHs : concat (splitlines s) = filter (fun c => negb (is_linebreak c)) s)
    by (apply (IH (length s)); [subst n; simpl; lia | reflexivity]).
  rewrite splitlines_cons. cbn [filter].
  destruct (is_linebreak c) eqn:Hc; cbn [negb].
  - destruct (N.eqb c CR); [destruct s as [|c' s]|]; try exact IHs.
    destruct (N.eqb c' LF) eqn:Hc'; [|exact IHs].
    apply N.eqb_eq in Hc'. subst c'. simpl.
    apply (IH (length s)); [subst n; simpl; lia | reflexivity].
  - rewrite <- IHs. destruct (splitlines s); reflexivity.
Qed.

(** When LF is the only boundary in use, joining the lines gives the text
    back, up to one final LF. *)
Lemma serialize_splitlines (s : pystr) :
  (forall c, In c s -> is_linebreak c = true -> c = LF) ->
  s = serialize (splitlines s) \/ s = serialize (splitlines s) ++ [LF].
Proof.
  unfold serialize.
  induction s as [|c s IH]; intros H; [left; reflexivity|].
  assert (Hs : forall c, In c s -> is_linebreak c = true -> c = LF)
    by (intros; apply H; [right|]; assumption).
  specialize (IH Hs). simpl splitlines.
  destruct (is_linebreak c) eqn:Hc.
  - assert (c = LF) by (apply H; [left; reflexivity | assumption]). subst c.
    change (N.eqb LF CR) with false. cbv iota.
    destruct (splitlines s) as [|l ls] eqn:E.
    + apply splitlines_nil_inv in E. subst s. right. reflexivity.
    + change (join [LF] ([] :: l :: ls)) with (LF :: join [LF] (l :: ls)).
      destruct IH as [IH|IH]; [left | right; rewrite <- app_comm_cons];
        rewrite <- IH; reflexivity.
  - destruct (splitlines s) as [|l ls] eqn:E.
    + apply splitlines_nil_inv in E. subst s. left. reflexivity.
    + rewrite join_cons_char.
      destruct IH as [IH|IH]; [left | right; rewrite <- app_comm_cons];
        rewrite <- IH; reflexivity.
Qed.

Lemma serialize_loadFromText (s : pystr) :
  serialize (loadFromText s) = serialize (splitlines s).
Proof. unfold loadFromText. destruct (splitlines s); reflexivity. Qed.

(** The round trip through the buffer leaves the list of links as it was. *)
Lemma roundtrip_findall (text : pystr) :
  (forall c, In c text -> is_linebreak c = true -> c = LF) ->
  findall (serialize (loadFromText text)) = findall text.
Proof.
  intros H. rewrite serialize_loadFromText.
  destruct (serialize_splitlines text H) as [E|E].
  - rewrite <- E. reflexivity.
  - rewrite E at 2. rewrite findall_snoc; [reflexivity | discriminate].
Qed.

(** The characters [str.splitlines] takes for line boundaries. *)
Lemma is_linebreak_chars (c : char) :
  is_linebreak c = true <->
  In c [10; 11; 12; 13; 28; 29; 30; 133; 8232; 8233]%N.
Proof.
  split.
  - intros H. unfold is_linebreak in H. destruct c as [|p]; [discriminate|].
    repeat (match goal with
            | q : positive |- _ => destruct q; try discriminate H
            end);
      simpl; auto 12.
  - intros H. simpl in H.
    repeat (destruct H as [<-|H]; [reflexivity|]). destruct H.
Qed.

(** What follows a boundary [b]: after a CR, a LF that comes next belongs to
    the same boundary. *)
Definition after_boundary (b : char) (rest : pystr) : pystr :=
  if N.eqb b CR then
    match rest with
    | c :: rest' => if N.eqb c LF then rest' else rest
    | [] => rest
    end
  else rest.

(** The first boundary of a text ends its first line, and the split goes on
    behind it. *)
Lemma splitlines_at_boundary (line : pystr) (b : char) (rest : pystr) :
  Forall (fun c => is_linebreak c = false) line ->
  is_linebreak b = true ->
  splitlines (line ++ b :: rest) = line :: splitlines (after_boundary b rest).
Proof.
  intros Hline Hb. induction Hline as [|c line Hc _ IH].
  - cbn [app]. rewrite splitlines_cons, Hb. unfold after_boundary.
    destruct (N.eqb b CR); [|reflexivity].
    destruct rest as [|c rest]; [reflexivity|].
    destruct (N.eqb c LF); reflexivity.
  - rewrite <- app_comm_cons, splitlines_cons, Hc, IH. reflexivity.
Qed.

(** A text without any boundary is one line. *)
Lemma splitlines_one_line (line : pystr) :
  Forall (fun c => is_linebreak c = false) line -> line <> [] ->
  splitlines line = [line].
Proof.
  intros Hline. induction Hline as [|c line Hc Hl IH]; intros Hne; [congruence|].
  rewrite splitlines_cons, Hc.
  destruct line as [|c' line]; [reflexivity|].
  rewrite IH by discriminate. reflexivity.
Qed.

Lemma loadFromText_nonempty (s : pystr) :
  s <> [] -> loadFromText s = splitlines s.
Proof.
  intros Hne. unfold loadFromText.
  destruct (splitlines s) eqn:E; [|reflexivity].
  apply splitlines_nil_inv in E. contradiction.
Qed.

(** The text with every line boundary written as LF, CR LF counting as
    one boundary. *)
Fixpoint unify_boundaries (s : pystr) : pystr :=
  match s with
  | [] => []
  | c :: s' =>
      if is_linebreak c then
        match N.eqb c CR, s' with
        | true, c' :: s'' =>
            if N.eqb c' LF then LF :: unify_boundaries s''
            else LF :: unify_boundaries s'
        | _, _ => LF :: unify_boundaries s'
        end
      else c :: unify_boundaries s'
  end.

Lemma unify_boundaries_cons (c : char) (s : pystr) :
  unify_boundaries (c :: s) =
  if is_linebreak c then LF :: unify_boundaries (after_boundary c s)
  else c :: unify_boundaries s.
Proof.
  simpl. unfold after_boundary.
  destruct (is_linebreak c), (N.eqb c CR), s as [|c' s]; try reflexivity.
  destruct (N.eqb c' LF); reflexivity.
Qed.

Lemma length_after_boundary (b : char) (rest : pystr) :
  length (after_boundary b rest) <= length rest.
Proof.
  unfold after_boundary. destruct (N.eqb b CR); [|lia].
  destruct rest as [|c rest]; [lia|]. destruct (N.eqb c LF); simpl; lia.
Qed.

(** Joining the lines gives the text back with its boundaries unified, up
    to one final LF. *)
Lemma serialize_splitlines_unified (s : pystr) :
  unify_boundaries s = serialize (splitlines s) \/
  unify_boundaries s = serialize (splitlines s) ++ [LF].
Proof.
  unfold serialize.
  remember (length s) as n eqn:Hn. revert s Hn.
  induction n as [n IH] using lt_wf_ind. intros s Hn.
  destruct s as [|c s]; [left; reflexivity|].
  rewrite unify_boundaries_cons.
  destruct (is_linebreak c) eqn:Hc.
  - pose proof (splitlines_at_boundary [] c s (Forall_nil _) Hc) as Hsplit.
    cbn [app] in Hsplit. rewrite Hsplit.
    pose proof (length_after_boundary c s) as Hlen.
    assert (IHr := IH (length (after_boundary c s))
                     ltac:(subst n; simpl; lia) (after_boundary c s) eq_refl).
    destruct (splitlines (after_boundary c s)) as [|l ls] eqn:E.
    + apply splitlines_nil_inv in E. rewrite E. right. reflexivity.
    + change (join [LF] ([] :: l :: ls)) with (LF :: join [LF] (l :: ls)).
      destruct IHr as [IHr|IHr]; [left | right; rewrite <- app_comm_cons];
        rewrite IHr; reflexivity.
  - assert (IHs := IH (length s) ltac:(subst n; simpl; lia) s eq_refl).
    rewrite splitlines_cons, Hc.
    destruct (splitlines s) as [|l ls] eqn:E.
    + apply splitlines_nil_inv in E. subst s. left. reflexivity.
    + rewrite join_cons_char.
      destruct IHs as [IHs|IHs]; [left | right; rewrite <- app_comm_cons];
        rewrite IHs; reflexivity.
Qed.

(** Where LF is the only boundary in use there is nothing to unify. *)
Lemma unify_boundaries_id (s : pystr) :
  (forall c, In c s -> is_linebreak c = true -> c = LF) ->
  unify_boundaries s = s.
Proof.
  induction s as [|c s IH]; intros H; [reflexivity|].
  assert (Hs : forall c, In c s -> is_linebreak c = true -> c = LF)
    by (intros; apply H; [right|]; assumption).
  rewrite unify_boundaries_cons.
  destruct (is_linebreak c) eqn:Hc; [|rewrite (IH Hs); reflexivity].
  rewrite (H c (or_introl eq_refl) Hc).
  change (after_boundary LF s) with s. rewrite (IH Hs). reflexivity.
Qed.

(** C4, as stated, fails: a carriage return in the content ends a line and
    is dropped, whether or not the text went through the text-mode read, and
    so does a form feed, which is no [\n] either. *)
Lemma loadFromText_drops_carriage_return :
  let content := str "a" ++ [CR] ++ str "b" in
  let paged := str "a" ++ [12%N] ++ str "b" in
  In CR content /\
  loadFromText content = [str "a"; str "b"] /\
  loadFromText (text_mode_read content) = [str "a"; str "b"] /\
  ~ In CR (concat (loadFromText content)) /\
  ~ In LF paged /\
  loadFromText (text_mode_read paged) = [str "a"; str "b"].
Proof.
  cbv zeta. repeat split.
  - right; left; reflexivity.
  - intros H. vm_compute in H. intuition discriminate.
  - intros H. vm_compute in H. intuition discriminate.
Qed.

(** C4, amended: [loadFromText] splits the content at every line boundary of
    [str.splitlines] (LF, CR, CR LF, VT, FF, FS, GS, RS, NEL, LS, PS).  The
    buffer is never empty, an empty split gives the single empty line, no
    buffer line holds a boundary character (a carriage return never
    survives), and the lines hold exactly the other characters, in order.
    Every boundary ends a line: a content without boundary is one line, and
    in a content [line ++ b :: rest] whose first boundary is [b], the first
    buffer line is [line] and the lines that follow are those of what comes
    after the boundary (none when nothing comes after it), a LF that follows
    a CR being part of the same boundary. *)
Theorem loadFromText_splits_at_every_boundary (content : pystr) :
  loadFromText content <> [] /\
  (splitlines content = [] -> loadFromText content = [[]]) /\
  (forall line c, In line (loadFromText content) -> In c line ->
     is_linebreak c = false) /\
  concat (loadFromText content) =
    filter (fun c => negb (is_linebreak c)) content /\
  (content = [] -> loadFromText content = [[]]) /\
  (content <> [] ->
   (forall c, In c content ->
      ~ In c [10; 11; 12; 13; 28; 29; 30; 133; 8232; 8233]%N) ->
   loadFromText content = [content]) /\
  (forall line b rest,
     content = line ++ b :: rest ->
     (forall c, In c line ->
        ~ In c [10; 11; 12; 13; 28; 29; 30; 133; 8232; 8233]%N) ->
     In b [10; 11; 12; 13; 28; 29; 30; 133; 8232; 8233]%N ->
     loadFromText content =
       line :: match after_boundary b rest with
               | [] => []
               | _ :: _ => loadFromText (after_boundary b rest)
               end).
Proof.
  assert (Hclean : forall l : pystr,
             (forall c, In c l ->
                ~ In c [10; 11; 12; 13; 28; 29; 30; 133; 8232; 8233]%N) ->
             Forall (fun c => is_linebreak c = false) l).
  { intros l H. apply Forall_forall. intros c Hin.
    destruct (is_linebreak c) eqn:Hc; [|reflexivity].
    apply is_linebreak_chars in Hc. destruct (H c Hin Hc). }
  pose proof (splitlines_no_linebreak content) as Hno.
  pose proof (concat_splitlines content) as Hcat.
  split; [|split; [|split; [|split; [|split; [|split]]]]].
  - unfold loadFromText. destruct (splitlines content); discriminate.
  - intros E. unfold loadFromText. rewrite E. reflexivity.
  - intros line c Hl Hin. unfold loadFromText in Hl.
    destruct (splitlines content) as [|l ls] eqn:E.
    + destruct Hl as [<-|[]]. destruct Hin.
    + rewrite Forall_forall in Hno. specialize (Hno line Hl).
      rewrite Forall_forall in Hno. exact (Hno c Hin).
  - unfold loadFromText. destruct (splitlines content); [|exact Hcat].
    simpl in *. exact Hcat.
  - intros ->. reflexivity.
  - intros Hne Hc. rewrite loadFromText_nonempty by exact Hne.
    apply splitlines_one_line; [apply Hclean; exact Hc | exact Hne].
  - intros line b rest -> Hline Hb.
    rewrite loadFromText_nonempty by (destruct line; discriminate).
    rewrite splitlines_at_boundary;
      [|apply Hclean; exact Hline | apply is_linebreak_chars; exact Hb].
    destruct (after_boundary b rest) as [|c r] eqn:E; [reflexivity|].
    rewrite loadFromText_nonempty by discriminate. reflexivity.
Qed.

(** C5, as stated, fails: a text without any LF whose link name holds a form
    feed (or a file separator, U+001C) has a name with the form feed when
    read directly, and a name with a LF in its place after the round trip,
    which writes every boundary as LF.  The two sets of names have no
    element in common. *)
Lemma roundtrip_changes_name_across_form_feed :
  let text := str "[[a" ++ [12%N] ++ str "b]]" in
  let filed := str "[[a" ++ [28%N] ++ str "b]]" in
  ~ In LF text /\
  findall text = [str "a" ++ [12%N] ++ str "b"] /\
  findall (serialize (loadFromText text)) = [str "a" ++ [LF] ++ str "b"] /\
  ~ In (str "a" ++ [12%N] ++ str "b") (findall (serialize (loadFromText text))) /\
  ~ In LF filed /\
  findall filed = [str "a" ++ [28%N] ++ str "b"] /\
  findall (serialize (loadFromText filed)) = [str "a" ++ [LF] ++ str "b"].
Proof.
  cbv zeta.
  assert (E1 : findall (str "[[a" ++ [12%N] ++ str "b]]")
               = [str "a" ++ [12%N] ++ str "b"]) by reflexivity.
  assert (E2 : findall (serialize (loadFromText (str "[[a" ++ [12%N] ++ str "b]]")))
               = [str "a" ++ [LF] ++ str "b"]) by reflexivity.
  assert (E3 : findall (str "[[a" ++ [28%N] ++ str "b]]")
               = [str "a" ++ [28%N] ++ str "b"]) by reflexivity.
  assert (E4 : findall (serialize (loadFromText (str "[[a" ++ [28%N] ++ str "b]]")))
               = [str "a" ++ [LF] ++ str "b"]) by reflexivity.
  repeat split; try assumption.
  - intros H. vm_compute in H. intuition discriminate.
  - rewrite E2. intros [H|[]]. discriminate H.
  - intros H. vm_compute in H. intuition discriminate.
Qed.

(** C5, amended: the link names found in [serialize (loadFromText text)] are
    those found in the text with every line boundary written as LF, in the
    same order; so when LF is the only line boundary occurring in [text],
    they are those found in [text]. *)
Theorem roundtrip_preserves_links (text : pystr) :
  findall (serialize (loadFromText text)) = findall (unify_boundaries text) /\
  ((forall c, In c text -> is_linebreak c = true -> c = LF) ->
   forall name,
     In name (findall (serialize (loadFromText text))) <-> In name (findall text)).
Proof.
  split.
  - rewrite serialize_loadFromText.
    destruct (serialize_splitlines_unified text) as [E|E]; rewrite E;
      [reflexivity | rewrite findall_snoc; [reflexivity | discriminate]].
  - intros H name. rewrite (roundtrip_findall text H). reflexivity.
Qed.

Lemma roundtrip_preserves_links_witness :
  let text := str "[[A]]" ++ [LF] ++ str "[[B]]" ++ [LF] in
  (forall c, In c text -> is_linebreak c = true -> c = LF) /\
  (In (str "B") (findall (serialize (loadFromText text))) <->
   In (str "B") (findall text)).
Proof.
  cbv zeta.
  assert (H : forall c, In c (str "[[A]]" ++ [LF] ++ str "[[B]]" ++ [LF]) ->
                        is_linebreak c = true -> c = LF).
  { intros c Hin Hb. simpl in Hin.
    repeat (destruct Hin as [<-|Hin]; [first [reflexivity | discriminate Hb]|]).
    destruct Hin. }
  split; [exact H | exact (proj2 (roundtrip_preserves_links _) H (str "B"))].
Defined.

End TextFacts.

(** ** Dictionaries *)

Section DictFacts.

Context {V : Type}.
Implicit Types (d : dict V) (k : pystr) (v : V).

Lemma dict_get_set d k v k' :
  dict_get (dict_set d k v) k' =
  if pystr_eq_dec k' k then Some v else dict_get d k'.
Proof.
  induction d as [|[k0 v0] d IH]; simpl.
  - destruct (pystr_eq_dec k' k); reflexivity.
  - destruct (pystr_eq_dec k k0) as [->|Hk]; simpl.
    + destruct (pystr_eq_dec k' k0); reflexivity.
    + destruct (pystr_eq_dec k' k0) as [->|Hk'].
      * destruct (pystr_eq_dec k0 k); [congruence | reflexivity].
      * exact IH.
Qed.

Lemma dict_mem_set d k v k' :
  dict_mem (dict_set d k v) k' =
  if pystr_eq_dec k' k then true else dict_mem d k'.
Proof.
  unfold dict_mem. rewrite dict_get_set.
  destruct (pystr_eq_dec k' k); reflexivity.
Qed.

Lemma dict_mem_in_keys d k : dict_mem d k = true <-> In k (dict_keys d).
Proof.
  unfold dict_mem, dict_keys.
  induction d as [|[k0 v0] d IH]; simpl.
  - split; [discriminate | tauto].
  - destruct (pystr_eq_dec k k0) as [->|Hk].
    + split; auto.
    + rewrite IH. split; [auto | intros [E|H]; [congruence | assumption]].
Qed.

Lemma dict_keys_set d k v :
  dict_keys (dict_set d k v) =
  if dict_mem d k then dict_keys d else dict_keys d ++ [k].
Proof.
  unfold dict_mem, dict_keys.
  induction d as [|[k0 v0] d IH]; simpl; [reflexivity|].
  destruct (pystr_eq_dec k k0) as [->|Hk]; simpl; [reflexivity|].
  rewrite IH. destruct (dict_get d k); reflexivity.
Qed.

Lemma dict_get_in d k v : dict_get d k = Some v -> In (k, v) d.
Proof.
  induction d as [|[k0 v0] d IH]; simpl; [discriminate|].
  destruct (pystr_eq_dec k k0) as [->|Hk].
  - intros E; inversion E; auto.
  - auto.
Qed.

Lemma in_dict_mem d k v : In (k, v) d -> dict_mem d k = true.
Proof.
  intros H. apply dict_mem_in_keys. unfold dict_keys.
  change k with (fst (k, v)). apply in_map. exact H.
Qed.

Lemma existsb_pystr_eqb (keys : list pystr) k :
  existsb (pystr_eqb k) keys = true <-> In k keys.
Proof.
  rewrite existsb_exists. unfold pystr_eqb. split.
  - intros [k' [Hin Hk]]. destruct (pystr_eq_dec k k'); [subst; auto | discriminate].
  - intros Hin. exists k. split; [exact Hin|].
    destruct (pystr_eq_dec k k); congruence.
Qed.

(** [{key: c for key in keys}], built on top of [d]. *)
Lemma fold_dict_set_const_get (c : V) (keys : list pystr) d k :
  dict_get (fold_left (fun acc key => dict_set acc key c) keys d) k =
  if existsb (pystr_eqb k) keys then Some c else dict_get d k.
Proof.
  revert d. induction keys as [|k0 keys IH]; intros d; simpl.
  - reflexivity.
  - rewrite IH, dict_get_set. unfold pystr_eqb at 2.
    destruct (existsb (pystr_eqb k) keys), (pystr_eq_dec k k0); reflexivity.
Qed.

Lemma dict_keys_set_new d k v :
  ~ In k (dict_keys d) -> dict_keys (dict_set d k v) = dict_keys d ++ [k].
Proof.
  intros H. rewrite dict_keys_set.
  destruct (dict_mem d k) eqn:E; [|reflexivity].
  apply dict_mem_in_keys in E. contradiction.
Qed.

Lemma dict_keys_set_old d k v :
  In k (dict_keys d) -> dict_keys (dict_set d k v) = dict_keys d.
Proof.
  intros H. rewrite dict_keys_set.
  apply dict_mem_in_keys in H. rewrite H. reflexivity.
Qed.

End DictFacts.

(** ** Loops that may raise *)

Section ForEach.

Context {A S : Type}.
Variables (body : S -> A -> result S) (P : S -> Prop).

Lemma for_each_invariant (items : list A) :
  (forall s a s', In a items -> P s -> body s a = Ok s' -> P s') ->
  forall s s', P s -> for_each items body s = Ok s' -> P s'.
Proof.
  induction items as [|a items IH]; simpl; intros Hstep s s' Hs H.
  - inversion H; subst; assumption.
  - destruct (body s a) as [s1|e] eqn:E; simpl in H; [|discriminate].
    apply (IH (fun s a s' Hin => Hstep s a s' (or_intror Hin)) s1 s'); auto.
    apply (Hstep s a s1); auto.
Qed.

Lemma for_each_total (items : list A) :
  (forall s a, In a items -> P s -> exists s', body s a = Ok s' /\ P s') ->
  forall s, P s -> exists s', for_each items body s = Ok s' /\ P s'.
Proof.
  induction items as [|a items IH]; simpl; intros Hstep s Hs.
  - eauto.
  - destruct (Hstep s a (or_introl eq_refl) Hs) as [s1 [E Hs1]].
    rewrite E. simpl. apply IH; auto.
Qed.

Lemma for_each_ok_each (items : list A) :
  forall s s', for_each items body s = Ok s' ->
  forall a, In a items -> exists s1 s2, body s1 a = Ok s2.
Proof.
  induction items as [|a0 items IH]; simpl; intros s s' H a Hin; [destruct Hin|].
  destruct (body s a0) as [s1|e] eqn:E; simpl in H; [|discriminate].
  destruct Hin as [<-|Hin]; [eauto | eapply IH; eauto].
Qed.

End ForEach.

(** ** The note graph *)

Section GraphFacts.

Import LinkUtils.

Variable fs : filesystem.

(** What the scan relates: each recorded path was read, and the note's
    entry in [graph] holds the links of that very file. *)
Definition scan_consistent (st : dict (list pystr) * dict pystr) : Prop :=
  dict_keys (fst st) = dict_keys (snd st) /\
  forall name path, dict_get (snd st) name = Some path ->
    exists links, extract_links_from_file fs path = Ok links /\
                  dict_get (fst st) name = Some links.

Lemma scan_file_consistent dirpath st file st' :
  scan_consistent st -> scan_file fs dirpath st file = Ok st' ->
  scan_consistent st'.
Proof.
  destruct st as [graph paths]. unfold scan_file, scan_consistent. simpl.
  intros [Hk Hl] H.
  destruct (endswith file md_suffix).
  - destruct (extract_links_from_file fs (path_join dirpath file))
      as [links|e] eqn:E; simpl in H; [|discriminate].
    inversion H; subst; clear H. simpl. split.
    + rewrite !dict_keys_set.
      assert (Hm : dict_mem graph (slice_to file (-3)) =
                   dict_mem paths (slice_to file (-3))).
      { apply eq_true_iff_eq. rewrite !dict_mem_in_keys, Hk. reflexivity. }
      rewrite Hm, Hk. reflexivity.
    + intros name path. rewrite !dict_get_set.
      destruct (pystr_eq_dec name (slice_to file (-3))).
      * intros H; inversion H; subst. eauto.
      * apply Hl.
  - inversion H; subst. simpl. auto.
Qed.

Lemma build_note_graph_consistent walk st :
  build_note_graph fs walk = Ok st -> scan_consistent st.
Proof.
  unfold build_note_graph.
  apply for_each_invariant with (P := scan_consistent).
  - intros s [[dirpath dirs] files] s' _ Hs.
    apply for_each_invariant with (P := scan_consistent); auto.
    intros s0 file s0' _. apply scan_file_consistent.
  - split; [reflexivity | discriminate].
Qed.

End GraphFacts.

Section NoteGraphProperties.

Import LinkUtils.

(** C10: the two dictionaries returned by [build_note_graph] have the same
    keys, in the same order; a name is a key of [graph] exactly when it is a
    key of [paths], and every node of [graph] has a path. *)
Theorem build_note_graph_same_keys (fs : filesystem) (walk : list walk_entry)
  (graph : dict (list pystr)) (paths : dict pystr) :
  build_note_graph fs walk = Ok (graph, paths) ->
  dict_keys graph = dict_keys paths /\
  (forall name, dict_mem graph name = true <-> dict_mem paths name = true) /\
  (forall name, dict_mem graph name = true ->
     exists path, dict_get paths name = Some path).
Proof.
  intros H. apply build_note_graph_consistent in H. destruct H as [Hk _].
  simpl in Hk.
  assert (Hm : forall name,
             dict_mem graph name = true <-> dict_mem paths name = true).
  { intros name. rewrite !dict_mem_in_keys, Hk. reflexivity. }
  repeat split; try apply Hm; auto.
  intros name Hn. apply Hm in Hn. unfold dict_mem in Hn.
  destruct (dict_get paths name) as [path|]; [eauto | discriminate].
Qed.

Lemma build_note_graph_same_keys_witness :
  build_note_graph Vault.fs Vault.walk =
    Ok (Vault.graph, [(str "A", str "v/A.md"); (str "B", str "v/B.md")]) /\
  dict_keys Vault.graph =
    dict_keys [(str "A", str "v/A.md"); (str "B", str "v/B.md")].
Proof.
  split; [reflexivity|].
  exact (proj1 (build_note_graph_same_keys Vault.fs Vault.walk _ _ eq_refl)).
Defined.

(** C2, as stated, fails: a read that raises anything but
    [FileNotFoundError] aborts the whole build. *)
Lemma build_note_graph_aborts_on_unreadable_file :
  Vault.fs_denied (str "v/B.md") = Raise PermissionError /\
  build_note_graph Vault.fs_denied Vault.walk = Raise PermissionError /\
  Vault.fs_undecodable (str "v/B.md") = Raise UnicodeDecodeError /\
  build_note_graph Vault.fs_undecodable Vault.walk = Raise UnicodeDecodeError.
Proof. repeat split; reflexivity. Qed.

(** The notes the scan reads: the [.md] files of the walk. *)
Definition scanned (walk : list walk_entry) (path : pystr) : Prop :=
  exists dirpath dirs files file,
    In (dirpath, dirs, files) walk /\ In file files /\
    endswith file md_suffix = true /\ path = path_join dirpath file.

(** C2, amended: the build completes exactly when every read that fails
    during the scan fails with [FileNotFoundError] (the file vanished between
    listing and read); a note whose file was missing is then recorded with
    zero outbound links.  Any other failure leaves no graph at all. *)
Theorem build_note_graph_tolerates_missing_files
  (fs : filesystem) (walk : list walk_entry) :
  ((exists graph paths, build_note_graph fs walk = Ok (graph, paths)) <->
   (forall path, scanned walk path ->
      fs path = Raise FileNotFoundError \/ exists text, fs path = Ok text)) /\
  (forall graph paths,
     build_note_graph fs walk = Ok (graph, paths) ->
     forall name path,
       dict_get paths name = Some path -> fs path = Raise FileNotFoundError ->
       dict_get graph name = Some []).
Proof.
  split; [split|].
  - intros [graph [paths E]] path [dirpath [dirs [files [file [Hw [Hf [Hmd ->]]]]]]].
    unfold build_note_graph in E.
    destruct (for_each_ok_each _ walk _ _ E _ Hw) as [st1 [st2 E1]].
    simpl in E1.
    destruct (for_each_ok_each _ files _ _ E1 _ Hf) as [[g p] [st4 E2]].
    unfold scan_file in E2. rewrite Hmd in E2.
    unfold extract_links_from_file in E2.
    destruct (fs (path_join dirpath file)) as [text|e]; [eauto|].
    destruct e; try discriminate. auto.
  - intros Hfs. unfold build_note_graph.
    match goal with |- exists graph paths, for_each _ ?body ?s0 = _ =>
      destruct (for_each_total body (fun _ => True) walk) with (s := s0)
        as [[graph paths] [E _]]; [| exact I | eauto]
    end.
    intros s [[dirpath dirs] files] Hin _.
    apply for_each_total with (P := fun _ => True); [|exact I].
    intros [graph paths] file Hfile _. unfold scan_file.
    destruct (endswith file md_suffix) eqn:Hmd; [|eauto].
    unfold extract_links_from_file.
    destruct (Hfs (path_join dirpath file)) as [E|[text E]].
    + exists dirpath, dirs, files, file. auto.
    + rewrite E. simpl. eauto.
    + rewrite E. simpl. eauto.
  - intros graph paths E name path Hp Hmissing.
    apply build_note_graph_consistent in E. destruct E as [_ Hl].
    destruct (Hl name path Hp) as [links [Hx Hg]].
    unfold extract_links_from_file in Hx. rewrite Hmissing in Hx.
    inversion Hx; subst. exact Hg.
Qed.

Lemma build_note_graph_tolerates_missing_files_witness :
  (forall path, scanned Vault.walk path ->
     Vault.fs_vanished path = Raise FileNotFoundError \/
     exists text, Vault.fs_vanished path = Ok text) /\
  (exists graph paths,
     build_note_graph Vault.fs_vanished Vault.walk = Ok (graph, paths)) /\
  (Vault.fs_vanished (str "v/B.md") = Raise FileNotFoundError ->
   dict_get Vault.graph (str "B") = Some []).
Proof.
  assert (H : forall path, scanned Vault.walk path ->
     Vault.fs_vanished path = Raise FileNotFoundError \/
     exists text, Vault.fs_vanished path = Ok text).
  { intros path _. unfold Vault.fs_vanished.
    destruct (pystr_eqb path (str "v/A.md")); [right; eauto | left; reflexivity]. }
  split; [exact H|]. split.
  - exact (proj2 (proj1 (build_note_graph_tolerates_missing_files
                           Vault.fs_vanished Vault.walk)) H).
  - exact (proj2 (build_note_graph_tolerates_missing_files
                    Vault.fs_vanished Vault.walk)
             Vault.graph [(str "A", str "v/A.md"); (str "B", str "v/B.md")]
             eq_refl (str "B") (str "v/B.md") eq_refl).
Defined.

End NoteGraphProperties.

(** ** Incoming links *)

Section IncomingFacts.

Import LinkUtils.

Implicit Types (graph incoming : dict (list pystr)) (src tgt name : pystr).

(** [src] is listed among the sources of [tgt]. *)
Definition has_source incoming tgt src : Prop :=
  exists sources, dict_get incoming tgt = Some sources /\ In src sources.

Lemma empty_incoming_mem graph name :
  dict_mem (empty_incoming graph) name = dict_mem graph name.
Proof.
  unfold empty_incoming, dict_mem at 1. rewrite fold_dict_set_const_get.
  apply eq_true_iff_eq. rewrite dict_mem_in_keys, <- existsb_pystr_eqb.
  destruct (existsb (pystr_eqb name) (dict_keys graph)); simpl;
    split; auto; discriminate.
Qed.

Lemma add_incoming_mem src incoming tgt name :
  dict_mem (add_incoming src incoming tgt) name = dict_mem incoming name.
Proof.
  unfold add_incoming.
  destruct (dict_get incoming tgt) as [sources|] eqn:E; [|reflexivity].
  rewrite dict_mem_set. destruct (pystr_eq_dec name tgt) as [->|]; [|reflexivity].
  unfold dict_mem. rewrite E. reflexivity.
Qed.

Lemma add_incoming_keeps src incoming tgt t s :
  has_source incoming t s -> has_source (add_incoming src incoming tgt) t s.
Proof.
  intros [sources [Hg Hin]]. unfold add_incoming, has_source.
  destruct (dict_get incoming tgt) as [l|] eqn:E; [|eauto].
  rewrite dict_get_set. destruct (pystr_eq_dec t tgt) as [->|]; [|eauto].
  exists (l ++ [src]). split; [reflexivity|].
  rewrite E in Hg. inversion Hg; subst. apply in_or_app. auto.
Qed.

Lemma add_incoming_adds src incoming tgt :
  dict_mem incoming tgt = true ->
  has_source (add_incoming src incoming tgt) tgt src.
Proof.
  unfold dict_mem, add_incoming, has_source.
  destruct (dict_get incoming tgt) as [l|] eqn:E; [intros _ | discriminate].
  rewrite dict_get_set. destruct (pystr_eq_dec tgt tgt); [|congruence].
  exists (l ++ [src]). split; [reflexivity | apply in_or_app; simpl; auto].
Qed.

Lemma fold_add_incoming_mem src targets incoming name :
  dict_mem (fold_left (add_incoming src) targets incoming) name =
  dict_mem incoming name.
Proof.
  revert incoming. induction targets as [|t targets IH]; intros; simpl;
    [reflexivity | rewrite IH; apply add_incoming_mem].
Qed.

Lemma fold_add_incoming_keeps src targets incoming t s :
  has_source incoming t s ->
  has_source (fold_left (add_incoming src) targets incoming) t s.
Proof.
  revert incoming. induction targets as [|t0 targets IH]; intros; simpl;
    [assumption | apply IH, add_incoming_keeps; assumption].
Qed.

Lemma fold_add_incoming_adds src targets incoming tgt :
  In tgt targets -> dict_mem incoming tgt = true ->
  has_source (fold_left (add_incoming src) targets incoming) tgt src.
Proof.
  revert incoming. induction targets as [|t0 targets IH]; intros incoming Hin Hm;
    simpl; [destruct Hin|].
  destruct Hin as [->|Hin].
  - apply fold_add_incoming_keeps, add_incoming_adds. exact Hm.
  - apply IH; [exact Hin | rewrite add_incoming_mem; exact Hm].
Qed.

Definition add_all_incoming incoming (item : pystr * list pystr) :=
  fold_left (add_incoming (fst item)) (snd item) incoming.

Lemma fold_items_mem (items : list (pystr * list pystr)) incoming name :
  dict_mem (fold_left add_all_incoming items incoming) name =
  dict_mem incoming name.
Proof.
  revert incoming. induction items as [|it items IH]; intros; simpl;
    [reflexivity | rewrite IH; apply fold_add_incoming_mem].
Qed.

Lemma fold_items_keeps (items : list (pystr * list pystr)) incoming t s :
  has_source incoming t s ->
  has_source (fold_left add_all_incoming items incoming) t s.
Proof.
  revert incoming. induction items as [|it items IH]; intros; simpl;
    [assumption | apply IH, fold_add_incoming_keeps; assumption].
Qed.

Lemma fold_items_adds (items : list (pystr * list pystr)) incoming src targets tgt :
  In (src, targets) items -> In tgt targets -> dict_mem incoming tgt = true ->
  has_source (fold_left add_all_incoming items incoming) tgt src.
Proof.
  revert incoming.
  induction items as [|it items IH]; intros incoming Hit Hin Hm; simpl;
    [destruct Hit|].
  destruct Hit as [->|Hit].
  - apply fold_items_keeps. unfold add_all_incoming. simpl.
    apply fold_add_incoming_adds; assumption.
  - apply IH; try assumption.
    unfold add_all_incoming. rewrite fold_add_incoming_mem. exact Hm.
Qed.

(** C6: every link [s -> t] between two notes of [graph] puts [s] among the
    incoming links of [t]; a name that is no key of [graph] is no key of
    [incoming]; every key of [graph] is a key of [incoming]. *)
Theorem build_incoming_links_consistent graph :
  (forall s targets t,
     dict_get graph s = Some targets -> In t targets ->
     dict_mem graph t = true ->
     exists sources,
       dict_get (build_incoming_links graph) t = Some sources /\
       In s sources) /\
  (forall name, dict_mem graph name = false ->
     dict_mem (build_incoming_links graph) name = false) /\
  (forall name, dict_mem graph name = true ->
     dict_mem (build_incoming_links graph) name = true).
Proof.
  assert (Hm : forall name,
             dict_mem (build_incoming_links graph) name = dict_mem graph name).
  { intros name. unfold build_incoming_links.
    change (fun incoming item =>
              fold_left (add_incoming (fst item)) (snd item) incoming)
      with add_all_incoming.
    rewrite fold_items_mem. apply empty_incoming_mem. }
  repeat split.
  - intros s targets t Hs Ht Hk. unfold build_incoming_links.
    change (fun incoming item =>
              fold_left (add_incoming (fst item)) (snd item) incoming)
      with add_all_incoming.
    apply fold_items_adds with (targets := targets).
    + apply dict_get_in. exact Hs.
    + exact Ht.
    + rewrite empty_incoming_mem. exact Hk.
  - intros name H. rewrite Hm. exact H.
  - intros name H. rewrite Hm. exact H.
Qed.

Lemma build_incoming_links_consistent_witness :
  dict_get Vault.graph (str "A") = Some [str "B"] /\
  In (str "B") [str "B"] /\
  dict_mem Vault.graph (str "B") = true /\
  exists sources,
    dict_get (build_incoming_links Vault.graph) (str "B") = Some sources /\
    In (str "A") sources.
Proof.
  repeat split; try reflexivity; [left; reflexivity|].
  exact (proj1 (build_incoming_links_consistent Vault.graph)
           (str "A") [str "B"] (str "B") eq_refl (or_introl eq_refl) eq_refl).
Defined.

End IncomingFacts.

(** ** Python sequences at an index inside the list *)

Section SeqFacts.

Local Open Scope Z_scope.

Context {A : Type}.
Implicit Types (l pre post : list A) (a b : A).

Lemma len_nonneg l : 0 <= len l.
Proof. unfold len. lia. Qed.

Lemma len_app l1 l2 : len (l1 ++ l2) = len l1 + len l2.
Proof. unfold len. rewrite length_app. lia. Qed.

Lemma len_cons a l : len (a :: l) = 1 + len l.
Proof. unfold len. simpl length. lia. Qed.

Lemma norm_index_mid pre a post :
  norm_index (pre ++ a :: post) (len pre) = Some (length pre).
Proof.
  unfold norm_index. pose proof (len_nonneg pre) as Hp.
  pose proof (len_nonneg post) as Hq.
  destruct (len pre <? 0) eqn:E; [apply Z.ltb_lt in E; lia|].
  rewrite len_app, len_cons.
  replace ((0 <=? len pre) && (len pre <? len pre + (1 + len post))) with true.
  - unfold len. rewrite Nat2Z.id. reflexivity.
  - symmetry. apply andb_true_iff. split; [apply Z.leb_le | apply Z.ltb_lt]; lia.
Qed.

Lemma norm_index_range l i n :
  norm_index l i = Some n -> 0 <= i -> i < len l /\ n = Z.to_nat i.
Proof.
  unfold norm_index. intros H Hi.
  destruct (i <? 0) eqn:E; [apply Z.ltb_lt in E; lia|].
  destruct ((0 <=? i) && (i <? len l)) eqn:E2; [|discriminate].
  apply andb_true_iff in E2. destruct E2 as [_ E2]. apply Z.ltb_lt in E2.
  inversion H. auto.
Qed.

Lemma getitem_mid pre a post : getitem (pre ++ a :: post) (len pre) = Ok a.
Proof.
  unfold getitem. rewrite norm_index_mid, nth_error_app2 by lia.
  rewrite Nat.sub_diag. reflexivity.
Qed.

Lemma set_nth_mid pre a post b :
  set_nth (pre ++ a :: post) (length pre) b = pre ++ b :: post.
Proof. induction pre as [|c pre IH]; simpl; [|rewrite IH]; reflexivity. Qed.

Lemma setitem_mid pre a post b :
  setitem (pre ++ a :: post) (len pre) b = Ok (pre ++ b :: post).
Proof. unfold setitem. rewrite norm_index_mid, set_nth_mid. reflexivity. Qed.

Lemma list_pop_mid pre a post :
  list_pop (pre ++ a :: post) (len pre) = Ok (pre ++ post).
Proof.
  unfold list_pop. rewrite norm_index_mid. f_equal.
  induction pre as [|c pre IH]; simpl; [reflexivity | f_equal; exact IH].
Qed.

Lemma clamp_index_inside l i :
  0 <= i <= len l -> clamp_index l i = Z.to_nat i.
Proof.
  intros H. unfold clamp_index.
  destruct (i <? 0) eqn:E; [apply Z.ltb_lt in E; lia|]. f_equal. lia.
Qed.

Lemma list_insert_mid pre a post b :
  list_insert (pre ++ a :: post) (len pre + 1) b = pre ++ a :: b :: post.
Proof.
  unfold list_insert. pose proof (len_nonneg pre). pose proof (len_nonneg post).
  rewrite clamp_index_inside by (rewrite len_app, len_cons; lia).
  replace (Z.to_nat (len pre + 1)) with (length pre + 1)%nat by (unfold len; lia).
  rewrite firstn_app,  skipn_app.
  replace (length pre + 1 - length pre)%nat with 1%nat by lia.
  rewrite firstn_all2 by lia. rewrite skipn_all2 by lia.
  simpl. rewrite <- app_assoc. reflexivity.
Qed.

Lemma slice_to_from l i : slice_to l i ++ slice_from l i = l.
Proof. apply firstn_skipn. Qed.

Lemma len_slice_to l i : 0 <= i <= len l -> len (slice_to l i) = i.
Proof.
  intros H. unfold slice_to. rewrite clamp_index_inside by assumption.
  unfold len in *. rewrite length_firstn. lia.
Qed.

Lemma len_slice_from l i : 0 <= i <= len l -> len (slice_from l i) = len l - i.
Proof.
  intros H. unfold slice_from. rewrite clamp_index_inside by assumption.
  unfold len in *. rewrite length_skipn. lia.
Qed.

(** An index inside the list cuts it in three. *)
Lemma getitem_inv l i a :
  getitem l i = Ok a -> 0 <= i ->
  exists pre post, l = pre ++ a :: post /\ i = len pre.
Proof.
  unfold getitem. intros H Hi.
  destruct (norm_index l i) as [n|] eqn:E; [|discriminate].
  apply norm_index_range in E; [|assumption]. destruct E as [_ ->].
  destruct (nth_error l (Z.to_nat i)) as [a'|] eqn:En; [|discriminate].
  inversion H; subst a'. apply nth_error_split in En.
  destruct En as [pre [post [-> Hl]]]. exists pre, post.
  split; [reflexivity | unfold len; lia].
Qed.

Lemma split_last pre : pre <> [] -> exists pre' a, pre = pre' ++ [a].
Proof.
  intros H. destruct (exists_last H) as [pre' [a E]]. eauto.
Qed.

End SeqFacts.

(** ** The editor: what each key does at a cursor inside the buffer *)

Section EditorFacts.

Import Editor.
Local Open Scope Z_scope.

Implicit Types (pre post : list pystr) (line prev next : pystr) (s : state).

Lemma getitem_next {A : Type} (pre : list A) a b (post : list A) :
  getitem (pre ++ a :: b :: post) (len pre + 1) = Ok b.
Proof.
  replace (len pre + 1) with (len (pre ++ [a])) by (rewrite len_app; reflexivity).
  change (pre ++ a :: b :: post) with (pre ++ [a] ++ b :: post).
  rewrite app_assoc. apply getitem_mid.
Qed.

Lemma list_pop_next {A : Type} (pre : list A) a b (post : list A) :
  list_pop (pre ++ a :: b :: post) (len pre + 1) = Ok (pre ++ a :: post).
Proof.
  replace (len pre + 1) with (len (pre ++ [a])) by (rewrite len_app; reflexivity).
  change (pre ++ a :: b :: post) with (pre ++ [a] ++ b :: post).
  rewrite app_assoc, list_pop_mid, <- app_assoc. reflexivity.
Qed.

Lemma cursor_ok_split s :
  cursor_ok s ->
  exists pre line post,
    buffer s = pre ++ line :: post /\ y s = len pre /\ 0 <= x s <= len line.
Proof.
  intros [_ [Hy [line [Hg Hx]]]].
  apply getitem_inv in Hg; [|lia]. destruct Hg as [pre [post [Hb Hl]]].
  exists pre, line, post. auto.
Qed.

Lemma cursor_ok_intro s pre line post :
  buffer s = pre ++ line :: post -> y s = len pre -> 0 <= x s <= len line ->
  cursor_ok s.
Proof.
  intros Hb Hy Hx. unfold cursor_ok. rewrite Hb, Hy.
  pose proof (len_nonneg pre). pose proof (len_nonneg post).
  repeat split.
  - destruct pre; discriminate.
  - lia.
  - rewrite len_app, len_cons. lia.
  - exists line. split; [apply getitem_mid | exact Hx].
Qed.

(** States are compared field by field below. *)
Definition at_cursor (b : list pystr) (row col : Z) (s : state) : state :=
  {| buffer := b; y := row; x := col; offset := offset s;
     save_status := save_status s; disk := disk s |}.

Lemma splitLine_at s pre line post :
  buffer s = pre ++ line :: post -> y s = len pre ->
  splitLine s =
  Ok (edited s (pre ++ slice_to line (x s) :: slice_from line (x s) :: post)
        (len pre + 1) 0).
Proof.
  intros Hb Hy. unfold splitLine. rewrite Hb, Hy.
  rewrite getitem_mid. simpl bind. rewrite setitem_mid. simpl bind.
  rewrite list_insert_mid. reflexivity.
Qed.

Lemma indent_at s pre line post :
  buffer s = pre ++ line :: post -> y s = len pre ->
  indent s =
  Ok (edited s
        (pre ++ (slice_to line (x s) ++ str "    " ++ slice_from line (x s)) :: post)
        (len pre) (x s + 4)).
Proof.
  intros Hb Hy. unfold indent. rewrite Hb, Hy.
  rewrite getitem_mid. simpl bind. rewrite setitem_mid. reflexivity.
Qed.

Lemma insertChar_at k s pre line post :
  buffer s = pre ++ line :: post -> y s = len pre ->
  insertChar k s =
  Ok (edited s
        (pre ++ (slice_to line (x s) ++ [Z.to_N k] ++ slice_from line (x s)) :: post)
        (len pre) (x s + 1)).
Proof.
  intros Hb Hy. unfold insertChar. rewrite Hb, Hy.
  rewrite getitem_mid. simpl bind. rewrite setitem_mid. reflexivity.
Qed.

Lemma backspace_inside s pre line post :
  buffer s = pre ++ line :: post -> y s = len pre -> 0 < x s ->
  backspace s =
  Ok (edited s
        (pre ++ (slice_to line (x s - 1) ++ slice_from line (x s)) :: post)
        (len pre) (x s - 1)).
Proof.
  intros Hb Hy Hx. unfold backspace.
  destruct (Z.gtb_spec (x s) 0); [|lia].
  rewrite Hb, Hy, getitem_mid. simpl bind. rewrite setitem_mid. reflexivity.
Qed.

Lemma backspace_join s pre prev line post :
  buffer s = pre ++ prev :: line :: post -> y s = len pre + 1 -> x s = 0 ->
  backspace s = Ok (edited s (pre ++ (prev ++ line) :: post) (len pre) (len prev)).
Proof.
  intros Hb Hy Hx. unfold backspace. rewrite Hx. simpl (0 >? 0).
  pose proof (len_nonneg pre) as Hp.
  destruct (Z.gtb_spec (y s) 0); [|lia].
  rewrite Hb, Hy. replace (len pre + 1 - 1) with (len pre) by lia.
  rewrite getitem_mid. simpl bind. rewrite getitem_next. simpl bind.
  rewrite setitem_mid. simpl bind. rewrite list_pop_next. reflexivity.
Qed.

Lemma backspace_origin s :
  y s = 0 -> x s = 0 -> backspace s = Ok (edited s (buffer s) 0 0).
Proof.
  intros Hy Hx. unfold backspace. rewrite Hx, Hy. reflexivity.
Qed.

Lemma left_inside s : 0 < x s -> left s = Ok (with_cursor s (y s) (x s - 1)).
Proof.
  intros Hx. unfold left.
  destruct (Z.gtb_spec (x s) 0); [reflexivity | lia].
Qed.

Lemma left_wrap s pre prev line post :
  buffer s = pre ++ prev :: line :: post -> y s = len pre + 1 -> x s = 0 ->
  left s = Ok (with_cursor s (len pre) (len prev)).
Proof.
  intros Hb Hy Hx. unfold left. rewrite Hx. simpl (0 >? 0).
  pose proof (len_nonneg pre) as Hp.
  destruct (Z.gtb_spec (y s) 0); [|lia].
  rewrite Hb, Hy. replace (len pre + 1 - 1) with (len pre) by lia.
  rewrite getitem_mid. reflexivity.
Qed.

Lemma left_origin s : y s = 0 -> x s = 0 -> left s = Ok s.
Proof. intros Hy Hx. unfold left. rewrite Hx, Hy. reflexivity. Qed.

Lemma right_inside s pre line post :
  buffer s = pre ++ line :: post -> y s = len pre -> x s < len line ->
  right s = Ok (with_cursor s (y s) (x s + 1)).
Proof.
  intros Hb Hy Hx. unfold right. rewrite Hb, Hy at 1. rewrite getitem_mid.
  simpl bind. apply Z.ltb_lt in Hx. rewrite Hx. reflexivity.
Qed.

Lemma right_wrap s pre line next post :
  buffer s = pre ++ line :: next :: post -> y s = len pre -> x s = len line ->
  right s = Ok (with_cursor s (len pre + 1) 0).
Proof.
  intros Hb Hy Hx. unfold right. rewrite Hb, Hy. rewrite getitem_mid.
  simpl bind. rewrite Hx, Z.ltb_irrefl.
  pose proof (len_nonneg post).
  replace (len pre <? len (pre ++ line :: next :: post) - 1) with true;
    [reflexivity|].
  symmetry. apply Z.ltb_lt. rewrite len_app, !len_cons. lia.
Qed.

Lemma right_end s pre line :
  buffer s = pre ++ [line] -> y s = len pre -> x s = len line ->
  right s = Ok s.
Proof.
  intros Hb Hy Hx. unfold right. rewrite Hb, Hy. rewrite getitem_mid.
  simpl bind. rewrite Hx, Z.ltb_irrefl.
  replace (len pre <? len (pre ++ [line]) - 1) with false; [reflexivity|].
  symmetry. apply Z.ltb_ge. rewrite len_app, len_cons.
    change (len (@nil pystr)) with 0. lia.
Qed.

Lemma up_inside s pre prev line post :
  buffer s = pre ++ prev :: line :: post -> y s = len pre + 1 ->
  up s = Ok (with_cursor s (len pre) (Z.min (x s) (len prev))).
Proof.
  intros Hb Hy. unfold up. pose proof (len_nonneg pre) as Hp.
  destruct (Z.gtb_spec (y s) 0); [|lia].
  rewrite Hb, Hy. replace (len pre + 1 - 1) with (len pre) by lia.
  rewrite getitem_mid. reflexivity.
Qed.

Lemma up_top s : y s = 0 -> up s = Ok (with_cursor s 0 0).
Proof. intros Hy. unfold up. rewrite Hy. reflexivity. Qed.

Lemma down_inside s pre line next post :
  buffer s = pre ++ line :: next :: post -> y s = len pre ->
  down s = Ok (with_cursor s (len pre + 1) (Z.min (x s) (len next))).
Proof.
  intros Hb Hy. unfold down. rewrite Hb, Hy. pose proof (len_nonneg post).
  replace (len pre <? len (pre ++ line :: next :: post) - 1) with true.
  - rewrite getitem_next. reflexivity.
  - symmetry. apply Z.ltb_lt. rewrite len_app, !len_cons. lia.
Qed.

Lemma down_bottom s pre line :
  buffer s = pre ++ [line] -> y s = len pre ->
  down s = Ok (with_cursor s (len pre) (len line)).
Proof.
  intros Hb Hy. unfold down. rewrite Hb, Hy.
  replace (len pre <? len (pre ++ [line]) - 1) with false.
  - rewrite getitem_mid. reflexivity.
  - symmetry. apply Z.ltb_ge. rewrite len_app, len_cons.
    change (len (@nil pystr)) with 0. lia.
Qed.

(** Each handler, run at a cursor inside the buffer, returns a state whose
    cursor is inside the buffer, and leaves the scroll offset alone. *)
Definition keeps_cursor (h : state -> result state) : Prop :=
  forall s, cursor_ok s ->
  exists s', h s = Ok s' /\ cursor_ok s' /\ offset s' = offset s.

Ltac cut_buffer s :=
  let pre := fresh "pre" in
  let line := fresh "line" in
  let post := fresh "post" in
  let Hb := fresh "Hb" in
  let Hy := fresh "Hy" in
  let Hx := fresh "Hx" in
  match goal with
  | H : cursor_ok s |- _ =>
      destruct (cursor_ok_split s H) as [pre [line [post [Hb [Hy Hx]]]]]
  end.

Ltac cut_previous pre :=
  let pre' := fresh "pre" in
  let prev := fresh "prev" in
  let E := fresh "E" in
  destruct (@split_last pystr pre) as [pre' [prev E]];
  [ intros ->; change (len (@nil pystr)) with 0 in *; lia
  | subst pre; rewrite <- app_assoc in *; simpl app in *;
    rewrite len_app, len_cons in *; change (len (@nil pystr)) with 0 in * ].

Ltac lens :=
  repeat first [ rewrite len_app | rewrite len_cons
               | rewrite len_slice_to by lia | rewrite len_slice_from by lia ];
  change (len (@nil pystr)) with 0;
  repeat match goal with
         | |- context [len ?l] =>
             lazymatch goal with
             | _ : 0 <= len l |- _ => fail
             | _ => pose proof (len_nonneg l)
             end
         end.

Lemma splitLine_keeps : keeps_cursor splitLine.
Proof.
  intros s H. cut_buffer s. rewrite (splitLine_at s _ _ _ Hb Hy).
  eexists. split; [reflexivity|]. split; [|reflexivity].
  apply cursor_ok_intro
    with (pre := pre ++ [slice_to line (x s)]) (line := slice_from line (x s))
         (post := post); simpl.
  - rewrite <- app_assoc. reflexivity.
  - lens. reflexivity.
  - lens. lia.
Qed.

Lemma indent_keeps : keeps_cursor indent.
Proof.
  intros s H. cut_buffer s. rewrite (indent_at s _ _ _ Hb Hy).
  eexists. split; [reflexivity|]. split; [|reflexivity].
  eapply cursor_ok_intro; simpl; [reflexivity | reflexivity |].
  lens. change (len (str "    ")) with 4. lia.
Qed.

Lemma insertChar_keeps k : keeps_cursor (insertChar k).
Proof.
  intros s H. cut_buffer s. rewrite (insertChar_at k s _ _ _ Hb Hy).
  eexists. split; [reflexivity|]. split; [|reflexivity].
  eapply cursor_ok_intro; simpl; [reflexivity | reflexivity |].
  lens. lia.
Qed.

Lemma backspace_keeps : keeps_cursor backspace.
Proof.
  intros s H. cut_buffer s.
  destruct (Z.lt_ge_cases 0 (x s)) as [Hpos|Hzero].
  - rewrite (backspace_inside s _ _ _ Hb Hy Hpos).
    eexists. split; [reflexivity|]. split; [|reflexivity].
    eapply cursor_ok_intro; simpl; [reflexivity | reflexivity |].
    lens. lia.
  - assert (Hx0 : x s = 0) by lia.
    destruct (Z.lt_ge_cases 0 (y s)) as [Hrow|Htop].
    + cut_previous pre.
      rewrite (backspace_join s _ _ _ _ Hb Hy Hx0).
      eexists. split; [reflexivity|]. split; [|reflexivity].
      eapply cursor_ok_intro; simpl; [reflexivity | reflexivity |].
      lens. lia.
    + assert (Hy0 : y s = 0) by (pose proof (len_nonneg pre); lia).
      rewrite (backspace_origin s Hy0 Hx0).
      eexists. split; [reflexivity|]. split; [|reflexivity].
      apply cursor_ok_intro with (pre := pre) (line := line) (post := post);
        simpl; [assumption | lia | lia].
Qed.

Lemma left_keeps : keeps_cursor left.
Proof.
  intros s H. cut_buffer s.
  destruct (Z.lt_ge_cases 0 (x s)) as [Hpos|Hzero].
  - rewrite (left_inside s Hpos).
    eexists. split; [reflexivity|]. split; [|reflexivity].
    apply cursor_ok_intro with (pre := pre) (line := line) (post := post);
      simpl; [assumption | assumption | lia].
  - assert (Hx0 : x s = 0) by lia.
    destruct (Z.lt_ge_cases 0 (y s)) as [Hrow|Htop].
    + cut_previous pre.
      rewrite (left_wrap s _ _ _ _ Hb Hy Hx0).
      eexists. split; [reflexivity|]. split; [|reflexivity].
      eapply cursor_ok_intro; simpl; [eassumption | reflexivity |].
      lens. lia.
    + assert (Hy0 : y s = 0) by (pose proof (len_nonneg pre); lia).
      rewrite (left_origin s Hy0 Hx0). eauto.
Qed.

Lemma right_keeps : keeps_cursor right.
Proof.
  intros s H. cut_buffer s.
  destruct (Z.lt_ge_cases (x s) (len line)) as [Hin|Hend].
  - rewrite (right_inside s _ _ _ Hb Hy Hin).
    eexists. split; [reflexivity|]. split; [|reflexivity].
    apply cursor_ok_intro with (pre := pre) (line := line) (post := post);
      simpl; [assumption | assumption | lia].
  - assert (Hx' : x s = len line) by lia.
    destruct post as [|next post].
    + rewrite (right_end s _ _ Hb Hy Hx'). eauto.
    + rewrite (right_wrap s _ _ _ _ Hb Hy Hx').
      eexists. split; [reflexivity|]. split; [|reflexivity].
      apply cursor_ok_intro
        with (pre := pre ++ [line]) (line := next) (post := post); simpl.
      * rewrite <- app_assoc. assumption.
      * lens. reflexivity.
      * lens. lia.
Qed.

Lemma up_keeps : keeps_cursor up.
Proof.
  intros s H. cut_buffer s.
  destruct (Z.lt_ge_cases 0 (y s)) as [Hrow|Htop].
  - cut_previous pre.
    rewrite (up_inside s _ _ _ _ Hb Hy).
    eexists. split; [reflexivity|]. split; [|reflexivity].
    eapply cursor_ok_intro; simpl; [eassumption | reflexivity |].
    lens. lia.
  - assert (Hy0 : y s = 0) by (pose proof (len_nonneg pre); lia).
    rewrite (up_top s Hy0).
    eexists. split; [reflexivity|]. split; [|reflexivity].
    apply cursor_ok_intro with (pre := pre) (line := line) (post := post);
      simpl; [assumption | lia | lens; lia].
Qed.

Lemma down_keeps : keeps_cursor down.
Proof.
  intros s H. cut_buffer s.
  destruct post as [|next post].
  - rewrite (down_bottom s _ _ Hb Hy).
    eexists. split; [reflexivity|]. split; [|reflexivity].
    apply cursor_ok_intro with (pre := pre) (line := line) (post := []);
      simpl; [assumption | reflexivity | lens; lia].
  - rewrite (down_inside s _ _ _ _ Hb Hy).
    eexists. split; [reflexivity|]. split; [|reflexivity].
    apply cursor_ok_intro
      with (pre := pre ++ [line]) (line := next) (post := post); simpl.
    + rewrite <- app_assoc. assumption.
    + lens. reflexivity.
    + lens. lia.
Qed.

(** *** Which handler a key selects *)

Lemma handle_key_enter i s :
  key i = 10 \/ key i = 13 -> handle_key i s = splitLine s.
Proof. intros [H|H]; unfold handle_key; rewrite H; reflexivity. Qed.

Lemma handle_key_backspace i s :
  key i = KEY_BACKSPACE \/ key i = 127 \/ key i = 8 ->
  handle_key i s = backspace s.
Proof. intros [H|[H|H]]; unfold handle_key; rewrite H; reflexivity. Qed.

Lemma handle_key_left i s : key i = KEY_LEFT -> handle_key i s = left s.
Proof. intros H; unfold handle_key; rewrite H; reflexivity. Qed.

Lemma handle_key_right i s : key i = KEY_RIGHT -> handle_key i s = right s.
Proof. intros H; unfold handle_key; rewrite H; reflexivity. Qed.

Lemma handle_key_up i s : key i = KEY_UP -> handle_key i s = up s.
Proof. intros H; unfold handle_key; rewrite H; reflexivity. Qed.

Lemma handle_key_down i s : key i = KEY_DOWN -> handle_key i s = down s.
Proof. intros H; unfold handle_key; rewrite H; reflexivity. Qed.

Lemma iteration_handles i s :
  key i <> -1 -> key i <> 17 ->
  iteration i s =
  (s' <- handle_key i s ;; Ok (Some (adjust_scroll (height i) s'))).
Proof.
  intros H1 H2. unfold iteration.
  apply Z.eqb_neq in H1, H2. rewrite H1, H2. reflexivity.
Qed.

(** The chain of tests ends in one of the handlers, in [save], or changes
    nothing. *)
Lemma handle_key_cases i s :
  handle_key i s = save (writable i) s /\ key i = 19 \/
  handle_key i s = Ok s \/
  exists h, keeps_cursor h /\ handle_key i s = h s.
Proof.
  unfold handle_key.
  destruct (Z.eqb_spec (key i) 19); [left; auto|]. right.
  destruct (key i =? 7); [left; reflexivity|].
  destruct ((key i =? 10) || (key i =? 13));
    [right; exists splitLine; split; [apply splitLine_keeps | reflexivity]|].
  destruct (key i =? 9);
    [right; exists indent; split; [apply indent_keeps | reflexivity]|].
  destruct ((key i =? KEY_BACKSPACE) || (key i =? 127) || (key i =? 8));
    [right; exists backspace; split; [apply backspace_keeps | reflexivity]|].
  destruct (key i =? KEY_LEFT);
    [right; exists left; split; [apply left_keeps | reflexivity]|].
  destruct (key i =? KEY_RIGHT);
    [right; exists right; split; [apply right_keeps | reflexivity]|].
  destruct (key i =? KEY_UP);
    [right; exists up; split; [apply up_keeps | reflexivity]|].
  destruct (key i =? KEY_DOWN);
    [right; exists down; split; [apply down_keeps | reflexivity]|].
  destruct ((32 <=? key i) && (key i <=? 126));
    [right; exists (insertChar (key i)); split;
       [apply insertChar_keeps | reflexivity]|].
  left; reflexivity.
Qed.

(** With at least two rows, the scroll adjustment puts the offset between 0
    and the cursor row. *)
Lemma adjust_scroll_invariant h s :
  2 <= h -> cursor_ok s -> 0 <= offset s -> invariant (adjust_scroll h s).
Proof.
  intros Hh Hc Ho. destruct Hc as [Hb [Hy Hl]].
  unfold invariant, cursor_ok, adjust_scroll. simpl.
  repeat split; try assumption; try lia;
    destruct (Z.ltb_spec (y s) (offset s)); try lia;
    destruct (Z.geb_spec (y s) (offset s + (h - 2))); lia.
Qed.

(** C7: Enter followed by Backspace gives back the lines and the cursor,
    whatever the heights read in the two iterations. *)
Theorem split_then_backspace_restores (s : state) (i1 i2 : input) :
  cursor_ok s ->
  key i1 = 10 \/ key i1 = 13 ->
  key i2 = KEY_BACKSPACE \/ key i2 = 127 \/ key i2 = 8 ->
  exists s1 s2,
    iteration i1 s = Ok (Some s1) /\
    iteration i2 s1 = Ok (Some s2) /\
    y s1 = y s + 1 /\ x s1 = 0 /\
    buffer s2 = buffer s /\ y s2 = y s /\ x s2 = x s.
Proof.
  intros H K1 K2. cut_buffer s.
  assert (N1 : key i1 <> -1 /\ key i1 <> 17) by (destruct K1 as [->| ->]; lia).
  assert (N2 : key i2 <> -1 /\ key i2 <> 17)
    by (destruct K2 as [->|[->| ->]]; unfold KEY_BACKSPACE; lia).
  rewrite (iteration_handles i1 s (proj1 N1) (proj2 N1)).
  rewrite (handle_key_enter i1 s K1), (splitLine_at s _ _ _ Hb Hy).
  eexists. eexists. split; [reflexivity|].
  rewrite (iteration_handles i2 _ (proj1 N2) (proj2 N2)).
  rewrite (handle_key_backspace i2 _ K2).
  rewrite (backspace_join _ pre (slice_to line (x s)) (slice_from line (x s)) post);
    try reflexivity.
  simpl. rewrite slice_to_from, len_slice_to by lia.
  repeat split; simpl; try lia. symmetry; assumption.
Qed.

Lemma split_then_backspace_restores_witness :
  let s := {| buffer := [str "hello world"]; y := 0; x := 5; offset := 0;
              save_status := true; disk := None |} in
  let enter := {| key := 10; height := 24; writable := true |} in
  let erase := {| key := 127; height := 24; writable := true |} in
  cursor_ok s /\
  exists s1 s2,
    iteration enter s = Ok (Some s1) /\
    iteration erase s1 = Ok (Some s2) /\
    y s1 = y s + 1 /\ x s1 = 0 /\
    buffer s2 = buffer s /\ y s2 = y s /\ x s2 = x s.
Proof.
  cbv zeta.
  assert (H : cursor_ok {| buffer := [str "hello world"]; y := 0; x := 5;
                           offset := 0; save_status := true; disk := None |}).
  { unfold cursor_ok. simpl. repeat split; try discriminate.
    exists (str "hello world"). repeat split; discriminate. }
  split; [exact H|].
  exact (split_then_backspace_restores _
           {| key := 10; height := 24; writable := true |}
           {| key := 127; height := 24; writable := true |}
           H (or_introl eq_refl) (or_intror (or_introl eq_refl))).
Defined.

(** C8, as stated, fails: on a terminal of one row the scroll adjustment
    moves the offset below the cursor row. *)
Lemma scroll_offset_passes_cursor_on_one_row :
  let s := initial [[]] None in
  let i := {| key := KEY_LEFT; height := 1; writable := true |} in
  invariant s /\
  exists s', iteration i s = Ok (Some s') /\
             offset s' = 1 /\ y s' = 0 /\ ~ invariant s'.
Proof.
  cbv zeta. split.
  - unfold invariant, cursor_ok. simpl. repeat split; try discriminate.
    exists []. repeat split; discriminate.
  - eexists. split; [reflexivity|]. simpl. repeat split.
    intros [_ [_ H]]. simpl in H. lia.
Qed.

(** C8, amended: on a terminal of at least two rows, every operation on the
    buffer (the handler of any key but CTRL+G: character insert, Enter, Tab,
    backspace, the four arrows, and [save] when the file can be written)
    completes and, followed by the scroll adjustment, takes a state
    satisfying the invariant to a state satisfying it; and every iteration
    of the loop that completes, whatever the key, leaves a state satisfying
    the invariant. *)
Theorem iteration_preserves_invariant (i : input) (s : state) :
  invariant s -> 2 <= height i ->
  (forall s', iteration i s = Ok (Some s') -> invariant s') /\
  (key i <> 7 -> (key i = 19 -> writable i = true) ->
   exists s', handle_key i s = Ok s' /\
              invariant (adjust_scroll (height i) s')).
Proof.
  intros [Hc Ho] Hh. split.
  - intros s'. unfold iteration.
    destruct (key i =? -1); [intros E; inversion E; subst; split; assumption|].
    destruct (key i =? 17); [discriminate|].
    destruct (handle_key_cases i s) as [[E K]|[E|[h [Hk E]]]]; rewrite E.
    + unfold save. destruct (writable i); simpl; [|discriminate].
      intros E'; inversion E'; subst.
      apply adjust_scroll_invariant; [assumption | exact Hc | simpl; lia].
    + simpl. intros E'; inversion E'; subst.
      apply adjust_scroll_invariant; [assumption | exact Hc | lia].
    + destruct (Hk s Hc) as [s1 [E1 [Hc1 Ho1]]]. rewrite E1. simpl.
      intros E'; inversion E'; subst.
      apply adjust_scroll_invariant; [assumption | exact Hc1 | lia].
  - intros _ Hw.
    destruct (handle_key_cases i s) as [[E K]|[E|[h [Hk E]]]]; rewrite E.
    + rewrite (Hw K). eexists. split; [reflexivity|].
      apply adjust_scroll_invariant; [assumption | exact Hc | simpl; lia].
    + exists s. split; [reflexivity|].
      apply adjust_scroll_invariant; [assumption | exact Hc | lia].
    + destruct (Hk s Hc) as [s1 [E1 [Hc1 Ho1]]]. exists s1.
      split; [exact E1|].
      apply adjust_scroll_invariant; [assumption | exact Hc1 | lia].
Qed.

Lemma iteration_preserves_invariant_witness :
  let s := initial [str "hello"] None in
  let i := {| key := KEY_DOWN; height := 24; writable := true |} in
  invariant s /\ 2 <= height i /\
  (forall s', iteration i s = Ok (Some s') -> invariant s') /\
  (key i <> 7 -> (key i = 19 -> writable i = true) ->
   exists s', handle_key i s = Ok s' /\
              invariant (adjust_scroll (height i) s')).
Proof.
  cbv zeta.
  assert (H : invariant (initial [str "hello"] None)).
  { unfold invariant, cursor_ok. simpl. repeat split; try discriminate.
    exists (str "hello"). repeat split; discriminate. }
  assert (Hh : 2 <= height {| key := KEY_DOWN; height := 24; writable := true |})
    by (simpl; lia).
  split; [exact H|]. split; [exact Hh|].
  exact (iteration_preserves_invariant _ _ H Hh).
Defined.



End EditorFacts.

(** ** Binary64 rounding: when a result is not zero, not an infinity *)

Section RoundingFacts.

Import Float.
Local Open Scope Z_scope.

Definition emin : Z := SpecFloat.emin prec emax.

Lemma emin_value : emin = -1074.
Proof. reflexivity. Qed.

Lemma fexp_value (d : Z) : fexp prec emax d = Z.max (d - 53) (-1074).
Proof. reflexivity. Qed.

Lemma Zdigits2_log2 (m : Z) : 0 < m -> Zdigits2 m = Z.log2 m + 1.
Proof.
  destruct m as [|p|p]; try lia. intros _. simpl Zdigits2.
  induction p as [p IH|p IH|].
  - cbn [digits2_pos]. rewrite Pos2Z.inj_succ, IH.
    change (Z.pos p~1) with (2 * Z.pos p + 1).
    rewrite Z.log2_succ_double by lia. lia.
  - cbn [digits2_pos]. rewrite Pos2Z.inj_succ, IH.
    change (Z.pos p~0) with (2 * Z.pos p).
    rewrite Z.log2_double by lia. lia.
  - reflexivity.
Qed.

Lemma Zdigits2_nonneg (m : Z) : 0 <= m -> 0 <= Zdigits2 m.
Proof.
  intros H. destruct (Z.eq_dec m 0) as [->|Hm]; [simpl; lia|].
  rewrite Zdigits2_log2 by lia. pose proof (Z.log2_nonneg m). lia.
Qed.

Lemma Zdigits2_le (a b : Z) : 0 < a -> a <= b -> Zdigits2 a <= Zdigits2 b.
Proof.
  intros Ha Hab. rewrite !Zdigits2_log2 by lia.
  pose proof (Z.log2_le_mono a b Hab). lia.
Qed.

Lemma Zdigits2_succ (a : Z) : 0 < a -> Zdigits2 (a + 1) <= Zdigits2 a + 1.
Proof.
  intros Ha. rewrite !Zdigits2_log2 by lia.
  pose proof (Z.log2_succ_le a). unfold Z.succ in *. lia.
Qed.

Lemma Zdigits2_shiftr (a n : Z) :
  0 < a -> 0 <= n -> n < Zdigits2 a ->
  0 < Z.shiftr a n /\ Zdigits2 (Z.shiftr a n) = Zdigits2 a - n.
Proof.
  intros Ha Hn Hlt. rewrite Zdigits2_log2 in Hlt by lia.
  assert (Hpos : 0 < Z.shiftr a n).
  { rewrite Z.shiftr_div_pow2 by lia.
    apply Z.div_str_pos. split; [apply Z.pow_pos_nonneg; lia|].
    apply Z.log2_le_pow2; lia. }
  split; [exact Hpos|].
  rewrite !Zdigits2_log2 by lia. rewrite Z.log2_shiftr by lia. lia.
Qed.

(** *** Shifting a mantissa right *)

Lemma shr_1_m (mrs : shr_record) :
  0 <= shr_m mrs -> shr_m (shr_1 mrs) = Z.shiftr (shr_m mrs) 1.
Proof.
  destruct mrs as [m r s]. simpl. intros Hm.
  destruct m as [|[p|p|]|p]; try reflexivity; lia.
Qed.

Lemma iter_shr_1_m (p : positive) (mrs : shr_record) :
  0 <= shr_m mrs ->
  shr_m (iter_pos shr_1 p mrs) = Z.shiftr (shr_m mrs) (Zpos p).
Proof.
  revert mrs. induction p as [p IH|p IH|]; intros mrs Hm; cbn [iter_pos].
  - assert (H1 : 0 <= shr_m (shr_1 mrs))
      by (rewrite shr_1_m by lia; apply Z.shiftr_nonneg; lia).
    assert (H2 : 0 <= shr_m (iter_pos shr_1 p (shr_1 mrs)))
      by (rewrite IH by lia; apply Z.shiftr_nonneg; lia).
    rewrite IH, IH, shr_1_m by lia.
    rewrite !Z.shiftr_shiftr by lia. f_equal. lia.
  - assert (H2 : 0 <= shr_m (iter_pos shr_1 p mrs))
      by (rewrite IH by lia; apply Z.shiftr_nonneg; lia).
    rewrite IH, IH by lia.
    rewrite !Z.shiftr_shiftr by lia. f_equal. lia.
  - apply shr_1_m. exact Hm.
Qed.

Lemma shr_record_of_loc_m (m : Z) (l : location) :
  shr_m (shr_record_of_loc m l) = m.
Proof. destruct l as [|[| |]]; reflexivity. Qed.

(** One alignment step of the rounding: the mantissa stays positive, the
    exponent does not decrease, and the magnitude [digits + exponent] is
    kept. *)
Lemma shr_fexp_spec (m e : Z) (l : location) :
  0 < m -> emin < Zdigits2 m + e ->
  let '(mrs, e') := shr_fexp prec emax m e l in
  0 < shr_m mrs /\
  Zdigits2 (shr_m mrs) + e' = Zdigits2 m + e /\
  e <= e' /\ e' <= Z.max e (fexp prec emax (Zdigits2 m + e)).
Proof.
  intros Hm HD. unfold shr_fexp, shr.
  rewrite fexp_value in *. rewrite emin_value in HD.
  pose proof (Zdigits2_nonneg m ltac:(lia)) as Hd.
  destruct (Z.max (Zdigits2 m + e - 53) (-1074) - e) as [|p|p] eqn:En.
  - rewrite shr_record_of_loc_m. lia.
  - assert (Hp : Zpos p < Zdigits2 m) by lia.
    rewrite iter_shr_1_m by (rewrite shr_record_of_loc_m; lia).
    rewrite shr_record_of_loc_m.
    destruct (Zdigits2_shiftr m (Zpos p) Hm ltac:(lia) Hp) as [H1 H2].
    rewrite H2. lia.
  - rewrite shr_record_of_loc_m. lia.
Qed.

Lemma round_nearest_even_range (m : Z) (l : location) :
  m <= round_nearest_even m l <= m + 1.
Proof.
  destruct l as [|[| |]]; simpl; try lia. destruct (Z.even m); lia.
Qed.

(** The shape of a rounded result. *)
Inductive rounded (s : bool) (lo hi : Z) : float -> Prop :=
| rounded_finite m e : lo <= e <= hi -> rounded s lo hi (S754_finite s m e)
| rounded_infinity : 971 < hi -> rounded s lo hi (S754_infinity s).

Lemma binary_round_aux_rounded (s : bool) (m e : Z) (l : location) :
  0 < m -> emin < Zdigits2 m + e ->
  rounded s e (Z.max (Z.max e (Zdigits2 m + e - 52)) emin)
    (binary_round_aux prec emax s m e l).
Proof.
  intros Hm HD. unfold binary_round_aux.
  pose proof (shr_fexp_spec m e l Hm HD) as H1.
  destruct (shr_fexp prec emax m e l) as [mrs1 e1].
  destruct H1 as [Hm1 [HD1 [Hlo1 Hhi1]]].
  pose proof (round_nearest_even_range (shr_m mrs1) (loc_of_shr_record mrs1)) as Hr.
  set (m2 := round_nearest_even (shr_m mrs1) (loc_of_shr_record mrs1)) in *.
  assert (Hm2 : 0 < m2) by lia.
  assert (HD2lo : Zdigits2 m + e <= Zdigits2 m2 + e1)
    by (pose proof (Zdigits2_le (shr_m mrs1) m2 Hm1 ltac:(lia)); lia).
  assert (HD2hi : Zdigits2 m2 + e1 <= Zdigits2 m + e + 1).
  { pose proof (Zdigits2_succ (shr_m mrs1) Hm1).
    pose proof (Zdigits2_le m2 (shr_m mrs1 + 1) Hm2 ltac:(lia)). lia. }
  pose proof (shr_fexp_spec m2 e1 loc_Exact Hm2 ltac:(lia)) as H2.
  destruct (shr_fexp prec emax m2 e1 loc_Exact) as [mrs2 e2].
  destruct H2 as [Hm3 [HD3 [Hlo2 Hhi2]]].
  rewrite fexp_value in *. rewrite emin_value in *.
  destruct (shr_m mrs2) as [|p|p]; try lia.
  destruct (Z.leb_spec e2 (emax - prec)) as [Hle|Hgt].
  - apply rounded_finite. lia.
  - apply rounded_infinity. change (emax - prec) with 971 in Hgt. lia.
Qed.

Lemma rounded_not_zero s lo hi f : rounded s lo hi f -> is_zero f = false.
Proof. intros [m e H|H]; reflexivity. Qed.

Lemma shl_align_spec (m : positive) (e e' : Z) :
  let '(mz, ez) := shl_align m e e' in
  ez = Z.min e e' /\ Zpos mz = Zpos m * 2 ^ (e - ez).
Proof.
  unfold shl_align. destruct (e' - e) as [|d|d] eqn:E.
  - split; [lia|]. replace (e - e) with 0 by lia. lia.
  - split; [lia|]. replace (e - e) with 0 by lia. lia.
  - split; [lia|]. replace (e - e') with (Zpos d) by lia.
    change (Pos.iter xO m d) with (shift_pos d m).
    rewrite shift_pos_correct, Z.pow_pos_fold. lia.
Qed.

Lemma Zdigits2_mul_pow2 (m n : Z) :
  0 < m -> 0 <= n -> Zdigits2 (m * 2 ^ n) = Zdigits2 m + n.
Proof.
  intros Hm Hn.
  assert (0 < m * 2 ^ n) by (apply Z.mul_pos_pos; [|apply Z.pow_pos_nonneg]; lia).
  rewrite !Zdigits2_log2, Z.log2_mul_pow2 by lia. lia.
Qed.

Lemma binary_round_rounded (s : bool) (m : positive) (e : Z) :
  emin < Zdigits2 (Zpos m) + e ->
  rounded s (Z.min e (fexp prec emax (Zdigits2 (Zpos m) + e)))
    (Z.max (Z.max e (Zdigits2 (Zpos m) + e - 52)) emin)
    (binary_round prec emax s m e).
Proof.
  intros HD. unfold binary_round.
  change (Z.pos (digits2_pos m)) with (Zdigits2 (Zpos m)).
  pose proof (shl_align_spec m e (fexp prec emax (Zdigits2 (Zpos m) + e))) as Ha.
  destruct (shl_align m e (fexp prec emax (Zdigits2 (Zpos m) + e))) as [mz ez].
  destruct Ha as [Hez Hmz].
  assert (Hd : Zdigits2 (Zpos mz) + ez = Zdigits2 (Zpos m) + e).
  { rewrite Hmz, Zdigits2_mul_pow2 by lia. lia. }
  pose proof (binary_round_aux_rounded s (Zpos mz) ez loc_Exact
                ltac:(lia) ltac:(lia)) as Hr.
  rewrite Hd in Hr. rewrite <- Hez.
  destruct Hr as [m' e' He|Hinf].
  - apply rounded_finite. lia.
  - apply rounded_infinity. lia.
Qed.

(** *** Signs *)

(** Zero, NaN, or a value with the sign bit clear. *)
Definition nonneg (f : float) : Prop :=
  match f with
  | S754_zero _ | S754_nan => True
  | S754_infinity s | S754_finite s _ _ => s = false
  end.

Lemma binary_round_aux_nonneg (m e : Z) (l : location) :
  nonneg (binary_round_aux prec emax false m e l).
Proof.
  unfold binary_round_aux.
  destruct (shr_fexp prec emax m e l) as [mrs1 e1].
  destruct (shr_fexp prec emax _ e1 loc_Exact) as [mrs2 e2].
  destruct (shr_m mrs2); [exact I | | exact I].
  destruct (e2 <=? emax - prec); reflexivity.
Qed.

Lemma binary_round_nonneg (m : positive) (e : Z) :
  nonneg (binary_round prec emax false m e).
Proof.
  unfold binary_round. destruct (shl_align m e _) as [mz ez].
  apply binary_round_aux_nonneg.
Qed.

Lemma mul_self_nonneg (f : float) : nonneg (mul f f).
Proof.
  destruct f as [s|s| |s m e]; simpl; auto.
  - destruct s; reflexivity.
  - replace (xorb s s) with false by (destruct s; reflexivity).
    apply binary_round_aux_nonneg.
Qed.

Lemma add_nonneg (f g : float) : nonneg f -> nonneg g -> nonneg (add f g).
Proof.
  destruct f as [s|s| |s m e], g as [s'|s'| |s' m' e']; simpl; auto;
    try (intros -> ->; simpl; auto); try (intros _ ->; simpl; auto);
    try (intros -> _; simpl; auto).
  - intros _ _. destruct s, s'; simpl; auto.
  - apply binary_round_nonneg.
Qed.

Lemma math_sqrt_nonneg (f : float) :
  nonneg f -> exists r, math_sqrt f = Ok r /\ nonneg r.
Proof.
  destruct f as [s|s| |s m e]; simpl.
  - intros _. eexists. split; [reflexivity | exact I].
  - intros ->. eexists. split; [reflexivity | reflexivity].
  - intros _. eexists. split; [reflexivity | exact I].
  - intros ->. eexists. split; [reflexivity|].
    destruct (SFsqrt_core_binary prec emax (Z.pos m) e) as [[mz ez] lz].
    apply binary_round_aux_nonneg.
Qed.

(** The distance of two nodes, [sqrt(...) + 0.01], is never zero. *)
Lemma add_lit_0_01_not_zero (r : float) :
  nonneg r -> is_zero (add r lit_0_01) = false.
Proof.
  destruct r as [s|s| |s m e]; simpl; try reflexivity.
  intros ->. cbn [cond_Zopp].
  pose proof (shl_align_spec m e (Z.min e (-59))) as Ha.
  pose proof (shl_align_spec 5764607523034235 (-59) (Z.min e (-59))) as Hb.
  destruct (shl_align m e (Z.min e (-59))) as [a ea].
  destruct (shl_align 5764607523034235 (-59) (Z.min e (-59))) as [b eb].
  cbn [fst]. destruct Ha as [Hea Ha], Hb as [Heb Hb].
  change (Z.pos a + Z.pos b) with (Z.pos (a + b)). cbn [binary_normalize].
  apply rounded_not_zero with (s := false)
    (lo := Z.min (Z.min e (-59))
             (fexp prec emax (Zdigits2 (Z.pos (a + b)) + Z.min e (-59))))
    (hi := Z.max (Z.max (Z.min e (-59))
                    (Zdigits2 (Z.pos (a + b)) + Z.min e (-59) - 52)) emin).
  apply binary_round_rounded. rewrite emin_value.
  assert (Hdb : Zdigits2 (Zpos b) = 53 + (-59 - eb)).
  { rewrite Hb, Zdigits2_mul_pow2 by lia. reflexivity. }
  pose proof (Zdigits2_le (Zpos b) (Zpos (a + b)) ltac:(lia) ltac:(lia)).
  change (IntDef.Z.min e (-59)) with (Z.min e (-59)). lia.
Qed.

Lemma Zdigits2_lt_pow2 (m n : Z) : 0 < m -> m < 2 ^ n -> Zdigits2 m <= n.
Proof.
  intros Hm Hlt. rewrite Zdigits2_log2 by lia.
  apply Z.log2_lt_pow2 in Hlt; lia.
Qed.

Lemma Zdigits2_pow2_bounds (m : Z) :
  0 < m -> 2 ^ (Zdigits2 m - 1) <= m < 2 ^ Zdigits2 m.
Proof.
  intros Hm. rewrite Zdigits2_log2 by lia.
  pose proof (Z.log2_spec m Hm) as H. unfold Z.succ in H.
  replace (Z.log2 m + 1 - 1) with (Z.log2 m) by lia. exact H.
Qed.

(** [float(z)] succeeds on the integers of 64 bits, and keeps the sign. *)
Lemma of_int_ok (z : Z) :
  - 2 ^ 64 < z < 2 ^ 64 ->
  exists f, of_int z = Ok f /\ (0 <= z -> nonneg f).
Proof.
  intros Hz. unfold of_int. destruct z as [|m|m]; cbn [binary_normalize].
  - eexists. split; [reflexivity | intros _; exact I].
  - pose proof (Zdigits2_lt_pow2 (Zpos m) 64 ltac:(lia) ltac:(lia)) as Hd.
    pose proof (Zdigits2_nonneg (Zpos m) ltac:(lia)) as Hd0.
    pose proof (binary_round_nonneg m 0) as Hs.
    pose proof (binary_round_rounded false m 0) as Hr.
    rewrite emin_value in Hr. specialize (Hr ltac:(lia)).
    destruct Hr as [m' e' He|Hinf]; [|lia].
    eexists. split; [reflexivity | intros _; reflexivity].
  - pose proof (Zdigits2_lt_pow2 (Zpos m) 64 ltac:(lia) ltac:(lia)) as Hd.
    pose proof (Zdigits2_nonneg (Zpos m) ltac:(lia)) as Hd0.
    pose proof (binary_round_rounded true m 0) as Hr.
    rewrite emin_value in Hr. specialize (Hr ltac:(lia)).
    destruct Hr as [m' e' He|Hinf]; [|lia].
    eexists. split; [reflexivity | lia].
Qed.

(** The exact quotient of two positive integers of machine size is a
    positive binary64 with a moderate exponent. *)
Lemma int_truediv_pos (a b : Z) :
  0 < a < 2 ^ 62 -> 0 < b < 2 ^ 64 ->
  exists m e, int_truediv a b = Ok (S754_finite false m e) /\ -116 <= e.
Proof.
  intros Ha Hb. destruct a as [|pa|pa]; try lia. destruct b as [|pb|pb]; try lia.
  unfold int_truediv. cbn [Z.abs Z.to_pos Z.ltb Z.compare SFdiv xorb].
  unfold SFdiv_core_binary.
  pose proof (Zdigits2_lt_pow2 (Zpos pa) 62 ltac:(lia) ltac:(lia)) as Hd1.
  pose proof (Zdigits2_lt_pow2 (Zpos pb) 64 ltac:(lia) ltac:(lia)) as Hd2.
  pose proof (Zdigits2_pow2_bounds (Zpos pa) ltac:(lia)) as Hp1.
  pose proof (Zdigits2_pow2_bounds (Zpos pb) ltac:(lia)) as Hp2.
  assert (Hd1' : 1 <= Zdigits2 (Zpos pa)) by (simpl; lia).
  assert (Hd2' : 1 <= Zdigits2 (Zpos pb)) by (simpl; lia).
  set (d1 := Zdigits2 (Zpos pa)) in *. set (d2 := Zdigits2 (Zpos pb)) in *.
  rewrite fexp_value.
  replace (IntDef.Z.sub (IntDef.Z.add d1 0) (IntDef.Z.add d2 0)) with (d1 - d2)
    by (change IntDef.Z.sub with Z.sub; change IntDef.Z.add with Z.add; lia).
  change (IntDef.Z.sub 0 0) with 0.
  change IntDef.Z.min with Z.min. change IntDef.Z.sub with Z.sub.
  replace (Z.max (d1 - d2 - 53) (-1074)) with (d1 - d2 - 53) by lia.
  set (e' := Z.min (d1 - d2 - 53) 0).
  replace (0 - e') with (- e') by lia.
  set (m' := match - e' with
             | 0 => Z.pos pa
             | Z.pos _ => Z.shiftl (Z.pos pa) (- e')
             | Z.neg _ => 0
             end).
  assert (Hm' : m' = Zpos pa * 2 ^ (- e')).
  { subst m'. destruct (- e') as [|p|p] eqn:E; [lia| |lia].
    rewrite Z.shiftl_mul_pow2 by lia. reflexivity. }
  assert (Hpow : 0 < 2 ^ (- e')) by (apply Z.pow_pos_nonneg; lia).
  assert (Hq : Z.div_eucl m' (Zpos pb) = (m' / Zpos pb, m' mod Zpos pb))
    by (unfold Z.div, Z.modulo; destruct (Z.div_eucl m' (Zpos pb)); reflexivity).
  rewrite Hq.
  assert (Hlow : 2 ^ 52 <= m' / Zpos pb).
  { apply Z.div_le_lower_bound; [lia|]. rewrite Hm'.
    assert (2 ^ d2 * 2 ^ 52 <= 2 ^ (d1 - 1) * 2 ^ (- e')).
    { rewrite <- !Z.pow_add_r by lia. apply Z.pow_le_mono_r; lia. }
    nia. }
  assert (Hup : m' / Zpos pb <= m').
  { apply Z.div_le_upper_bound; [lia|]. nia. }
  assert (Hdm' : Zdigits2 m' = d1 - e')
    by (rewrite Hm', Zdigits2_mul_pow2 by lia; lia).
  pose proof (Zdigits2_le (m' / Zpos pb) m' ltac:(lia) Hup) as Hdq.
  pose proof (Zdigits2_le (2 ^ 52) (m' / Zpos pb) ltac:(lia) Hlow) as Hdq'.
  change (Zdigits2 (2 ^ 52)) with 53 in Hdq'.
  pose proof (binary_round_aux_rounded false (m' / Zpos pb) e'
                (new_location (Zpos pb) (m' mod Zpos pb))) as Hr.
  rewrite emin_value in Hr. specialize (Hr ltac:(lia) ltac:(lia)).
  destruct Hr as [m e He|Hinf]; [|lia].
  exists m, e. split; [reflexivity | lia].
Qed.

(** The square root of a positive binary64 with a moderate exponent is not
    zero. *)
Lemma math_sqrt_pos (m : positive) (e : Z) :
  -2000 <= e ->
  exists k, math_sqrt (S754_finite false m e) = Ok k /\ is_zero k = false.
Proof.
  intros He. unfold math_sqrt. eexists. split; [reflexivity|].
  cbn [SFsqrt]. unfold SFsqrt_core_binary.
  change IntDef.Z.sub with Z.sub. change IntDef.Z.add with Z.add.
  change IntDef.Z.min with Z.min. change IntDef.Z.mul with Z.mul.
  change IntDef.Z.div2 with Z.div2.
  set (d := Zdigits2 (Zpos m)).
  set (e' := Z.min (fexp prec emax (Z.div2 (d + e + 1))) (Z.div2 e)).
  assert (He' : -1074 <= e' /\ 2 * e' <= e).
  { subst e'. rewrite fexp_value, !Z.div2_div.
    pose proof (Z.mul_div_le e 2 ltac:(lia)).
    assert (-1000 <= e / 2) by (apply Z.div_le_lower_bound; lia). lia. }
  set (m' := match e - 2 * e' with
             | 0 => Z.pos m
             | Z.pos _ => Z.shiftl (Z.pos m) (e - 2 * e')
             | Z.neg _ => 0
             end).
  assert (Hm' : 1 <= m').
  { subst m'. destruct (e - 2 * e') as [|p|p] eqn:E; [lia| |lia].
    rewrite Z.shiftl_mul_pow2 by lia.
    assert (0 < 2 ^ Zpos p) by (apply Z.pow_pos_nonneg; lia). nia. }
  pose proof (Z.sqrtrem_sqrt m') as Hs.
  destruct (Z.sqrtrem m') as [q r]. cbn [fst] in Hs. subst q.
  assert (Hq : 0 < Z.sqrt m') by (apply Z.sqrt_pos; lia).
  pose proof (Zdigits2_le 1 (Z.sqrt m') ltac:(lia) ltac:(lia)) as Hdq.
  change (Zdigits2 1) with 1 in Hdq.
  eapply rounded_not_zero.
  apply binary_round_aux_rounded; [exact Hq | rewrite emin_value; lia].
Qed.

End RoundingFacts.

(** ** Numbers of mixed type in [force_layout] *)

Section NumFacts.

Import Float.
Local Open Scope Z_scope.

(** A number within the clamp bounds; a float is compared exactly. *)
Definition in_range (lo hi : Z) (a : num) : Prop :=
  match a with
  | Int z => lo <= z <= hi
  | Flt f => compare_int f lo = Some Gt /\ compare_int f hi = Some Lt
  end.

(** An integer of at most 31 bits, or any float. *)
Definition small (a : num) : Prop :=
  match a with
  | Int z => - 2 ^ 31 < z < 2 ^ 31
  | Flt _ => True
  end.

(** A square, and a sum of two squares. *)
Definition square (a : num) : Prop :=
  match a with
  | Int z => 0 <= z < 2 ^ 62
  | Flt f => nonneg f
  end.

Definition sum_of_squares (a : num) : Prop :=
  match a with
  | Int z => 0 <= z < 2 ^ 63
  | Flt f => nonneg f
  end.

Lemma clamp_in_range (lo hi : Z) (a : num) :
  lo <= hi -> in_range lo hi (Graph.clamp lo hi a).
Proof.
  intros H. unfold Graph.clamp, py_min, py_max.
  destruct a as [z|f]; simpl.
  - destruct (Z.ltb_spec lo z); simpl.
    + destruct (Z.ltb_spec z hi); simpl; lia.
    + destruct (Z.ltb_spec lo hi); simpl; lia.
  - destruct (compare_int f lo) as [[| |]|] eqn:E1; simpl;
      try (destruct (Z.ltb_spec lo hi); simpl; lia).
    destruct (compare_int f hi) as [[| |]|] eqn:E2; simpl; try lia.
    rewrite E1, E2. auto.
Qed.

Lemma in_range_small (hi : Z) (a : num) :
  hi < 2 ^ 31 -> in_range 1 hi a -> small a.
Proof. destruct a; simpl; [lia | auto]. Qed.

(** [int(a)] of a clamped number stays within the bounds. *)
Lemma int_num_in_range (lo hi : Z) (a : num) :
  0 <= lo -> in_range lo hi a ->
  exists z, int_num a = Ok z /\ lo <= z <= hi.
Proof.
  intros Hlo. destruct a as [z|f]; cbn [in_range int_num].
  - intros H. eauto.
  - intros [H1 H2].
    destruct f as [s|s| |s m e]; cbn [compare_int to_int] in *.
    + assert (E : (0 ?= lo) = Gt) by congruence.
      apply -> Z.compare_gt_iff in E. lia.
    + destruct s; discriminate.
    + discriminate.
    + eexists. split; [reflexivity|].
      assert (Hp : forall k, 0 < 2 ^ Zpos k)
        by (intros; apply Z.pow_pos_nonneg; lia).
      destruct e as [|k|k].
      * assert (E1 : ((if s then Z.neg m else Z.pos m) * 2 ^ 0 ?= lo) = Gt)
          by congruence.
        assert (E2 : ((if s then Z.neg m else Z.pos m) * 2 ^ 0 ?= hi) = Lt)
          by congruence.
        apply -> Z.compare_gt_iff in E1. apply -> Z.compare_lt_iff in E2.
        change (2 ^ 0) with 1 in *. destruct s; lia.
      * assert (E1 : ((if s then Z.neg m else Z.pos m) * 2 ^ Zpos k ?= lo) = Gt)
          by congruence.
        assert (E2 : ((if s then Z.neg m else Z.pos m) * 2 ^ Zpos k ?= hi) = Lt)
          by congruence.
        apply -> Z.compare_gt_iff in E1. apply -> Z.compare_lt_iff in E2.
        specialize (Hp k). destruct s; [nia | lia].
      * assert (E1 : ((if s then Z.neg m else Z.pos m) ?= lo * 2 ^ Zpos k) = Gt)
          by congruence.
        assert (E2 : ((if s then Z.neg m else Z.pos m) ?= hi * 2 ^ Zpos k) = Lt)
          by congruence.
        apply -> Z.compare_gt_iff in E1. apply -> Z.compare_lt_iff in E2.
        specialize (Hp k). destruct s; [nia|]. split.
        -- apply Z.div_le_lower_bound; lia.
        -- assert (Zpos m / 2 ^ Zpos k < hi)
             by (apply Z.div_lt_upper_bound; lia). lia.
Qed.

Lemma to_float_small (a : num) : small a -> exists f, to_float a = Ok f.
Proof.
  destruct a as [z|f]; simpl; [|eauto]. intros H.
  destruct (of_int_ok z ltac:(lia)) as [f [E _]]. eauto.
Qed.

Lemma num_sub_in_range (hi : Z) (a b : num) :
  hi < 2 ^ 31 -> in_range 1 hi a -> in_range 1 hi b ->
  exists d, num_sub a b = Ok d /\ small d.
Proof.
  intros Hhi Ha Hb.
  destruct (to_float_small a (in_range_small hi a Hhi Ha)) as [fa Ea].
  destruct (to_float_small b (in_range_small hi b Hhi Hb)) as [fb Eb].
  destruct a as [x|f], b as [y|g]; simpl in *.
  - eexists. split; [reflexivity | simpl; lia].
  - rewrite Ea. simpl. eexists. split; [reflexivity | exact I].
  - rewrite Eb. simpl. eexists. split; [reflexivity | exact I].
  - eexists. split; [reflexivity | exact I].
Qed.

Lemma num_mul_self (a : num) :
  small a -> exists s, num_mul a a = Ok s /\ square s.
Proof.
  destruct a as [z|f]; simpl; intros H.
  - eexists. split; [reflexivity | simpl; nia].
  - eexists. split; [reflexivity | apply mul_self_nonneg].
Qed.

Lemma to_float_square (a : num) :
  sum_of_squares a -> exists f, to_float a = Ok f /\ nonneg f.
Proof.
  destruct a as [z|f]; simpl; [|eauto]. intros H.
  destruct (of_int_ok z ltac:(lia)) as [f [E Hn]].
  exists f. split; [exact E | apply Hn; lia].
Qed.

Lemma square_sum (a : num) : square a -> sum_of_squares a.
Proof. destruct a; simpl; [lia | auto]. Qed.

Lemma num_add_squares (a b : num) :
  square a -> square b -> exists s, num_add a b = Ok s /\ sum_of_squares s.
Proof.
  intros Ha Hb.
  destruct (to_float_square a (square_sum a Ha)) as [fa [Ea Na]].
  destruct (to_float_square b (square_sum b Hb)) as [fb [Eb Nb]].
  destruct a as [x|f], b as [y|g]; simpl in *.
  - eexists. split; [reflexivity | simpl; lia].
  - rewrite Ea. simpl. eexists. split; [reflexivity|].
    simpl. apply add_nonneg; assumption.
  - rewrite Eb. simpl. eexists. split; [reflexivity|].
    simpl. apply add_nonneg; assumption.
  - eexists. split; [reflexivity|]. simpl. apply add_nonneg; assumption.
Qed.

Lemma sqrt_num_sum (a : num) :
  sum_of_squares a -> exists r, sqrt_num a = Ok r /\ nonneg r.
Proof.
  intros H. unfold sqrt_num.
  destruct (to_float_square a H) as [f [E N]]. rewrite E. simpl.
  apply math_sqrt_nonneg. exact N.
Qed.

(** [sqrt(dx*dx + dy*dy)] never raises on small numbers. *)
Lemma norm_ok (dx dy : num) :
  small dx -> small dy ->
  exists r,
    (dx2 <- num_mul dx dx ;; dy2 <- num_mul dy dy ;;
     sq <- num_add dx2 dy2 ;; sqrt_num sq) = Ok r /\ nonneg r.
Proof.
  intros Hx Hy.
  destruct (num_mul_self dx Hx) as [sx [Ex Sx]].
  destruct (num_mul_self dy Hy) as [sy [Ey Sy]].
  destruct (num_add_squares sx sy Sx Sy) as [s [Es Ss]].
  rewrite Ex. simpl. rewrite Ey. simpl. rewrite Es. simpl.
  apply sqrt_num_sum. exact Ss.
Qed.

Lemma num_truediv_small (a : num) (d : float) :
  small a -> is_zero d = false ->
  exists f, num_truediv a (Flt d) = Ok (Flt f).
Proof.
  intros Ha Hd. destruct (to_float_small a Ha) as [fa Ea].
  unfold num_truediv.
  replace (match a with
           | Int x => fa <- to_float a ;; fb <- to_float (Flt d) ;;
                      f <- truediv fa fb ;; Ok (Flt f)
           | Flt f0 => fa <- to_float a ;; fb <- to_float (Flt d) ;;
                       f <- truediv fa fb ;; Ok (Flt f)
           end)
    with (fa <- to_float a ;; fb <- to_float (Flt d) ;;
          f <- truediv fa fb ;; Ok (Flt f))
    by (destruct a; reflexivity).
  rewrite Ea. simpl. unfold truediv. rewrite Hd. simpl. eauto.
Qed.

Lemma num_add_flt (a : num) (g : float) :
  small a -> exists f, num_add a (Flt g) = Ok (Flt f).
Proof.
  intros Ha. destruct (to_float_small a Ha) as [fa Ea].
  destruct a as [z|f]; simpl in *; [rewrite Ea; simpl|]; eauto.
Qed.

Lemma num_sub_flt (a : num) (g : float) :
  small a -> exists f, num_sub a (Flt g) = Ok (Flt f).
Proof.
  intros Ha. destruct (to_float_small a Ha) as [fa Ea].
  destruct a as [z|f]; simpl in *; [rewrite Ea; simpl|]; eauto.
Qed.

End NumFacts.

(** ** One round of the simulation never raises and keeps every node inside
    the drawable region *)

Section RoundFacts.

Import Float Graph.
Local Open Scope Z_scope.

Variables (graph : dict (list pystr)) (width height : Z) (k : float).
Hypothesis Hwidth : 3 <= width < 2 ^ 31.
Hypothesis Hheight : 4 <= height < 2 ^ 31.
Hypothesis Hk : is_zero k = false.

Definition vec_in_bounds (p : vec) : Prop :=
  in_range 1 (width - 2) (fst p) /\ in_range 1 (height - 3) (snd p).

Definition positions_ok (positions : dict vec) : Prop :=
  dict_keys positions = dict_keys graph /\
  forall v p, dict_get positions v = Some p -> vec_in_bounds p.

Definition disp_ok (disp : dict vec) : Prop :=
  (forall v, dict_mem graph v = true -> dict_mem disp v = true) /\
  forall v d, dict_get disp v = Some d -> small (fst d) /\ small (snd d).

Lemma lookup_mem {V : Type} (d : dict V) (v : pystr) :
  dict_mem d v = true -> exists x, lookup d v = Ok x /\ dict_get d v = Some x.
Proof.
  unfold dict_mem, lookup. destruct (dict_get d v); [eauto | discriminate].
Qed.

Lemma positions_mem positions v :
  positions_ok positions -> dict_mem graph v = true ->
  dict_mem positions v = true.
Proof.
  intros [Hkeys _] Hv. apply dict_mem_in_keys. rewrite Hkeys.
  apply dict_mem_in_keys. exact Hv.
Qed.

Lemma vec_small (p : vec) : vec_in_bounds p -> small (fst p) /\ small (snd p).
Proof.
  intros [Hx Hy]. split.
  - apply in_range_small with (hi := width - 2); [lia | exact Hx].
  - apply in_range_small with (hi := height - 3); [lia | exact Hy].
Qed.

Lemma separation_ok positions v u :
  positions_ok positions ->
  dict_mem graph v = true -> dict_mem graph u = true ->
  exists dx dy dist,
    separation positions v u = Ok (dx, dy, dist) /\
    small dx /\ small dy /\ is_zero dist = false.
Proof.
  intros Hp Hv Hu. unfold separation.
  destruct (lookup_mem positions v (positions_mem positions v Hp Hv))
    as [pv [Ev Gv]].
  destruct (lookup_mem positions u (positions_mem positions u Hp Hu))
    as [pu [Eu Gu]].
  rewrite Ev. simpl. rewrite Eu. simpl.
  destruct Hp as [_ Hb].
  destruct (Hb v pv Gv) as [Hvx Hvy]. destruct (Hb u pu Gu) as [Hux Huy].
  destruct (num_sub_in_range (width - 2) (fst pv) (fst pu) ltac:(lia) Hvx Hux)
    as [dx [Ex Sx]].
  destruct (num_sub_in_range (height - 3) (snd pv) (snd pu) ltac:(lia) Hvy Huy)
    as [dy [Ey Sy]].
  rewrite Ex. simpl. rewrite Ey. simpl.
  destruct (norm_ok dx dy Sx Sy) as [r [Er Nr]].
  destruct (num_mul dx dx) as [dx2|]; simpl in Er |- *; [|discriminate].
  destruct (num_mul dy dy) as [dy2|]; simpl in Er |- *; [|discriminate].
  destruct (num_add dx2 dy2) as [sq|]; simpl in Er |- *; [|discriminate].
  rewrite Er. simpl.
  exists dx, dy, (add r lit_0_01). repeat split; try assumption.
  apply add_lit_0_01_not_zero. exact Nr.
Qed.

Section Push.

Variable op : num -> num -> result num.
Hypothesis op_flt : forall a g, small a -> exists f, op a (Flt g) = Ok (Flt f).

Lemma push_ok disp v dx dy dist force :
  disp_ok disp -> dict_mem graph v = true ->
  small dx -> small dy -> is_zero dist = false ->
  exists disp', push op disp v dx dy dist force = Ok disp' /\ disp_ok disp'.
Proof.
  intros Hd Hv Sx Sy Hz. unfold push.
  destruct (num_truediv_small dx dist Sx Hz) as [qx Eqx]. rewrite Eqx. simpl.
  destruct Hd as [Hm Hs].
  destruct (lookup_mem disp v (Hm v Hv)) as [d [El Gd]]. rewrite El. simpl.
  destruct (Hs v d Gd) as [Sdx Sdy].
  destruct (op_flt (fst d) (mul qx force) Sdx) as [nx Enx]. rewrite Enx. simpl.
  destruct (num_truediv_small dy dist Sy Hz) as [qy Eqy]. rewrite Eqy. simpl.
  unfold lookup at 1. rewrite dict_get_set.
  destruct (pystr_eq_dec v v) as [_|N]; [|congruence]. simpl.
  destruct (op_flt (snd d) (mul qy force) Sdy) as [ny Eny]. rewrite Eny. simpl.
  eexists. split; [reflexivity|]. split.
  - intros w Hw. rewrite !dict_mem_set.
    destruct (pystr_eq_dec w v); [reflexivity | apply Hm; exact Hw].
  - intros w d'. rewrite !dict_get_set.
    destruct (pystr_eq_dec w v).
    + intros E; inversion E; subst. split; exact I.
    + apply Hs.
Qed.

End Push.

Lemma repel_ok positions v disp u :
  positions_ok positions -> disp_ok disp ->
  dict_mem graph v = true -> dict_mem graph u = true ->
  exists disp', repel k positions v disp u = Ok disp' /\ disp_ok disp'.
Proof.
  intros Hp Hd Hv Hu. unfold repel.
  destruct (pystr_eqb u v); [eauto|].
  destruct (separation_ok positions v u Hp Hv Hu)
    as [dx [dy [dist [E [Sx [Sy Hz]]]]]].
  rewrite E. cbn [bind].
  assert (Hf : exists force,
             (if ltb dist lit_2_0
              then Ok (mul lit_5_0 (sub lit_2_0 dist))
              else truediv (mul lit_0_02 (mul k k)) dist) = Ok force).
  { destruct (ltb dist lit_2_0); [eauto|].
    unfold truediv. rewrite Hz. eauto. }
  destruct Hf as [force Ef]. rewrite Ef. cbn [bind].
  apply push_ok; try assumption. apply num_add_flt.
Qed.

Lemma attract_ok positions v disp u :
  positions_ok positions -> disp_ok disp -> dict_mem graph v = true ->
  exists disp', attract k graph positions v disp u = Ok disp' /\ disp_ok disp'.
Proof.
  intros Hp Hd Hv. unfold attract.
  destruct (dict_mem graph u) eqn:Hu; [|eauto].
  destruct (separation_ok positions v u Hp Hv Hu)
    as [dx [dy [dist [E [Sx [Sy Hz]]]]]].
  rewrite E. cbn [bind]. unfold truediv at 1. rewrite Hk. cbn [bind].
  destruct (push_ok num_sub num_sub_flt disp v dx dy dist
              (SFdiv prec emax (mul lit_1_0 (mul dist dist)) k)
              Hd Hv Sx Sy Hz) as [disp1 [E1 Hd1]].
  rewrite E1. cbn [bind].
  apply push_ok; try assumption. apply num_add_flt.
Qed.

Lemma move_ok disp positions v :
  disp_ok disp -> positions_ok positions -> dict_mem graph v = true ->
  exists positions',
    move width height disp positions v = Ok positions' /\
    positions_ok positions'.
Proof.
  intros [Hm Hs] Hp Hv. unfold move.
  destruct (lookup_mem disp v (Hm v Hv)) as [[dx dy] [El Gd]]. rewrite El. simpl.
  destruct (Hs v (dx, dy) Gd) as [Sx Sy]. simpl in Sx, Sy.
  destruct (norm_ok dx dy Sx Sy) as [dist [Er Nr]].
  destruct (num_mul dx dx) as [dx2|]; simpl in Er |- *; [|discriminate].
  destruct (num_mul dy dy) as [dy2|]; simpl in Er |- *; [|discriminate].
  destruct (num_add dx2 dy2) as [sq|]; simpl in Er |- *; [|discriminate].
  rewrite Er. simpl.
  destruct (lookup_mem positions v (positions_mem positions v Hp Hv))
    as [p [Ep Gp]].
  rewrite Ep. simpl.
  assert (Hmoved : exists moved,
             (if match compare_int dist 0 with Some Gt => true | _ => false end
              then
                qx <- num_truediv dx (Flt dist) ;;
                px <- num_add (fst p) qx ;;
                qy <- num_truediv dy (Flt dist) ;;
                py <- num_add (snd p) qy ;;
                Ok (px, py)
              else Ok p) = Ok moved).
  { destruct (compare_int dist 0) as [[| |]|] eqn:Ec; eauto.
    assert (Hz : is_zero dist = false).
    { destruct dist; try reflexivity. simpl in Ec. discriminate. }
    destruct (num_truediv_small dx dist Sx Hz) as [qx Eqx]. rewrite Eqx. simpl.
    destruct Hp as [_ Hb]. destruct (vec_small p (Hb v p Gp)) as [Spx Spy].
    destruct (num_add_flt (fst p) qx Spx) as [px Epx]. rewrite Epx. simpl.
    destruct (num_truediv_small dy dist Sy Hz) as [qy Eqy]. rewrite Eqy. simpl.
    destruct (num_add_flt (snd p) qy Spy) as [py Epy]. rewrite Epy. simpl.
    eauto. }
  destruct Hmoved as [moved Em]. rewrite Em. simpl.
  eexists. split; [reflexivity|].
  destruct Hp as [Hkeys Hb]. split.
  - rewrite dict_keys_set_old; [exact Hkeys|].
    rewrite Hkeys. apply dict_mem_in_keys. exact Hv.
  - intros w q. rewrite dict_get_set. destruct (pystr_eq_dec w v).
    + intros E; inversion E; subst. split; simpl; apply clamp_in_range; lia.
    + apply Hb.
Qed.

Lemma zero_disp_ok : disp_ok (zero_disp graph).
Proof.
  unfold zero_disp. split.
  - intros v Hv. unfold dict_mem. rewrite fold_dict_set_const_get.
    apply dict_mem_in_keys, existsb_pystr_eqb in Hv. rewrite Hv. reflexivity.
  - intros v d. rewrite fold_dict_set_const_get.
    destruct (existsb (pystr_eqb v) (dict_keys graph)); [|discriminate].
    intros E; inversion E; subst. simpl. lia.
Qed.

Lemma round_ok positions :
  positions_ok positions ->
  exists positions',
    round k graph width height positions = Ok positions' /\
    positions_ok positions'.
Proof.
  intros Hp. unfold round.
  destruct (for_each_total
              (fun disp v =>
                 for_each (dict_keys graph) (repel k positions v) disp)
              disp_ok (dict_keys graph)) with (s := zero_disp graph)
    as [disp1 [E1 Hd1]].
  { intros disp v Hv Hd. apply dict_mem_in_keys in Hv.
    apply for_each_total; [|exact Hd].
    intros disp' u Hu Hd'. apply dict_mem_in_keys in Hu.
    apply repel_ok; assumption. }
  { apply zero_disp_ok. }
  rewrite E1. simpl.
  destruct (for_each_total
              (fun disp (item : pystr * list pystr) =>
                 for_each (snd item) (attract k graph positions (fst item)) disp)
              disp_ok graph) with (s := disp1)
    as [disp2 [E2 Hd2]].
  { intros disp [v targets] Hin Hd. simpl.
    apply in_dict_mem in Hin.
    apply for_each_total; [|exact Hd].
    intros disp' u _ Hd'. apply attract_ok; assumption. }
  { exact Hd1. }
  rewrite E2. simpl.
  apply for_each_total; [|exact Hp].
  intros positions' v Hv Hp'. apply dict_mem_in_keys in Hv.
  apply move_ok; assumption.
Qed.

Lemma rounds_ok (n : nat) positions :
  positions_ok positions ->
  exists positions',
    rounds n k graph width height positions = Ok positions' /\
    positions_ok positions'.
Proof.
  revert positions. induction n as [|n IH]; intros positions Hp; simpl.
  - eauto.
  - destruct (round_ok positions Hp) as [positions1 [E1 Hp1]].
    rewrite E1. simpl. apply IH. exact Hp1.
Qed.

End RoundFacts.

(** ** The whole of [force_layout] *)

Section LayoutFacts.

Import Float Graph.
Local Open Scope Z_scope.

Variables (graph : dict (list pystr)) (width height : Z).
Hypothesis Hwidth : 3 <= width < 2 ^ 31.
Hypothesis Hheight : 4 <= height < 2 ^ 31.

Lemma randint_ok (draws : nat -> N) (n : nat) (hi : Z) :
  1 <= hi -> exists z, randint draws n 1 hi = Ok z /\ 1 <= z <= hi.
Proof.
  intros H. unfold randint.
  destruct (Z.ltb_spec hi 1); [lia|].
  eexists. split; [reflexivity|].
  pose proof (Z.mod_pos_bound (Z.of_N (draws n)) (hi - 1 + 1) ltac:(lia)). lia.
Qed.

Lemma init_positions_loop (draws : nat -> N) (keys : list pystr) :
  forall (acc : dict vec) (n : nat),
    NoDup (dict_keys acc ++ keys) ->
    (forall v p, dict_get acc v = Some p -> vec_in_bounds width height p) ->
    exists acc' n',
      for_each keys (place draws width height) (acc, n) = Ok (acc', n') /\
      dict_keys acc' = dict_keys acc ++ keys /\
      (forall v p, dict_get acc' v = Some p -> vec_in_bounds width height p).
Proof.
  induction keys as [|note keys IH]; intros acc n Hnd Hb; simpl.
  - exists acc, n. rewrite app_nil_r. auto.
  - unfold place at 1.
    destruct (randint_ok draws n (width - 2) ltac:(lia)) as [px [Ex Hx]].
    destruct (randint_ok draws (S n) (height - 3) ltac:(lia)) as [py [Ey Hy]].
    rewrite Ex. simpl. rewrite Ey. simpl.
    assert (Hnew : ~ In note (dict_keys acc)).
    { apply NoDup_remove_2 in Hnd. intros Hin. apply Hnd.
      apply in_or_app. auto. }
    destruct (IH (dict_set acc note (Int px, Int py)) (S (S n)))
      as [acc' [n' [E [Hk Hb']]]].
    + rewrite dict_keys_set_new by exact Hnew.
      rewrite <- app_assoc. exact Hnd.
    + intros v p. rewrite dict_get_set. destruct (pystr_eq_dec v note).
      * intros E; inversion E; subst. split; simpl; lia.
      * apply Hb.
    + exists acc', n'. split; [exact E|]. split; [|exact Hb'].
      rewrite Hk, dict_keys_set_new by exact Hnew.
      rewrite <- app_assoc. reflexivity.
Qed.

Lemma init_positions_ok (draws : nat -> N) :
  NoDup (dict_keys graph) ->
  exists positions,
    init_positions draws graph width height = Ok positions /\
    positions_ok graph width height positions.
Proof.
  intros Hnd. unfold init_positions.
  destruct (init_positions_loop draws (dict_keys graph) [] 0%nat)
    as [acc [n [E [Hk Hb]]]]; [exact Hnd | discriminate |].
  match goal with
  | |- context [bind ?loop _] =>
      assert (E' : loop = Ok (acc, n)) by exact E; rewrite E'
  end.
  simpl. exists acc. split; [reflexivity|]. split; assumption.
Qed.

Lemma ideal_distance_ok :
  len graph < 2 ^ 63 ->
  exists k, ideal_distance graph width height = Ok k /\ is_zero k = false.
Proof.
  intros Hn. unfold ideal_distance.
  pose proof (len_nonneg graph) as Hl.
  destruct (int_truediv_pos (width * height) (len graph + 1))
    as [m [e [E He]]]; [nia | lia |].
  rewrite E. simpl bind. apply math_sqrt_pos. lia.
Qed.

Definition cells_in_bounds (cells : dict (Z * Z)) : Prop :=
  forall note x y, dict_get cells note = Some (x, y) ->
    1 <= x <= width - 2 /\ 1 <= y <= height - 3.

Lemma to_cells_loop (items : list (pystr * vec)) :
  forall cells : dict (Z * Z),
    NoDup (dict_keys cells ++ map fst items) ->
    (forall item, In item items -> vec_in_bounds width height (snd item)) ->
    cells_in_bounds cells ->
    exists cells',
      for_each items to_cell cells = Ok cells' /\
      dict_keys cells' = dict_keys cells ++ map fst items /\
      cells_in_bounds cells'.
Proof.
  induction items as [|[note p] items IH]; intros cells Hnd Hp Hc; simpl.
  - exists cells. rewrite app_nil_r. auto.
  - unfold to_cell at 1. cbn [fst snd].
    destruct (Hp (note, p) (or_introl eq_refl)) as [Hx Hy]. simpl in Hx, Hy.
    destruct (int_num_in_range 1 (width - 2) (fst p) ltac:(lia) Hx) as [cx [Ex Bx]].
    destruct (int_num_in_range 1 (height - 3) (snd p) ltac:(lia) Hy) as [cy [Ey By]].
    rewrite Ex. simpl. rewrite Ey. simpl.
    assert (Hnew : ~ In note (dict_keys cells)).
    { apply NoDup_remove_2 in Hnd. intros Hin. apply Hnd.
      apply in_or_app. auto. }
    destruct (IH (dict_set cells note (cx, cy))) as [cells' [E [Hk Hb']]].
    + rewrite dict_keys_set_new by exact Hnew.
      rewrite <- app_assoc. exact Hnd.
    + intros item Hin. apply Hp. right. exact Hin.
    + intros v x0 y0. rewrite dict_get_set. destruct (pystr_eq_dec v note).
      * intros E; inversion E; subst. auto.
      * apply Hc.
    + exists cells'. split; [exact E|]. split; [|exact Hb'].
      rewrite Hk, dict_keys_set_new by exact Hnew.
      rewrite <- app_assoc. reflexivity.
Qed.

Lemma in_dict_get_nodup {V : Type} (d : dict V) (key : pystr) (v : V) :
  NoDup (dict_keys d) -> In (key, v) d -> dict_get d key = Some v.
Proof.
  induction d as [|[k0 v0] d IH]; simpl; intros Hnd Hin; [destruct Hin|].
  inversion Hnd as [|? ? Hnot Hnd']; subst.
  destruct Hin as [E|Hin].
  - inversion E; subst. destruct (pystr_eq_dec key key); congruence.
  - destruct (pystr_eq_dec key k0) as [->|].
    + exfalso. apply Hnot. change k0 with (fst (k0, v)).
      apply in_map. exact Hin.
    + apply IH; assumption.
Qed.

Lemma to_cells_ok (positions : dict vec) :
  NoDup (dict_keys graph) -> positions_ok graph width height positions ->
  exists cells,
    to_cells positions = Ok cells /\
    dict_keys cells = dict_keys graph /\ cells_in_bounds cells.
Proof.
  intros Hnd [Hk Hb]. unfold to_cells.
  destruct (to_cells_loop positions []) as [cells [E [Hk' Hc]]].
  - simpl. fold (dict_keys positions). rewrite Hk. exact Hnd.
  - intros [note p] Hin. simpl. apply (Hb note).
    apply in_dict_get_nodup; [rewrite Hk; exact Hnd | exact Hin].
  - intros note x0 y0 H. discriminate.
  - exists cells. split; [exact E|]. split; [|exact Hc].
    rewrite Hk'. simpl. exact Hk.
Qed.

End LayoutFacts.

Section LayoutProperties.

Import Float Graph.
Local Open Scope Z_scope.

(** C1: for a graph with distinct keys and a region of width >= 3 and
    height >= 4 (sizes of machine integers), [force_layout] raises nothing
    and returns one cell per node, in the order of the graph, each within
    [1, width-2] x [1, height-3], whatever the random draws and the number of
    iterations; no node gives the empty mapping, one node gives one entry. *)
Theorem force_layout_in_bounds (draws : nat -> N) (graph : dict (list pystr))
  (width height iterations : Z) :
  NoDup (dict_keys graph) ->
  3 <= width < 2 ^ 31 -> 4 <= height < 2 ^ 31 -> len graph < 2 ^ 63 ->
  exists cells,
    force_layout draws graph width height iterations = Ok cells /\
    dict_keys cells = dict_keys graph /\
    (forall note, dict_mem graph note = true ->
       exists x y, dict_get cells note = Some (x, y)) /\
    (forall note x y, dict_get cells note = Some (x, y) ->
       1 <= x <= width - 2 /\ 1 <= y <= height - 3) /\
    (graph = [] -> cells = []) /\
    (forall note targets, graph = [(note, targets)] ->
       exists x y, cells = [(note, (x, y))]).
Proof.
  intros Hnd Hw Hh Hn. unfold force_layout, simulate.
  destruct (init_positions_ok graph width height Hw Hh draws Hnd)
    as [positions [E0 Hp0]].
  rewrite E0. cbn [bind].
  destruct (ideal_distance_ok graph width height Hw Hh Hn) as [k [Ek Hk]].
  rewrite Ek. cbn [bind].
  destruct (rounds_ok graph width height k Hw Hh Hk
              (Z.to_nat iterations) positions Hp0) as [positions' [E1 Hp1]].
  rewrite E1. cbn [bind].
  destruct (to_cells_ok graph width height positions' Hnd Hp1)
    as [cells [E2 [Hkeys Hc]]].
  exists cells. split; [exact E2|]. split; [exact Hkeys|].
  repeat split.
  - intros note Hm. apply dict_mem_in_keys in Hm. rewrite <- Hkeys in Hm.
    apply dict_mem_in_keys in Hm. unfold dict_mem in Hm.
    destruct (dict_get cells note) as [[x y]|]; [eauto | discriminate].
  - apply (Hc note x y H).
  - apply (Hc note x y H).
  - apply (Hc note x y H).
  - apply (Hc note x y H).
  - intros ->. destruct cells; [reflexivity | discriminate].
  - intros note targets ->. destruct cells as [|[n [x y]] [|c cells]];
      try discriminate.
    simpl in Hkeys. inversion Hkeys; subst. eauto.
Qed.

Lemma force_layout_in_bounds_witness :
  NoDup (dict_keys Vault.graph) /\
  3 <= 80 < 2 ^ 31 /\ 4 <= 24 < 2 ^ 31 /\ len Vault.graph < 2 ^ 63 /\
  exists cells,
    force_layout (fun _ => 7%N) Vault.graph 80 24 default_iterations = Ok cells /\
    dict_keys cells = dict_keys Vault.graph.
Proof.
  assert (Hnd : NoDup (dict_keys Vault.graph)).
  { repeat constructor; simpl; intuition discriminate. }
  assert (Hw : 3 <= 80 < 2 ^ 31) by lia.
  assert (Hh : 4 <= 24 < 2 ^ 31) by lia.
  assert (Hn : len Vault.graph < 2 ^ 63) by (unfold len; simpl; lia).
  repeat split; try assumption; try lia.
  destruct (force_layout_in_bounds (fun _ => 7%N) Vault.graph 80 24
              default_iterations Hnd Hw Hh Hn) as [cells [E [Hk _]]].
  exists cells. split; assumption.
Defined.

(** C3 does not hold of the code: line 80 converts with [int], which drops
    the fraction.  On the two-note vault, 80 x 24 cells and 200 rounds, note
    [A] ends at about (8.59, 2.59); [force_layout] returns (8, 2) where the
    nearest integers are (9, 3).  Likewise 5.9 becomes 5, not 6. *)
Theorem force_layout_truncates_coordinates :
  let ax := S754_finite false 4833368075147398 (-49) in
  let ay := S754_finite false 5822673418478106 (-51) in
  (exists b,
     simulate Vault.draws Vault.graph 80 24 default_iterations =
       Ok [(str "A", (Flt ax, Flt ay)); (str "B", b)]) /\
  nearest_int ax = Ok 9 /\ nearest_int ay = Ok 3 /\
  (exists cells,
     force_layout Vault.draws Vault.graph 80 24 default_iterations = Ok cells /\
     dict_get cells (str "A") = Some (8, 2)) /\
  (exists f, int_truediv 59 10 = Ok f /\
             int_num (Flt f) = Ok 5 /\ nearest_int f = Ok 6).
Proof.
  cbv zeta. split; [eexists; vm_compute; reflexivity|].
  split; [vm_compute; reflexivity|]. split; [vm_compute; reflexivity|].
  split; eexists; split; vm_compute; try reflexivity.
  split; reflexivity.
Qed.

End LayoutProperties.

(** ** The link pattern: what a match looks like *)

Section PatternFacts.

Import LinkUtils Spans.
Local Open Scope Z_scope.

(** A note name the pattern can capture: not empty, no [']'] in it. *)
Definition linkable (name : pystr) : Prop :=
  name <> [] /\ ~ In RBRACKET name.

(** The text of a link to [name]. *)
Definition link_text (name : pystr) : pystr :=
  [LBRACKET; LBRACKET] ++ name ++ [RBRACKET; RBRACKET].

Lemma name_run_split (s : pystr) :
  s = fst (name_run s) ++ snd (name_run s) /\
  ~ In RBRACKET (fst (name_run s)) /\
  (snd (name_run s) = [] \/ exists r, snd (name_run s) = RBRACKET :: r).
Proof.
  induction s as [|c s IH]; simpl.
  - repeat split; auto.
  - destruct (N.eqb_spec c RBRACKET) as [->|Hc]; simpl.
    + repeat split; eauto.
    + destruct (name_run s) as [n r]. simpl in *.
      destruct IH as [Es [Hn Hr]]. repeat split.
      * f_equal. exact Es.
      * intros [E|Hin]; [congruence | contradiction].
      * exact Hr.
Qed.

Lemma name_run_app (name rest : pystr) :
  ~ In RBRACKET name ->
  name_run (name ++ RBRACKET :: rest) = (name, RBRACKET :: rest).
Proof.
  induction name as [|c name IH]; simpl; intros H.
  - reflexivity.
  - destruct (N.eqb_spec c RBRACKET) as [->|Hc]; [exfalso; auto|].
    rewrite IH by (intros Hin; apply H; auto). reflexivity.
Qed.

Lemma match_here_inv (s name rest : pystr) :
  match_here s = Some (name, rest) ->
  s = link_text name ++ rest /\ linkable name.
Proof.
  unfold match_here, link_text, linkable.
  destruct s as [|a [|b s]]; try discriminate.
  destruct (N.eqb_spec a LBRACKET) as [->|]; simpl; [|discriminate].
  destruct (N.eqb_spec b LBRACKET) as [->|]; simpl; [|discriminate].
  destruct (name_run_split s) as [Es [Hn _]].
  destruct (name_run s) as [[|c n] [|r1 [|r2 r]]]; try discriminate.
  destruct (N.eqb_spec r1 RBRACKET) as [->|]; simpl; [|discriminate].
  destruct (N.eqb_spec r2 RBRACKET) as [->|]; simpl; [|discriminate].
  intros E. injection E as <- <-. simpl in Es, Hn.
  repeat split; try discriminate; try assumption.
  rewrite Es. simpl. rewrite <- app_assoc. reflexivity.
Qed.

Lemma match_here_link (name rest : pystr) :
  linkable name -> match_here (link_text name ++ rest) = Some (name, rest).
Proof.
  intros [Hne Hn]. unfold link_text. simpl.
  rewrite <- app_assoc. simpl. rewrite name_run_app by exact Hn.
  destruct name; [congruence | reflexivity].
Qed.

Lemma match_here_not_bracket (c : char) (s : pystr) :
  c <> LBRACKET -> match_here (c :: s) = None.
Proof.
  intros Hc. unfold match_here. destruct s; [reflexivity|].
  apply N.eqb_neq in Hc. rewrite Hc. reflexivity.
Qed.

(** X1: The names found are all linkable: never empty, never with a [']']. *)
Theorem findall_names_linkable (text : pystr) :
  Forall linkable (findall text).
Proof.
  remember (length text) as n eqn:Hn. revert text Hn.
  induction n as [n IH] using lt_wf_ind. intros text Hn.
  destruct text as [|c s]; [simp findall; constructor|].
  rewrite findall_cons.
  destruct (match_here (c :: s)) as [[name rest]|] eqn:E.
  - destruct (match_here_inv _ _ _ E) as [Es Hl]. constructor; [exact Hl|].
    apply (IH (length rest)); [|reflexivity].
    subst n. rewrite Es. unfold link_text.
    rewrite !length_app. simpl. lia.
  - apply (IH (length s)); [subst n; simpl; lia | reflexivity].
Qed.

(** X2: A link written after text without ['['] is found, then the scan goes
    on behind it. *)
Theorem findall_link (prefix name rest : pystr) :
  ~ In LBRACKET prefix -> linkable name ->
  findall (prefix ++ link_text name ++ rest) = name :: findall rest.
Proof.
  intros Hp Hl. induction prefix as [|c prefix IH]; simpl.
  - pose proof (match_here_link name rest Hl) as Hm.
    unfold link_text in *. simpl app in *.
    rewrite findall_cons, Hm. reflexivity.
  - rewrite findall_cons, match_here_not_bracket
      by (intros ->; apply Hp; left; reflexivity).
    apply IH. intros Hin. apply Hp. right. exact Hin.
Qed.

Lemma findall_link_witness :
  ~ In LBRACKET (str "    -> ") /\ linkable (str "B") /\
  findall (str "    -> " ++ link_text (str "B") ++ []) = [str "B"].
Proof.
  assert (Hp : ~ In LBRACKET (str "    -> "))
    by (simpl; intuition discriminate).
  assert (Hl : linkable (str "B"))
    by (split; [discriminate | simpl; intuition discriminate]).
  split; [exact Hp|]. split; [exact Hl|].
  exact (findall_link (str "    -> ") (str "B") [] Hp Hl).
Defined.

End PatternFacts.

(** ** The spans of [finditer] *)

Section SpanFacts.

Import LinkUtils Spans.
Local Open Scope Z_scope.

Lemma finditer_from_cons (pos : Z) (c : char) (s : pystr) :
  finditer_from pos (c :: s) =
  match match_here (c :: s) with
  | Some (name, rest) =>
      {| group1 := name; span_start := pos;
         span_end := pos + (len (c :: s) - len rest) |}
        :: finditer_from (pos + (len (c :: s) - len rest)) rest
  | None => finditer_from (pos + 1) s
  end.
Proof.
  simp finditer_from.
  destruct (inspect (match_here (c :: s))) as [[[name rest]|] E];
    simp finditer_from; rewrite E; reflexivity.
Qed.


(** Spans listed from [pos] on: each lies at or after [pos], inside the
    line, covers the text of a link to its name, and the next ones start at
    or after its end. *)
Fixpoint spans_from (line : pystr) (pos : Z) (l : list span) : Prop :=
  match l with
  | [] => True
  | sp :: l' =>
      pos <= span_start sp /\
      span_end sp = span_start sp + len (group1 sp) + 4 /\
      span_end sp <= len line /\
      slice line (span_start sp) (span_end sp) = link_text (group1 sp) /\
      spans_from line (span_end sp) l'
  end.

Lemma spans_from_le (line : pystr) (pos pos' : Z) (l : list span) :
  pos' <= pos -> spans_from line pos l -> spans_from line pos' l.
Proof. destruct l; simpl; [auto|]. intros H [H1 H2]. split; [lia | exact H2]. Qed.

Lemma slice_middle (pre mid post : pystr) :
  slice (pre ++ mid ++ post) (len pre) (len pre + len mid) = mid.
Proof.
  unfold slice. pose proof (len_nonneg pre). pose proof (len_nonneg mid).
  pose proof (len_nonneg post).
  rewrite !clamp_index_inside by (rewrite !len_app; lia).
  replace (Z.to_nat (len pre)) with (length pre) by (unfold len; lia).
  replace (Z.to_nat (len pre + len mid) - length pre)%nat with (length mid)
    by (unfold len; lia).
  rewrite skipn_app, Nat.sub_diag, skipn_all. simpl.
  rewrite firstn_app, Nat.sub_diag, firstn_all. simpl. apply app_nil_r.
Qed.

Lemma finditer_from_spans (t : pystr) :
  forall pre : pystr,
    spans_from (pre ++ t) (len pre) (finditer_from (len pre) t).
Proof.
  remember (length t) as n eqn:Hn. revert t Hn.
  induction n as [n IH] using lt_wf_ind. intros t Hn pre.
  destruct t as [|c s]; [simp finditer_from; exact I|].
  rewrite finditer_from_cons.
  destruct (match_here (c :: s)) as [[name rest]|] eqn:E.
  - destruct (match_here_inv _ _ _ E) as [Es _].
    assert (Hlen : len (c :: s) - len rest = len name + 4).
    { rewrite Es. unfold link_text. rewrite !len_app.
      change (len [LBRACKET; LBRACKET]) with 2.
      change (len [RBRACKET; RBRACKET]) with 2. lia. }
    rewrite Hlen. pose proof (len_nonneg rest). pose proof (len_nonneg name).
    cbn [spans_from span_start span_end group1].
    split; [lia|]. split; [lia|]. split; [rewrite len_app; lia|]. split.
    + rewrite Es.
      replace (len pre + (len name + 4)) with (len pre + len (link_text name))
        by (unfold link_text; rewrite !len_app;
            change (len [LBRACKET; LBRACKET]) with 2;
            change (len [RBRACKET; RBRACKET]) with 2; lia).
      apply slice_middle.
    + replace (len pre + (len name + 4)) with (len (pre ++ link_text name))
        by (unfold link_text; rewrite !len_app;
            change (len [LBRACKET; LBRACKET]) with 2;
            change (len [RBRACKET; RBRACKET]) with 2; lia).
      replace (pre ++ c :: s) with ((pre ++ link_text name) ++ rest)
        by (rewrite Es, app_assoc; reflexivity).
      apply (IH (length rest)); [|reflexivity].
      subst n. rewrite Es. unfold link_text. rewrite !length_app. simpl. lia.
  - replace (len pre + 1) with (len (pre ++ [c]))
      by (rewrite len_app; reflexivity).
    replace (pre ++ c :: s) with ((pre ++ [c]) ++ s)
      by (rewrite <- app_assoc; reflexivity).
    apply spans_from_le with (pos := len (pre ++ [c]));
      [rewrite len_app; pose proof (len_nonneg [c]); lia|].
    apply (IH (length s)); [subst n; simpl; lia | reflexivity].
Qed.

Lemma spans_from_in (line : pystr) (l : list span) :
  forall pos sp, spans_from line pos l -> In sp l ->
    pos <= span_start sp /\
    span_end sp = span_start sp + len (group1 sp) + 4 /\
    span_end sp <= len line /\
    slice line (span_start sp) (span_end sp) = link_text (group1 sp).
Proof.
  induction l as [|sp0 l IH]; intros pos sp H Hin; [destruct Hin|].
  destruct H as [H1 [H2 [H3 [H4 H5]]]]. destruct Hin as [<-|Hin]; [auto|].
  pose proof (len_nonneg (group1 sp0)).
  destruct (IH _ sp H5 Hin) as [G1 G]. split; [lia | exact G].
Qed.

(** X4: Every match of [finditer] lies inside the line and spans exactly the
    text [[[name]]] of its own name. *)
Theorem finditer_span_text (s : pystr) (sp : span) :
  In sp (finditer s) ->
  0 <= span_start sp /\
  span_end sp = span_start sp + len (group1 sp) + 4 /\
  span_end sp <= len s /\
  slice s (span_start sp) (span_end sp) = link_text (group1 sp).
Proof.
  intros Hin. apply (spans_from_in s (finditer s) 0 sp); [|exact Hin].
  exact (finditer_from_spans s []).
Qed.

Lemma finditer_span_text_witness :
  let line := str "see [[B]] now" in
  let sp := {| group1 := str "B"; span_start := 4; span_end := 9 |} in
  In sp (finditer line) /\
  slice line (span_start sp) (span_end sp) = link_text (group1 sp).
Proof.
  cbv zeta.
  assert (H : In {| group1 := str "B"; span_start := 4; span_end := 9 |}
                (finditer (str "see [[B]] now")))
    by (left; reflexivity).
  split; [exact H|].
  exact (proj2 (proj2 (proj2 (finditer_span_text _ _ H)))).
Defined.

Lemma spans_from_ordered (line : pystr) (l : list span) :
  forall pos, spans_from line pos l ->
    ForallOrdPairs (fun a b => span_end a <= span_start b) l.
Proof.
  induction l as [|sp l IH]; intros pos H; [constructor|].
  destruct H as [H1 [H2 [H3 [H4 H5]]]]. constructor.
  - apply Forall_forall. intros sp' Hin.
    destruct (spans_from_in line l _ sp' H5 Hin) as [G _]. exact G.
  - apply (IH _ H5).
Qed.

(** X5: The matches come in order and never overlap. *)
Theorem finditer_disjoint (s : pystr) :
  ForallOrdPairs (fun a b => span_end a <= span_start b) (finditer s).
Proof.
  apply (spans_from_ordered s (finditer s) 0).
  exact (finditer_from_spans s []).
Qed.

End SpanFacts.

(** ** The link under the cursor of the editor *)

Section CurrentLinkFacts.

Import LinkUtils Spans Editor EditorLinks.
Local Open Scope Z_scope.

Lemma enumerate_from_in {A : Type} (l : list A) :
  forall (r0 row : Z) (a : A),
    In (row, a) (enumerate_from r0 l) <->
    r0 <= row /\ nth_error l (Z.to_nat (row - r0)) = Some a.
Proof.
  induction l as [|a0 l IH]; intros r0 row a; simpl.
  - split; [tauto|]. intros [_ H]. destruct (Z.to_nat (row - r0)); discriminate.
  - rewrite IH. split.
    + intros [E|[H1 H2]].
      * inversion E; subst. rewrite Z.sub_diag. simpl. split; [lia | reflexivity].
      * split; [lia|].
        replace (Z.to_nat (row - r0)) with (S (Z.to_nat (row - (r0 + 1)))) by lia.
        exact H2.
    + intros [H1 H2]. destruct (Z.eq_dec row r0) as [->|Hne].
      * rewrite Z.sub_diag in H2. simpl in H2. left. congruence.
      * right. split; [lia|].
        replace (Z.to_nat (row - r0)) with (S (Z.to_nat (row - (r0 + 1)))) in H2
          by lia.
        exact H2.
Qed.

Lemma getitem_nth {A : Type} (l : list A) (i : Z) (a : A) :
  0 <= i -> nth_error l (Z.to_nat i) = Some a -> getitem l i = Ok a.
Proof.
  intros Hi Hn. unfold getitem, norm_index.
  assert (Hlt : (Z.to_nat i < length l)%nat)
    by (apply nth_error_Some; congruence).
  destruct (Z.ltb_spec i 0); [lia|].
  replace ((0 <=? i) && (i <? len l)) with true.
  - rewrite Hn. reflexivity.
  - symmetry. apply andb_true_iff. unfold len.
    split; [apply Z.leb_le | apply Z.ltb_lt]; lia.
Qed.

Lemma nth_getitem {A : Type} (l : list A) (i : Z) (a : A) :
  0 <= i -> getitem l i = Ok a -> nth_error l (Z.to_nat i) = Some a.
Proof.
  intros Hi H. unfold getitem in H.
  destruct (norm_index l i) as [n|] eqn:E; [|discriminate].
  apply norm_index_range in E; [|exact Hi]. destruct E as [_ ->].
  destruct (nth_error l (Z.to_nat i)); [congruence | discriminate].
Qed.

(** A window [l[a:b]] with [a >= 0] holds items of [l] from index [a] on,
    and all of them up to [b - 1] when [b >= 0]. *)
Lemma slice_nth_inv {A : Type} (l : list A) (a b : Z) (n : nat) (v : A) :
  0 <= a -> nth_error (slice l a b) n = Some v ->
  nth_error l (Z.to_nat a + n) = Some v.
Proof.
  intros Ha H. unfold slice in H.
  rewrite nth_error_firstn in H.
  destruct (n <? clamp_index l b - clamp_index l a)%nat; [|discriminate].
  rewrite nth_error_skipn in H.
  assert (Hk : (clamp_index l a + n < length l)%nat)
    by (apply nth_error_Some; congruence).
  replace (Z.to_nat a) with (clamp_index l a); [exact H|].
  unfold clamp_index in *. destruct (Z.ltb_spec a 0) as [?|_]; [lia|].
  unfold len in *. lia.
Qed.

Lemma slice_nth_intro {A : Type} (l : list A) (a b : Z) (n : nat) (v : A) :
  0 <= a -> 0 <= b -> a + Z.of_nat n < b ->
  nth_error l (Z.to_nat a + n) = Some v ->
  nth_error (slice l a b) n = Some v.
Proof.
  intros Ha Hb Hlt H.
  assert (Hk : (Z.to_nat a + n < length l)%nat)
    by (apply nth_error_Some; congruence).
  assert (Ea : clamp_index l a = Z.to_nat a).
  { unfold clamp_index, len. destruct (Z.ltb_spec a 0) as [?|_]; lia. }
  assert (Eb : (Z.to_nat a + n < clamp_index l b)%nat).
  { unfold clamp_index, len. destruct (Z.ltb_spec b 0) as [?|_]; lia. }
  unfold slice. rewrite nth_error_firstn, Ea.
  destruct (Nat.ltb_spec n (clamp_index l b - Z.to_nat a)); [|lia].
  rewrite nth_error_skipn. exact H.
Qed.

Definition over (s : state) (l : link) : bool :=
  (y s =? link_y l) && (x_start l <=? x s) && (x s <? x_end l).

Lemma in_links_on_screen (s : state) (height : Z) (l : link) :
  0 <= offset s ->
  In l (links_on_screen s height) ->
  exists line m,
    getitem (buffer s) (link_y l) = Ok line /\ In m (finditer line) /\
    note l = group1 m /\ x_start l = span_start m /\ x_end l = span_end m.
Proof.
  intros Ho Hin. unfold links_on_screen in Hin.
  apply in_flat_map in Hin. destruct Hin as [[row line] [Hrow Hl]].
  apply in_map_iff in Hl. destruct Hl as [m [<- Hm]]. simpl.
  apply enumerate_from_in in Hrow. destruct Hrow as [Hr Hn].
  rewrite Z.sub_0_r in Hn. apply slice_nth_inv in Hn; [|exact Ho].
  exists line, m. repeat split; try assumption.
  apply getitem_nth; [lia|].
  replace (Z.to_nat (row + offset s)) with (Z.to_nat (offset s) + Z.to_nat row)%nat
    by lia.
  exact Hn.
Qed.

(** X6: Whenever a link is reported under the cursor, it is on the cursor's
    line, the cursor is within its columns, and those columns hold the text
    [[[note]]]. *)
Theorem current_link_sound (s : state) (height : Z) (l : link) :
  0 <= offset s -> current_link s height = Some l ->
  link_y l = y s /\ x_start l <= x s < x_end l /\
  exists line,
    getitem (buffer s) (y s) = Ok line /\
    slice line (x_start l) (x_end l) = link_text (note l).
Proof.
  intros Ho H. unfold current_link in H. apply find_some in H.
  destruct H as [Hin Hc].
  apply andb_true_iff in Hc. destruct Hc as [Hc H3].
  apply andb_true_iff in Hc. destruct Hc as [H1 H2].
  apply Z.eqb_eq in H1. apply Z.leb_le in H2. apply Z.ltb_lt in H3.
  split; [lia|]. split; [lia|].
  destruct (in_links_on_screen s height l Ho Hin)
    as [line [m [Hg [Hm [En [Es Ee]]]]]].
  exists line. rewrite H1. split; [exact Hg|].
  rewrite En, Es, Ee.
  apply (spans_from_in line (finditer line) 0 m (finditer_from_spans line []) Hm).
Qed.

Lemma current_link_sound_witness :
  let s := {| buffer := [str "see [[B]] now"]; y := 0; x := 5; offset := 0;
              save_status := true; disk := None |} in
  let l := {| note := str "B"; link_y := 0; x_start := 4; x_end := 9 |} in
  0 <= offset s /\ current_link s 24 = Some l /\ link_y l = y s.
Proof.
  cbv zeta. split; [simpl; lia|]. split; [reflexivity|].
  exact (proj1 (current_link_sound
                  {| buffer := [str "see [[B]] now"]; y := 0; x := 5;
                     offset := 0; save_status := true; disk := None |}
                  24 _ (Z.le_refl 0) eq_refl)).
Defined.

Lemma find_exists {A : Type} (p : A -> bool) (l : list A) (a : A) :
  In a l -> p a = true -> exists b, find p l = Some b.
Proof.
  intros Hin Hp. destruct (find p l) as [b|] eqn:E; [eauto|].
  pose proof (find_none p l E a Hin). congruence.
Qed.

(** X7: When the cursor's row is in the window and the cursor is within the
    columns of a match of its line, that match is the link reported. *)
Theorem current_link_complete (s : state) (height : Z) (line : pystr) (m : span) :
  0 <= offset s <= y s -> y s < offset s + height - 1 ->
  getitem (buffer s) (y s) = Ok line -> In m (finditer line) ->
  span_start m <= x s < span_end m ->
  exists l,
    current_link s height = Some l /\
    note l = group1 m /\ x_start l = span_start m /\ x_end l = span_end m.
Proof.
  intros Ho Hv Hg Hm Hx.
  set (l0 := {| note := group1 m; link_y := (y s - offset s) + offset s;
                x_start := span_start m; x_end := span_end m |}).
  assert (Hin : In l0 (links_on_screen s height)).
  { unfold links_on_screen. apply in_flat_map.
    exists (y s - offset s, line). split.
    - apply enumerate_from_in. split; [lia|]. rewrite Z.sub_0_r.
      apply slice_nth_intro; try lia.
      replace (Z.to_nat (offset s) + Z.to_nat (y s - offset s))%nat
        with (Z.to_nat (y s)) by lia.
      apply nth_getitem; [lia | exact Hg].
    - apply in_map_iff. exists m. split; [reflexivity | exact Hm]. }
  assert (Hover : (y s =? link_y l0) && (x_start l0 <=? x s) && (x s <? x_end l0)
                  = true).
  { simpl. rewrite !andb_true_iff.
    repeat split; [apply Z.eqb_eq | apply Z.leb_le | apply Z.ltb_lt]; lia. }
  destruct (find_exists
              (fun l => (y s =? link_y l) && (x_start l <=? x s) && (x s <? x_end l))
              _ l0 Hin Hover) as [l El].
  change (current_link s height = Some l) in El.
  exists l. split; [exact El|].
  unfold current_link in El. apply find_some in El. destruct El as [Hl Hc].
  apply andb_true_iff in Hc. destruct Hc as [Hc H3].
  apply andb_true_iff in Hc. destruct Hc as [H1 H2].
  apply Z.eqb_eq in H1. apply Z.leb_le in H2. apply Z.ltb_lt in H3.
  destruct (in_links_on_screen s height l ltac:(lia) Hl)
    as [line' [m' [Hg' [Hm' [En [Es Ee]]]]]].
  rewrite <- H1, Hg in Hg'. inversion Hg'; subst line'.
  destruct (ForallOrdPairs_In
              (spans_from_ordered line (finditer line) 0
                 (finditer_from_spans line [])) m m' Hm Hm')
    as [E|[E|E]].
  - subst m'. auto.
  - lia.
  - lia.
Qed.

Lemma current_link_complete_witness :
  let s := {| buffer := [str "intro"; str "see [[B]] now"]; y := 1; x := 8;
              offset := 0; save_status := true; disk := None |} in
  let m := {| group1 := str "B"; span_start := 4; span_end := 9 |} in
  0 <= offset s <= y s /\ y s < offset s + 24 - 1 /\
  getitem (buffer s) (y s) = Ok (str "see [[B]] now") /\
  In m (finditer (str "see [[B]] now")) /\
  span_start m <= x s < span_end m /\
  exists l, current_link s 24 = Some l /\ note l = group1 m.
Proof.
  cbv zeta.
  set (s := {| buffer := [str "intro"; str "see [[B]] now"]; y := 1; x := 8;
               offset := 0; save_status := true; disk := None |}).
  set (m := {| group1 := str "B"; span_start := 4; span_end := 9 |}).
  assert (H1 : 0 <= offset s <= y s) by (simpl; lia).
  assert (H2 : y s < offset s + 24 - 1) by (simpl; lia).
  assert (H3 : getitem (buffer s) (y s) = Ok (str "see [[B]] now")) by reflexivity.
  assert (H4 : In m (finditer (str "see [[B]] now"))) by (left; reflexivity).
  assert (H5 : span_start m <= x s < span_end m) by (simpl; lia).
  repeat (split; [assumption|]).
  destruct (current_link_complete s 24 _ m H1 H2 H3 H4 H5) as [l [E [En _]]].
  exists l. split; assumption.
Defined.

End CurrentLinkFacts.

(** ** The editing session: what is saved and what is loaded again *)

Section SessionFacts.

Import Editor EditorFile.
Local Open Scope Z_scope.

(** A line holds no line boundary; a buffer is clean when its lines are. *)
Definition clean_line (l : pystr) : Prop :=
  Forall (fun c => is_linebreak c = false) l.

Definition clean (b : list pystr) : Prop := Forall clean_line b.

Lemma splitlines_clean_line (l : pystr) :
  clean_line l -> l <> [] -> splitlines l = [l].
Proof.
  induction l as [|c l IH]; intros H Hne; [congruence|].
  inversion H as [|? ? Hc Hl]; subst.
  rewrite splitlines_cons, Hc.
  destruct l as [|c' l]; [reflexivity|].
  rewrite IH; [reflexivity | exact Hl | discriminate].
Qed.

Lemma splitlines_clean_app (l s : pystr) :
  clean_line l -> splitlines (l ++ LF :: s) = l :: splitlines s.
Proof.
  induction l as [|c l IH]; intros H.
  - reflexivity.
  - inversion H as [|? ? Hc Hl]; subst.
    rewrite <- app_comm_cons, splitlines_cons, Hc, IH by exact Hl.
    reflexivity.
Qed.

Lemma serialize_cons (l l' : pystr) (rest : list pystr) :
  serialize (l :: l' :: rest) = l ++ LF :: serialize (l' :: rest).
Proof. reflexivity. Qed.

Lemma splitlines_serialize (b : list pystr) :
  clean b -> last b [] <> [] -> splitlines (serialize b) = b.
Proof.
  induction b as [|l b IH]; intros Hc Hl; [reflexivity|].
  inversion Hc as [|? ? H1 H2]; subst.
  destruct b as [|l' b].
  - apply splitlines_clean_line; assumption.
  - rewrite serialize_cons, splitlines_clean_app by exact H1.
    rewrite IH; [reflexivity | exact H2 | exact Hl].
Qed.

Lemma splitlines_serialize_final_empty (b : list pystr) :
  clean b -> b <> [] -> splitlines (serialize (b ++ [[]])) = b.
Proof.
  induction b as [|l b IH]; intros Hc Hne; [congruence|].
  inversion Hc as [|? ? H1 H2]; subst.
  destruct b as [|l' b].
  - simpl app. rewrite serialize_cons, splitlines_clean_app by exact H1.
    reflexivity.
  - change ((l :: l' :: b) ++ [[]]) with (l :: l' :: (b ++ [[]])).
    rewrite serialize_cons, splitlines_clean_app by exact H1.
    change (l' :: b ++ [[]]) with ((l' :: b) ++ [[]]).
    rewrite IH; [reflexivity | exact H2 | discriminate].
Qed.

Lemma in_serialize (c : char) (b : list pystr) :
  In c (serialize b) -> c = LF \/ exists l, In l b /\ In c l.
Proof.
  induction b as [|l b IH]; intros H; [destruct H|].
  destruct b as [|l' b].
  - right. exists l. split; [left; reflexivity | exact H].
  - rewrite serialize_cons in H. apply in_app_or in H.
    destruct H as [H|[H|H]].
    + right. exists l. split; [left; reflexivity | exact H].
    + left. symmetry. exact H.
    + destruct (IH H) as [E|[l0 [H0 H1]]]; [left; exact E|].
      right. exists l0. split; [right; exact H0 | exact H1].
Qed.

Lemma serialize_no_cr (b : list pystr) : clean b -> ~ In CR (serialize b).
Proof.
  intros Hc H. apply in_serialize in H. destruct H as [E|[l [Hl Hin]]].
  - discriminate.
  - unfold clean, clean_line in Hc. rewrite Forall_forall in Hc.
    specialize (Hc l Hl). rewrite Forall_forall in Hc.
    specialize (Hc CR Hin). discriminate.
Qed.

Lemma text_mode_read_no_cr (s : pystr) : ~ In CR s -> text_mode_read s = s.
Proof.
  induction s as [|c s IH]; intros H; [reflexivity|].
  simpl. destruct (N.eqb_spec c CR) as [->|_].
  - exfalso. apply H. left. reflexivity.
  - rewrite IH; [reflexivity|]. intros Hin. apply H. right. exact Hin.
Qed.

(** X8: Saving a clean buffer and opening the file again gives the buffer back,
    except that one final empty line is lost. *)
Theorem save_then_load (s : state) :
  clean (buffer s) ->
  exists s',
    save true s = Ok s' /\
    (last (buffer s) [] <> [] \/ buffer s = [[]] ->
     load (read_disk (disk s')) = Ok (buffer s)) /\
    (forall b, b <> [] -> buffer s = b ++ [[]] ->
     load (read_disk (disk s')) = Ok b).
Proof.
  intros Hc. eexists. split; [reflexivity|]. simpl.
  rewrite text_mode_read_no_cr by (apply serialize_no_cr; exact Hc).
  unfold loadFromText. split.
  - intros [Hl|E].
    + rewrite splitlines_serialize by assumption.
      destruct (buffer s); [exfalso; apply Hl|]; reflexivity.
    + rewrite E. reflexivity.
  - intros b Hne E. rewrite E in *.
    assert (Hb : clean b) by (apply Forall_app in Hc; apply Hc).
    rewrite splitlines_serialize_final_empty by assumption.
    destruct b; [congruence | reflexivity].
Qed.

Lemma save_then_load_witness :
  let s := {| buffer := [str "# Title"; str "see [[B]]"]; y := 1; x := 3;
              offset := 0; save_status := false; disk := None |} in
  clean (buffer s) /\
  exists s', save true s = Ok s' /\ load (read_disk (disk s')) = Ok (buffer s).
Proof.
  cbv zeta.
  set (s := {| buffer := [str "# Title"; str "see [[B]]"]; y := 1; x := 3;
               offset := 0; save_status := false; disk := None |}).
  assert (Hc : clean (buffer s)).
  { repeat constructor. }
  split; [exact Hc|].
  destruct (save_then_load s Hc) as [s' [E [H _]]].
  exists s'. split; [exact E|]. apply H. left. discriminate.
Defined.

(** *** What the handlers do to the lines *)

Lemma Forall_firstn_skipn {A : Type} (P : A -> Prop) (n : nat) (l : list A) :
  Forall P l -> Forall P (firstn n l) /\ Forall P (skipn n l).
Proof.
  intros H. rewrite <- (firstn_skipn n l) in H. apply Forall_app in H. exact H.
Qed.

Lemma Forall_slice_to {A : Type} (P : A -> Prop) (l : list A) (i : Z) :
  Forall P l -> Forall P (slice_to l i).
Proof. intros H. apply Forall_firstn_skipn. exact H. Qed.

Lemma Forall_slice_from {A : Type} (P : A -> Prop) (l : list A) (i : Z) :
  Forall P l -> Forall P (slice_from l i).
Proof. intros H. apply Forall_firstn_skipn. exact H. Qed.

Lemma Forall_set_nth {A : Type} (P : A -> Prop) (l : list A) (n : nat) (a : A) :
  Forall P l -> P a -> Forall P (set_nth l n a).
Proof.
  intros H Ha. revert n. induction H as [|b l Hb Hl IH]; intros n; simpl.
  - constructor.
  - destruct n; constructor; auto.
Qed.

Lemma Forall_getitem {A : Type} (P : A -> Prop) (l : list A) (i : Z) (a : A) :
  Forall P l -> getitem l i = Ok a -> P a.
Proof.
  intros H E. unfold getitem in E.
  destruct (norm_index l i) as [n|]; [|discriminate].
  destruct (nth_error l n) as [b|] eqn:En; [|discriminate].
  inversion E; subst. rewrite Forall_forall in H.
  apply H. eapply nth_error_In. exact En.
Qed.

Lemma Forall_setitem {A : Type} (P : A -> Prop) (l l' : list A) (i : Z) (a : A) :
  Forall P l -> P a -> setitem l i a = Ok l' -> Forall P l'.
Proof.
  intros H Ha E. unfold setitem in E.
  destruct (norm_index l i); inversion E; subst.
  apply Forall_set_nth; assumption.
Qed.

Lemma Forall_list_insert {A : Type} (P : A -> Prop) (l : list A) (i : Z) (a : A) :
  Forall P l -> P a -> Forall P (list_insert l i a).
Proof.
  intros H Ha. unfold list_insert.
  destruct (Forall_firstn_skipn P (clamp_index l i) l H).
  apply Forall_app. split; [|constructor]; assumption.
Qed.

Lemma Forall_list_pop {A : Type} (P : A -> Prop) (l l' : list A) (i : Z) :
  Forall P l -> list_pop l i = Ok l' -> Forall P l'.
Proof.
  intros H E. unfold list_pop in E.
  destruct (norm_index l i) as [n|]; inversion E; subst.
  apply Forall_app. split.
  - apply (Forall_firstn_skipn P n l H).
  - apply (Forall_firstn_skipn P (S n) l H).
Qed.

(** A printable key is no line boundary. *)
Lemma printable_not_linebreak (k : Z) :
  32 <= k <= 126 -> is_linebreak (Z.to_N k) = false.
Proof.
  intros H.
  assert (E : exists n, (n < 95)%nat /\ k = 32 + Z.of_nat n)
    by (exists (Z.to_nat (k - 32)); lia).
  destruct E as [n [Hn ->]].
  do 95 (destruct n as [|n]; [reflexivity|]). lia.
Qed.

(** The steps of a handler that returned: each [bind] gave a value. *)
Ltac returned H :=
  repeat match type of H with
         | bind ?r _ = Ok _ =>
             let E := fresh "E" in
             destruct r eqn:E; cbn [bind] in H; [|discriminate H]
         | (if ?c then _ else _) = Ok _ => destruct c eqn:?
         end.

Lemma splitLine_clean s s' :
  clean (buffer s) -> splitLine s = Ok s' -> clean (buffer s').
Proof.
  intros Hc H. unfold splitLine in H. returned H. inversion H; subst. simpl.
  assert (Hl : clean_line a) by (eapply Forall_getitem; eassumption).
  apply Forall_list_insert; [|apply Forall_slice_from; exact Hl].
  eapply Forall_setitem; [exact Hc | | eassumption].
  apply Forall_slice_to. exact Hl.
Qed.

Lemma indent_clean s s' :
  clean (buffer s) -> indent s = Ok s' -> clean (buffer s').
Proof.
  intros Hc H. unfold indent in H. returned H. inversion H; subst. simpl.
  assert (Hl : clean_line a) by (eapply Forall_getitem; eassumption).
  eapply Forall_setitem; [exact Hc | | eassumption].
  apply Forall_app. split; [apply Forall_slice_to; exact Hl|].
  apply Forall_app. split; [repeat constructor | apply Forall_slice_from; exact Hl].
Qed.

Lemma insertChar_clean k s s' :
  32 <= k <= 126 ->
  clean (buffer s) -> insertChar k s = Ok s' -> clean (buffer s').
Proof.
  intros Hk Hc H. unfold insertChar in H. returned H. inversion H; subst. simpl.
  assert (Hl : clean_line a) by (eapply Forall_getitem; eassumption).
  eapply Forall_setitem; [exact Hc | | eassumption].
  apply Forall_app. split; [apply Forall_slice_to; exact Hl|].
  apply Forall_app. split; [|apply Forall_slice_from; exact Hl].
  constructor; [apply printable_not_linebreak; exact Hk | constructor].
Qed.

Lemma backspace_clean s s' :
  clean (buffer s) -> backspace s = Ok s' -> clean (buffer s').
Proof.
  intros Hc H. unfold backspace in H. returned H; inversion H; subst; simpl.
  - assert (Hl : clean_line a) by (eapply Forall_getitem; eassumption).
    eapply Forall_setitem; [exact Hc | | eassumption].
    apply Forall_app.
    split; [apply Forall_slice_to | apply Forall_slice_from]; exact Hl.
  - assert (Hp : clean_line a) by (eapply Forall_getitem; eassumption).
    assert (Hl : clean_line a0) by (eapply Forall_getitem; eassumption).
    eapply Forall_list_pop; [|eassumption].
    eapply Forall_setitem; [exact Hc | | eassumption].
    apply Forall_app. split; assumption.
  - exact Hc.
Qed.

(** The cursor keys change neither the lines, nor the flag, nor the file. *)
Definition same_text (s s' : state) : Prop :=
  buffer s' = buffer s /\ save_status s' = save_status s /\ disk s' = disk s.

Lemma left_same_text s s' : left s = Ok s' -> same_text s s'.
Proof.
  intros H. unfold left in H. returned H; inversion H; subst;
    repeat split; reflexivity.
Qed.

Lemma right_same_text s s' : right s = Ok s' -> same_text s s'.
Proof.
  intros H. unfold right in H. returned H; inversion H; subst;
    repeat split; reflexivity.
Qed.

Lemma up_same_text s s' : up s = Ok s' -> same_text s s'.
Proof.
  intros H. unfold up in H. returned H; inversion H; subst;
    repeat split; reflexivity.
Qed.

Lemma down_same_text s s' : down s = Ok s' -> same_text s s'.
Proof.
  intros H. unfold down in H. returned H; inversion H; subst;
    repeat split; reflexivity.
Qed.

(** The editing keys clear the flag and leave the file alone. *)
Definition marked_unsaved (s s' : state) : Prop :=
  save_status s' = false /\ disk s' = disk s.

Lemma splitLine_marks s s' : splitLine s = Ok s' -> marked_unsaved s s'.
Proof.
  intros H. unfold splitLine in H. returned H. inversion H; subst.
  split; reflexivity.
Qed.

Lemma indent_marks s s' : indent s = Ok s' -> marked_unsaved s s'.
Proof.
  intros H. unfold indent in H. returned H. inversion H; subst.
  split; reflexivity.
Qed.

Lemma insertChar_marks k s s' : insertChar k s = Ok s' -> marked_unsaved s s'.
Proof.
  intros H. unfold insertChar in H. returned H. inversion H; subst.
  split; reflexivity.
Qed.

Lemma backspace_marks s s' : backspace s = Ok s' -> marked_unsaved s s'.
Proof.
  intros H. unfold backspace in H. returned H; inversion H; subst;
    split; reflexivity.
Qed.

(** What a key that was handled did, by kind of key. *)
Inductive handled (i : input) (s s' : state) : Prop :=
| handled_save :
    key i = 19 -> writable i = true -> save true s = Ok s' -> handled i s s'
| handled_motion : key i <> 19 -> same_text s s' -> handled i s s'
| handled_edit :
    key i <> 19 -> marked_unsaved s s' ->
    (clean (buffer s) -> clean (buffer s')) -> handled i s s'.

Lemma handle_key_handled i s s' : handle_key i s = Ok s' -> handled i s s'.
Proof.
  unfold handle_key. intros H.
  destruct (Z.eqb_spec (key i) 19) as [K|K].
  { unfold save in H. destruct (writable i) eqn:W; [|discriminate].
    apply handled_save; [exact K | exact W | exact H]. }
  destruct (key i =? 7).
  { inversion H; subst. apply handled_motion; [exact K|]. repeat split. }
  destruct ((key i =? 10) || (key i =? 13)).
  { apply handled_edit;
      [exact K | apply splitLine_marks; exact H
      | intros Hc; eapply splitLine_clean; eassumption]. }
  destruct (key i =? 9).
  { apply handled_edit;
      [exact K | apply indent_marks; exact H
      | intros Hc; eapply indent_clean; eassumption]. }
  destruct ((key i =? KEY_BACKSPACE) || (key i =? 127) || (key i =? 8)).
  { apply handled_edit;
      [exact K | apply backspace_marks; exact H
      | intros Hc; eapply backspace_clean; eassumption]. }
  destruct (key i =? KEY_LEFT).
  { apply handled_motion; [exact K | apply left_same_text; exact H]. }
  destruct (key i =? KEY_RIGHT).
  { apply handled_motion; [exact K | apply right_same_text; exact H]. }
  destruct (key i =? KEY_UP).
  { apply handled_motion; [exact K | apply up_same_text; exact H]. }
  destruct (key i =? KEY_DOWN).
  { apply handled_motion; [exact K | apply down_same_text; exact H]. }
  destruct ((32 <=? key i) && (key i <=? 126)) eqn:P.
  { apply andb_true_iff in P. destruct P as [P1 P2].
    apply Z.leb_le in P1. apply Z.leb_le in P2.
    apply handled_edit;
      [exact K | eapply insertChar_marks; exact H
      | intros Hc; apply (insertChar_clean (key i) s s' (conj P1 P2) Hc H)]. }
  inversion H; subst. apply handled_motion; [exact K|]. repeat split.
Qed.

(** One iteration on a terminal of two rows or more: the outcome, with the
    state the handler returned before the scroll adjustment. *)
Lemma iteration_outcome i s :
  invariant s -> 2 <= height i ->
  match iteration i s with
  | Ok (Some s') =>
      invariant s' /\
      (key i = -1 /\ s' = s \/
       key i <> -1 /\
       exists s1, handle_key i s = Ok s1 /\ cursor_ok s1 /\
                  s' = adjust_scroll (height i) s1)
  | Ok None => key i = 17
  | Raise _ => key i = 19 /\ writable i = false
  end.
Proof.
  intros [Hc Ho] Hh. unfold iteration.
  destruct (Z.eqb_spec (key i) (-1)) as [K1|K1]; [split; [split|]; auto|].
  destruct (Z.eqb_spec (key i) 17); [assumption|].
  destruct (handle_key_cases i s) as [[E K]|[E|[h [Hk E]]]]; rewrite E.
  - unfold save. destruct (writable i); simpl; [|auto]. split.
    + apply adjust_scroll_invariant; [assumption | exact Hc | simpl; lia].
    + right. split; [exact K1|]. eexists. split; [reflexivity|].
      split; [exact Hc | reflexivity].
  - simpl. split.
    + apply adjust_scroll_invariant; [assumption | exact Hc | lia].
    + right. split; [exact K1|]. exists s. auto.
  - destruct (Hk s Hc) as [s' [E' [Hc' Ho']]]. rewrite E'. simpl. split.
    + apply adjust_scroll_invariant; [assumption | exact Hc' | lia].
    + right. split; [exact K1|]. exists s'. auto.
Qed.

Lemma initial_invariant (content : pystr) (d : option pystr) :
  invariant (initial (loadFromText content) d) /\
  clean (buffer (initial (loadFromText content) d)).
Proof.
  assert (Hc : clean (loadFromText content)).
  { unfold loadFromText. pose proof (splitlines_no_linebreak content) as H.
    destruct (splitlines content); [repeat constructor | exact H]. }
  split; [|exact Hc].
  unfold invariant, cursor_ok. simpl.
  destruct (loadFromText content) as [|line rest] eqn:E.
  - unfold loadFromText in E. destruct (splitlines content); discriminate.
  - pose proof (len_nonneg rest). pose proof (len_nonneg line).
    repeat split; try discriminate; try (rewrite len_cons; lia).
    exists line. split; [reflexivity | lia].
Qed.

Lemma open_session_ok (d : option pystr) :
  exists s, open_session d = Ok s /\ invariant s /\ clean (buffer s) /\
            save_status s = true /\ disk s = d /\
            load (read_disk d) = Ok (buffer s).
Proof.
  unfold open_session. destruct d as [raw|]; simpl.
  - eexists. split; [reflexivity|].
    destruct (initial_invariant (text_mode_read raw) (Some raw)) as [H1 H2].
    repeat split; try assumption; apply H1.
  - eexists. split; [reflexivity|].
    destruct (initial_invariant [] None) as [H1 H2].
    repeat split; try assumption; apply H1.
Qed.

(** *** The saved flag *)

(** When the flag is set, the file holds the buffer: it is the text the
    buffer was loaded from, or the text the buffer was last written as. *)
Definition flag_ok (s : state) : Prop :=
  save_status s = true ->
  load (read_disk (disk s)) = Ok (buffer s) \/
  disk s = Some (serialize (buffer s)).

Lemma iteration_flag i s s' :
  key i <> 7 -> flag_ok s -> iteration i s = Ok (Some s') -> flag_ok s'.
Proof.
  intros _ Hf H. unfold iteration in H.
  destruct (key i =? -1); [inversion H; subst; exact Hf|].
  destruct (key i =? 17); [discriminate|].
  destruct (handle_key i s) as [s1|] eqn:E; cbn [bind] in H; [|discriminate].
  inversion H; subst. unfold flag_ok. simpl.
  destruct (handle_key_handled i s s1 E) as [_ _ Es|_ [Eb [Ef Ed]]|_ [Ef _] _].
  - inversion Es; subst. simpl. right. reflexivity.
  - rewrite Eb, Ef, Ed. exact Hf.
  - rewrite Ef. discriminate.
Qed.

Lemma run_flag (inputs : list input) :
  Forall (fun i => key i <> 7) inputs ->
  forall s s', flag_ok s -> run inputs s = Ok s' -> flag_ok s'.
Proof.
  induction 1 as [|i inputs Hk _ IH]; intros s s' Hf H; simpl in H.
  - inversion H; subst. exact Hf.
  - destruct (iteration i s) as [[s1|]|e] eqn:E; cbn [bind] in H.
    + apply (IH s1 s'); [|exact H]. exact (iteration_flag i s s1 Hk Hf E).
    + inversion H; subst. exact Hf.
    + discriminate.
Qed.

(** X10: The status bar never hides unsaved work: in a session that stays in its
    buffer (no CTRL+G), whenever the flag is set the file on disk is the text
    the buffer was loaded from or was last written as. *)
Theorem saved_flag_sound (d : option pystr) (inputs : list input)
  (s0 s : state) :
  Forall (fun i => key i <> 7) inputs ->
  open_session d = Ok s0 -> run inputs s0 = Ok s -> save_status s = true ->
  load (read_disk (disk s)) = Ok (buffer s) \/
  disk s = Some (serialize (buffer s)).
Proof.
  intros Hk E0 Er. apply (run_flag inputs Hk s0 s); [|exact Er].
  destruct (open_session_ok d) as [s0' [E0' [_ [_ [_ [Ed El]]]]]].
  assert (s0' = s0) by congruence. subst s0'.
  intros _. left. rewrite Ed. exact El.
Qed.

Lemma saved_flag_sound_witness :
  let keys := [ {| key := 33; height := 24; writable := true |};
                {| key := 19; height := 24; writable := true |};
                {| key := KEY_LEFT; height := 24; writable := true |} ] in
  Forall (fun i => key i <> 7) keys /\
  exists s0 s,
    open_session (Some (str "note")) = Ok s0 /\ run keys s0 = Ok s /\
    save_status s = true /\
    (load (read_disk (disk s)) = Ok (buffer s) \/
     disk s = Some (serialize (buffer s))).
Proof.
  cbv zeta.
  assert (H : Forall (fun i => key i <> 7)
                [ {| key := 33; height := 24; writable := true |};
                  {| key := 19; height := 24; writable := true |};
                  {| key := KEY_LEFT; height := 24; writable := true |} ]).
  { repeat constructor; simpl; unfold KEY_LEFT; lia. }
  split; [exact H|].
  eexists. eexists. split; [reflexivity|]. split; [reflexivity|].
  split; [reflexivity|].
  exact (saved_flag_sound (Some (str "note")) _ _ _ H eq_refl eq_refl eq_refl).
Defined.

(** *** Typing and erasing *)

Lemma handle_key_printable i s :
  32 <= key i <= 126 -> handle_key i s = insertChar (key i) s.
Proof.
  intros H.
  unfold handle_key, KEY_BACKSPACE, KEY_LEFT, KEY_RIGHT, KEY_UP, KEY_DOWN.
  repeat match goal with
         | |- context [Z.eqb (key i) ?c] =>
             destruct (Z.eqb_spec (key i) c); [lia|]
         end.
  cbn [orb].
  destruct (Z.leb_spec 32 (key i)); [|lia].
  destruct (Z.leb_spec (key i) 126); [|lia]. reflexivity.
Qed.

Lemma slice_to_app_exact {A : Type} (a b : list A) :
  slice_to (a ++ b) (len a) = a.
Proof.
  unfold slice_to. rewrite clamp_index_inside.
  - unfold len. rewrite Nat2Z.id, firstn_app, Nat.sub_diag, firstn_all.
    simpl. apply app_nil_r.
  - rewrite len_app. pose proof (len_nonneg a). pose proof (len_nonneg b). lia.
Qed.

Lemma slice_from_app_exact {A : Type} (a b : list A) :
  slice_from (a ++ b) (len a) = b.
Proof.
  unfold slice_from. rewrite clamp_index_inside.
  - unfold len. rewrite Nat2Z.id, skipn_app, Nat.sub_diag, skipn_all.
    reflexivity.
  - rewrite len_app. pose proof (len_nonneg a). pose proof (len_nonneg b). lia.
Qed.

(** X11: A printable key followed by Backspace gives back the lines and the
    cursor. *)
Theorem insert_then_backspace_restores (s : state) (i1 i2 : input) :
  cursor_ok s ->
  32 <= key i1 <= 126 ->
  key i2 = KEY_BACKSPACE \/ key i2 = 127 \/ key i2 = 8 ->
  exists s1 s2,
    iteration i1 s = Ok (Some s1) /\
    iteration i2 s1 = Ok (Some s2) /\
    y s1 = y s /\ x s1 = x s + 1 /\
    buffer s2 = buffer s /\ y s2 = y s /\ x s2 = x s.
Proof.
  intros H K1 K2.
  destruct (cursor_ok_split s H) as [pre [line [post [Hb [Hy Hx]]]]].
  assert (N1 : key i1 <> -1 /\ key i1 <> 17) by lia.
  assert (N2 : key i2 <> -1 /\ key i2 <> 17)
    by (destruct K2 as [->|[->| ->]]; unfold KEY_BACKSPACE; lia).
  rewrite (iteration_handles i1 s (proj1 N1) (proj2 N1)).
  rewrite (handle_key_printable i1 s K1), (insertChar_at _ s _ _ _ Hb Hy).
  eexists. eexists. split; [reflexivity|].
  rewrite (iteration_handles i2 _ (proj1 N2) (proj2 N2)).
  rewrite (handle_key_backspace i2 _ K2).
  rewrite (backspace_inside _ pre
             (slice_to line (x s) ++ [Z.to_N (key i1)] ++ slice_from line (x s))
             post); try reflexivity; [|simpl; lia].
  simpl. replace (x s + 1 - 1) with (x s) by lia.
  assert (Ex : x s = len (slice_to line (x s)))
    by (rewrite len_slice_to; [reflexivity | lia]).
  assert (E1 : slice_to (slice_to line (x s) ++
                         Z.to_N (key i1) :: slice_from line (x s)) (x s)
               = slice_to line (x s)).
  { rewrite Ex at 3. apply slice_to_app_exact. }
  assert (E2 : slice_from (slice_to line (x s) ++
                           Z.to_N (key i1) :: slice_from line (x s)) (x s + 1)
               = slice_from line (x s)).
  { change (slice_to line (x s) ++ Z.to_N (key i1) :: slice_from line (x s))
      with (slice_to line (x s) ++ [Z.to_N (key i1)] ++ slice_from line (x s)).
    rewrite app_assoc.
    replace (x s + 1) with (len (slice_to line (x s) ++ [Z.to_N (key i1)])).
    - apply slice_from_app_exact.
    - rewrite len_app, <- Ex. reflexivity. }
  rewrite E1, E2, slice_to_from.
  repeat split; simpl; try lia. symmetry; assumption.
Qed.

Lemma insert_then_backspace_restores_witness :
  let s := {| buffer := [str "hello world"]; y := 0; x := 5; offset := 0;
              save_status := true; disk := None |} in
  let type := {| key := 33; height := 24; writable := true |} in
  let erase := {| key := 127; height := 24; writable := true |} in
  cursor_ok s /\
  exists s1 s2,
    iteration type s = Ok (Some s1) /\
    iteration erase s1 = Ok (Some s2) /\
    y s1 = y s /\ x s1 = x s + 1 /\
    buffer s2 = buffer s /\ y s2 = y s /\ x s2 = x s.
Proof.
  cbv zeta.
  assert (H : cursor_ok {| buffer := [str "hello world"]; y := 0; x := 5;
                           offset := 0; save_status := true; disk := None |}).
  { unfold cursor_ok. simpl. repeat split; try discriminate.
    exists (str "hello world"). repeat split; discriminate. }
  split; [exact H|].
  assert (K : 32 <= 33 <= 126) by lia.
  exact (insert_then_backspace_restores _
           {| key := 33; height := 24; writable := true |}
           {| key := 127; height := 24; writable := true |}
           H K (or_intror (or_introl eq_refl))).
Defined.

(** *** The window *)

(** X12: After a key, the cursor's row lies in the window, so the line under the
    cursor is among the lines the next pass renders. *)
Theorem cursor_line_visible (i : input) (s s' : state) :
  invariant s -> 2 <= height i -> key i <> -1 ->
  iteration i s = Ok (Some s') ->
  offset s' <= y s' <= offset s' + height i - 2 /\
  exists line,
    getitem (buffer s') (y s') = Ok line /\
    nth_error
      (Spans.slice (buffer s') (offset s') (offset s' + height i - 1))
      (Z.to_nat (y s' - offset s')) = Some line.
Proof.
  intros Hi Hh Hk E. pose proof (iteration_outcome i s Hi Hh) as Ho.
  rewrite E in Ho. destruct Ho as [Hi' [[K _]|[_ [s1 [_ [_ Es]]]]]]; [lia|].
  assert (Hw : offset s' <= y s' <= offset s' + height i - 2).
  { subst s'. unfold adjust_scroll. simpl.
    destruct (Z.ltb_spec (y s1) (offset s1)); [lia|].
    destruct (Z.geb_spec (y s1) (offset s1 + (height i - 2))); lia. }
  split; [exact Hw|].
  destruct Hi' as [[_ [Hy [line [Hg _]]]] Hoff].
  exists line. split; [exact Hg|].
  apply slice_nth_intro; try lia.
  replace (Z.to_nat (offset s') + Z.to_nat (y s' - offset s'))%nat
    with (Z.to_nat (y s')) by lia.
  apply nth_getitem; [lia | exact Hg].
Qed.

Lemma cursor_line_visible_witness :
  let s := initial [str "one"; str "two"; str "three"] None in
  let i := {| key := KEY_DOWN; height := 3; writable := true |} in
  invariant s /\ 2 <= height i /\ key i <> -1 /\
  exists s', iteration i s = Ok (Some s') /\
    offset s' <= y s' <= offset s' + height i - 2.
Proof.
  cbv zeta.
  assert (H : invariant (initial [str "one"; str "two"; str "three"] None)).
  { unfold invariant, cursor_ok. simpl. repeat split; try discriminate.
    exists (str "one"). repeat split; discriminate. }
  assert (Hh : 2 <= height {| key := KEY_DOWN; height := 3; writable := true |})
    by (simpl; lia).
  assert (Hk : key {| key := KEY_DOWN; height := 3; writable := true |} <> -1)
    by (simpl; unfold KEY_DOWN; lia).
  repeat (split; [assumption|]).
  eexists. split; [reflexivity|].
  exact (proj1 (cursor_line_visible _ _ _ H Hh Hk eq_refl)).
Defined.

End SessionFacts.

(** ** The session as a whole *)

Section WholeSession.

Import Editor EditorLinks Session.
Local Open Scope Z_scope.

(** One iteration on any terminal, from a state whose cursor is inside the
    buffer: the handlers keep it there and bring no line boundary into the
    buffer; with two rows or more the offset stays between 0 and the cursor
    row. *)
Lemma iteration_step i s :
  cursor_ok s ->
  match iteration i s with
  | Ok (Some s') =>
      cursor_ok s' /\
      (clean (buffer s) -> clean (buffer s')) /\
      (0 <= offset s <= y s -> 2 <= height i -> 0 <= offset s' <= y s')
  | Ok None => key i = 17
  | Raise _ => key i = 19 /\ writable i = false
  end.
Proof.
  intros Hc.
  assert (Hscroll : forall s1,
             iteration i s = Ok (Some s1) ->
             0 <= offset s <= y s -> 2 <= height i -> 0 <= offset s1 <= y s1).
  { intros s1 E Ho Hh.
    pose proof (iteration_outcome i s (conj Hc Ho) Hh) as H.
    rewrite E in H. apply H. }
  revert Hscroll. unfold iteration.
  destruct (Z.eqb_spec (key i) (-1)) as [K1|K1]; [intros H; auto|].
  destruct (Z.eqb_spec (key i) 17); [intros _; assumption|].
  destruct (handle_key i s) as [s1|e] eqn:E; cbn [bind]; intros Hscroll.
  - split; [|split; [|apply Hscroll; reflexivity]].
    + assert (H1 : cursor_ok s1).
      { destruct (handle_key_cases i s) as [[E' K]|[E'|[h [Hk E']]]];
          rewrite E' in E.
        - unfold save in E. destruct (writable i); [|discriminate].
          inversion E; subst. exact Hc.
        - inversion E; subst. exact Hc.
        - destruct (Hk s Hc) as [s2 [E2 [Hc2 _]]]. congruence. }
      exact H1.
    + intros Hcl. simpl.
      destruct (handle_key_handled i s s1 E) as [_ _ Es|_ [Eb _]|_ _ Hk].
      * inversion Es; subst. exact Hcl.
      * rewrite Eb. exact Hcl.
      * apply Hk. exact Hcl.
  - destruct (handle_key_cases i s) as [[E' K]|[E'|[h [Hk E']]]];
      rewrite E' in E.
    + unfold save in E. destruct (writable i); [discriminate | auto].
    + discriminate.
    + destruct (Hk s Hc) as [s2 [E2 _]]. congruence.
Qed.

(** An exception that leaves a pass comes from one of its curses calls, from
    what CTRL+G starts, or from the write of CTRL+S. *)
Definition raised_in_pass (p : pass_input) (e : exn) : Prop :=
  screen p = Raise e \/
  (key (read p) = 7 /\ exists target, nested p target = Raise e) \/
  (key (read p) = 19 /\ writable (read p) = false).

(** An exception that leaves the session comes from outside the code that
    works on the buffer. *)
Definition raised_outside (o : opening) (passes : list pass_input) (e : exn)
  : Prop :=
  curses_setup o = Raise e \/
  (file_read o = Raise e /\ e <> FileNotFoundError) \/
  LinkUtils.build_note_graph (vault_fs o) (vault_walk o) = Raise e \/
  curses_timeout o = Raise e \/
  exists p, In p passes /\ raised_in_pass p e.

Definition roomy_pass (p : pass_input) : Prop := 2 <= height (read p).

Lemma pass_step p paths vault_root s :
  cursor_ok s ->
  match pass p paths vault_root s with
  | Ok (Some s') =>
      cursor_ok s' /\
      (clean (buffer s) -> clean (buffer s')) /\
      (0 <= offset s <= y s -> roomy_pass p -> 0 <= offset s' <= y s')
  | Ok None => key (read p) = 17
  | Raise e => raised_in_pass p e
  end.
Proof.
  intros Hc. unfold pass, raised_in_pass.
  destruct (screen p) as [[]|e]; cbn [bind]; [|left; reflexivity].
  destruct (follow_link p paths vault_root s) as [[]|e] eqn:Ef; cbn [bind].
  - pose proof (iteration_step (read p) s Hc) as H.
    destruct (iteration (read p) s) as [[s'|]|e]; auto.
  - right. left. unfold follow_link in Ef.
    destruct (Z.eqb_spec (key (read p)) 7) as [K|K]; [|discriminate].
    split; [exact K|].
    destruct (current_link s (height (read p))) as [l|]; [|discriminate].
    eexists. exact Ef.
Qed.

Lemma run_outcome (passes : list pass_input) paths vault_root :
  forall s, cursor_ok s -> clean (buffer s) ->
  match run passes paths vault_root s with
  | Ok s' =>
      cursor_ok s' /\ clean (buffer s') /\
      (0 <= offset s <= y s -> Forall roomy_pass passes ->
       0 <= offset s' <= y s')
  | Raise e => exists p, In p passes /\ raised_in_pass p e
  end.
Proof.
  induction passes as [|p passes IH]; intros s Hc Hcl; cbn [run].
  - auto.
  - pose proof (pass_step p paths vault_root s Hc) as Hp.
    destruct (pass p paths vault_root s) as [[s1|]|e]; cbn [bind].
    + destruct Hp as [Hc1 [Hcl1 Ho1]].
      specialize (IH s1 Hc1 (Hcl1 Hcl)).
      destruct (run passes paths vault_root s1) as [s'|e].
      * destruct IH as [Hc' [Hcl' Ho']].
        split; [exact Hc'|]. split; [exact Hcl'|].
        intros Ho Hr. inversion Hr; subst. auto.
      * destruct IH as [q [Hin Hq]]. exists q. split; [right|]; assumption.
    + auto.
    + exists p. split; [left; reflexivity | exact Hp].
Qed.

(** X9: The code that works on the buffer raises nothing of its own: an
    exception that leaves [editing_screen] was raised by a curses call
    (setting up, drawing a pass), by the read of the file (anything but a
    missing file), by the vault scan, by what CTRL+G starts on a link
    (creating the note, the nested session), or by the write of CTRL+S;
    in particular no key, on a terminal of any height, makes a handler
    raise [IndexError].  A session that returns leaves the cursor inside
    the buffer and no line boundary in any line, and on terminals of two
    rows or more the offset between 0 and the cursor row. *)
Theorem session_raises_only_from_outside (o : opening) (vault_root : pystr)
  (passes : list pass_input) :
  match editing_screen o vault_root passes with
  | Ok s =>
      cursor_ok s /\ clean (buffer s) /\
      (Forall roomy_pass passes -> 0 <= offset s <= y s)
  | Raise e => raised_outside o passes e
  end.
Proof.
  unfold editing_screen, open, raised_outside.
  destruct (curses_setup o) as [[]|e]; cbn [bind]; [|auto].
  destruct (file_read o) as [raw|e] eqn:Ef; cbn [read_text load].
  - cbn [bind].
    destruct (LinkUtils.build_note_graph (vault_fs o) (vault_walk o)) as [[graph paths]|e];
      cbn [bind]; [|auto].
    destruct (curses_timeout o) as [[]|e]; cbn [bind]; [|auto 6].
    destruct (initial_invariant (text_mode_read raw) (Some raw))
      as [[Hc Ho] Hcl].
    pose proof (run_outcome passes paths vault_root _ Hc Hcl) as H.
    cbn [on_disk].
    destruct (run passes paths vault_root _) as [s|e].
    + destruct H as [Hc' [Hcl' Ho']]. auto.
    + auto 6.
  - assert (Hstart : cursor_ok (initial [[]] None) /\
                     clean (buffer (initial [[]] None)) /\
                     0 <= offset (initial [[]] None) <= y (initial [[]] None)).
    { destruct (initial_invariant [] None) as [[Hc Ho] Hcl]. auto. }
    destruct Hstart as [Hc [Hcl Ho]].
    destruct e; cbn [bind];
      try (right; left; split; [reflexivity | discriminate]).
    destruct (LinkUtils.build_note_graph (vault_fs o) (vault_walk o)) as [[graph paths]|e];
      cbn [bind]; [|auto].
    destruct (curses_timeout o) as [[]|e]; cbn [bind]; [|auto 6].
    pose proof (run_outcome passes paths vault_root _ Hc Hcl) as H.
    cbn [on_disk].
    destruct (run passes paths vault_root _) as [s|e].
    + destruct H as [Hc' [Hcl' Ho']]. auto.
    + auto 6.
Qed.

End WholeSession.

(** ** The vault scan, file by file *)

Section ScanFacts.

Import LinkUtils EditorLinks.
Local Open Scope Z_scope.

Lemma for_each_app {A S : Type} (body : S -> A -> result S) (l1 l2 : list A)
  (s : S) :
  for_each (l1 ++ l2) body s = bind (for_each l1 body s) (for_each l2 body).
Proof.
  revert s. induction l1 as [|a l1 IH]; intros s; simpl; [reflexivity|].
  destruct (body s a); simpl; [apply IH | reflexivity].
Qed.

Lemma for_each_map {A B S : Type} (f : A -> B) (body : S -> B -> result S)
  (l : list A) (s : S) :
  for_each (map f l) body s = for_each l (fun s a => body s (f a)) s.
Proof.
  revert s. induction l as [|a l IH]; intros s; simpl; [reflexivity|].
  destruct (body s (f a)); simpl; [apply IH | reflexivity].
Qed.

(** The files in the order the two loops visit them, each with the directory
    it was listed in. *)
Definition scan_order (walk : list walk_entry) : list (pystr * pystr) :=
  flat_map (fun entry : walk_entry =>
              let '(dirpath, _, files) := entry in map (pair dirpath) files)
    walk.

(** Those of them the scan takes for notes. *)
Definition note_files (walk : list walk_entry) : list (pystr * pystr) :=
  filter (fun df => endswith (snd df) md_suffix) (scan_order walk).

Definition name_of_file (df : pystr * pystr) : pystr := slice_to (snd df) (-3).

Definition note_path (df : pystr * pystr) : pystr :=
  path_join (fst df) (snd df).

(** The last note file of the scan that bears [name]. *)
Definition last_file_named (walk : list walk_entry) (name : pystr)
  : option (pystr * pystr) :=
  find (fun df => pystr_eqb (name_of_file df) name) (rev (note_files walk)).

Definition scan_pair (fs : filesystem) (st : dict (list pystr) * dict pystr)
  (df : pystr * pystr) : result (dict (list pystr) * dict pystr) :=
  scan_file fs (fst df) st (snd df).

Lemma build_note_graph_flat (fs : filesystem) (walk : list walk_entry)
  (st : dict (list pystr) * dict pystr) :
  for_each walk
    (fun st entry =>
       let '(dirpath, _, files) := entry in
       for_each files (scan_file fs dirpath) st) st
  = for_each (scan_order walk) (scan_pair fs) st.
Proof.
  revert st. induction walk as [|[[dirpath dirs] files] walk IH]; intros st;
    [reflexivity|].
  simpl. rewrite for_each_app, for_each_map.
  change (fun s a => scan_pair fs s (dirpath, a)) with (scan_file fs dirpath).
  destruct (for_each files (scan_file fs dirpath) st); simpl;
    [apply IH | reflexivity].
Qed.

Lemma find_snoc {A : Type} (p : A -> bool) (l : list A) (a : A) :
  find p (l ++ [a]) =
  match find p l with
  | Some b => Some b
  | None => if p a then Some a else None
  end.
Proof.
  induction l as [|b l IH]; simpl; [reflexivity|].
  destruct (p b); [reflexivity | exact IH].
Qed.

Lemma pystr_eqb_eq (a b : pystr) : pystr_eqb a b = true <-> a = b.
Proof.
  unfold pystr_eqb. destruct (pystr_eq_dec a b); split; congruence.
Qed.

(** The path recorded for a name after scanning [items] from [st0] on. *)
Lemma scan_paths (fs : filesystem) (items : list (pystr * pystr)) :
  forall st0 st, for_each items (scan_pair fs) st0 = Ok st ->
  forall name,
    dict_get (snd st) name =
    match find (fun df => pystr_eqb (name_of_file df) name)
            (rev (filter (fun df => endswith (snd df) md_suffix) items)) with
    | Some df => Some (note_path df)
    | None => dict_get (snd st0) name
    end.
Proof.
  induction items as [|[d f] items IH]; intros st0 st H name; simpl in H.
  - inversion H; subst. reflexivity.
  - destruct (scan_pair fs st0 (d, f)) as [st1|e] eqn:E; cbn [bind] in H;
      [|discriminate].
    rewrite (IH st1 st H name). cbn [filter snd].
    unfold scan_pair, scan_file in E. cbn [fst snd] in E.
    destruct st0 as [g0 p0].
    destruct (endswith f md_suffix).
    + cbn [rev]. rewrite find_snoc.
      destruct (find _ (rev (filter _ items))); [reflexivity|].
      destruct (extract_links_from_file fs (path_join d f)); cbn [bind] in E;
        [|discriminate].
      inversion E; subst. cbn [snd]. rewrite dict_get_set.
      unfold name_of_file. cbn [snd]. unfold pystr_eqb.
      destruct (pystr_eq_dec name (slice_to f (-3))) as [->|Hn].
      * destruct (pystr_eq_dec (slice_to f (-3)) (slice_to f (-3)));
          [reflexivity | congruence].
      * destruct (pystr_eq_dec (slice_to f (-3)) name); [congruence | reflexivity].
    + inversion E; subst. reflexivity.
Qed.

(** X13: What the scan records, exactly: a name is a key when some note file
    bears it, its path is that of the last such file in scan order (a later
    file of the same name in another folder replaces an earlier one), and its
    links are those of that file, none when the file had vanished. *)
Theorem build_note_graph_last_wins (fs : filesystem) (walk : list walk_entry)
  (graph : dict (list pystr)) (paths : dict pystr) (name : pystr) :
  build_note_graph fs walk = Ok (graph, paths) ->
  dict_get paths name = option_map note_path (last_file_named walk name) /\
  dict_get graph name =
    option_map (fun df => match fs (note_path df) with
                          | Ok text => findall text
                          | Raise _ => []
                          end)
      (last_file_named walk name).
Proof.
  intros H.
  assert (Hp : dict_get paths name =
               option_map note_path (last_file_named walk name)).
  { unfold build_note_graph in H. rewrite build_note_graph_flat in H.
    pose proof (scan_paths fs _ _ _ H name) as E. cbn [snd] in E.
    rewrite E. unfold last_file_named, note_files.
    destruct (find _ _); reflexivity. }
  split; [exact Hp|].
  destruct (build_note_graph_consistent fs walk _ H) as [Hk Hl].
  cbn [fst snd] in Hk, Hl.
  destruct (last_file_named walk name) as [df|]; cbn [option_map] in *.
  - destruct (Hl name _ Hp) as [links [Hx Hg]]. rewrite Hg.
    unfold extract_links_from_file in Hx.
    destruct (fs (note_path df)) as [text|e]; [congruence|].
    destruct e; congruence.
  - destruct (dict_get graph name) as [links|] eqn:Eg; [|reflexivity].
    assert (Hm : dict_mem paths name = true).
    { apply dict_mem_in_keys. rewrite <- Hk. apply dict_mem_in_keys.
      unfold dict_mem. rewrite Eg. reflexivity. }
    unfold dict_mem in Hm. rewrite Hp in Hm. discriminate.
Qed.

Lemma build_note_graph_last_wins_witness :
  let walk := [ (str "v", [str "sub"], [str "A.md"]);
                (str "v/sub", [], [str "A.md"; str "notes.txt"]) ] in
  let fs : filesystem := fun path =>
    if pystr_eqb path (str "v/A.md") then Ok (str "old [[B]]")
    else Ok (str "new [[C]]") in
  let graph := [(str "A", [str "C"])] in
  let paths := [(str "A", str "v/sub/A.md")] in
  build_note_graph fs walk = Ok (graph, paths) /\
  dict_get paths (str "A") = Some (str "v/sub/A.md") /\
  dict_get graph (str "A") = Some [str "C"].
Proof.
  intros walk fs graph paths.
  assert (H : build_note_graph fs walk = Ok (graph, paths)) by reflexivity.
  split; [exact H|].
  exact (build_note_graph_last_wins fs walk graph paths (str "A") H).
Defined.

End ScanFacts.

(** ** Incoming links, exactly *)

Section IncomingExact.

Import LinkUtils.

Implicit Types (graph incoming : dict (list pystr)) (src tgt : pystr).

(** How often [src] links to [tgt], as a run of [src]. *)
Definition links_from (tgt : pystr) (item : pystr * list pystr) : list pystr :=
  repeat (fst item) (count_occ pystr_eq_dec (snd item) tgt).

Lemma add_incoming_get src incoming tgt t :
  dict_get (add_incoming src incoming tgt) t =
  match dict_get incoming t with
  | Some sources => Some (if pystr_eq_dec tgt t then sources ++ [src] else sources)
  | None => None
  end.
Proof.
  unfold add_incoming.
  destruct (dict_get incoming tgt) as [sources|] eqn:E.
  - rewrite dict_get_set. destruct (pystr_eq_dec t tgt) as [->|Hn].
    + rewrite E. destruct (pystr_eq_dec tgt tgt); [reflexivity | congruence].
    + destruct (dict_get incoming t); [|reflexivity].
      destruct (pystr_eq_dec tgt t); [congruence | reflexivity].
  - destruct (dict_get incoming t) eqn:Et; [|reflexivity].
    destruct (pystr_eq_dec tgt t); [congruence | reflexivity].
Qed.

Lemma fold_add_incoming_get src (targets : list pystr) :
  forall incoming t sources,
    dict_get incoming t = Some sources ->
    dict_get (fold_left (add_incoming src) targets incoming) t =
    Some (sources ++ repeat src (count_occ pystr_eq_dec targets t)).
Proof.
  induction targets as [|tgt targets IH]; intros incoming t sources H; simpl.
  - rewrite app_nil_r. exact H.
  - rewrite (IH _ t (if pystr_eq_dec tgt t then sources ++ [src] else sources)).
    + destruct (pystr_eq_dec tgt t); [|reflexivity].
      rewrite <- app_assoc. reflexivity.
    + rewrite add_incoming_get, H. reflexivity.
Qed.

Lemma fold_items_get (items : list (pystr * list pystr)) :
  forall incoming t sources,
    dict_get incoming t = Some sources ->
    dict_get
      (fold_left
         (fun incoming item =>
            fold_left (add_incoming (fst item)) (snd item) incoming)
         items incoming) t =
    Some (sources ++ flat_map (links_from t) items).
Proof.
  induction items as [|item items IH]; intros incoming t sources H; simpl.
  - rewrite app_nil_r. exact H.
  - rewrite (IH _ t (sources ++ links_from t item)).
    + rewrite <- app_assoc. reflexivity.
    + apply fold_add_incoming_get. exact H.
Qed.

(** X14: The incoming list of a note, exactly: the sources in the order of the
    graph, each as many times as it links to the note.  No name appears that
    does not link to it, and a note linked twice from one file is listed
    twice. *)
Theorem build_incoming_links_exact graph tgt :
  dict_mem graph tgt = true ->
  dict_get (build_incoming_links graph) tgt =
  Some (flat_map (links_from tgt) graph).
Proof.
  intros H. unfold build_incoming_links.
  rewrite (fold_items_get graph (empty_incoming graph) tgt []); [reflexivity|].
  unfold empty_incoming. rewrite fold_dict_set_const_get.
  apply dict_mem_in_keys, existsb_pystr_eqb in H. rewrite H. reflexivity.
Qed.

Lemma build_incoming_links_exact_witness :
  let graph := [ (str "A", [str "B"; str "C"; str "B"]);
                 (str "B", [str "B"]);
                 (str "C", []) ] in
  dict_mem graph (str "B") = true /\
  dict_get (build_incoming_links graph) (str "B") =
  Some [str "A"; str "A"; str "B"].
Proof.
  cbv zeta. split; [reflexivity|].
  exact (build_incoming_links_exact
           [ (str "A", [str "B"; str "C"; str "B"]);
             (str "B", [str "B"]);
             (str "C", []) ] (str "B") eq_refl).
Defined.

End IncomingExact.

(** ** CTRL+G on a link *)

Section JumpFacts.

Import LinkUtils EditorLinks.
Local Open Scope Z_scope.








(** X16: File names hold no ['/'], so no note is ever recorded under a name with
    one: a link whose name contains ['/'] is never found in [paths], and
    CTRL+G on it takes the creating branch every time, which opens the target
    for writing and writes the empty text. *)
Theorem slashed_link_never_resolved (fs : filesystem) (walk : list walk_entry)
  (graph : dict (list pystr)) (paths : dict pystr)
  (vault_root note_name : pystr) :
  (forall dirpath dirs files file,
     In (dirpath, dirs, files) walk -> In file files -> ~ In SLASH file) ->
  build_note_graph fs walk = Ok (graph, paths) ->
  In SLASH note_name ->
  jump_target paths vault_root note_name
  = (path_join vault_root (note_name ++ extension), true).
Proof.
  intros Hw H Hs. unfold jump_target.
  destruct (dict_get paths note_name) as [path|] eqn:E; [|reflexivity].
  exfalso. unfold build_note_graph in H. rewrite build_note_graph_flat in H.
  pose proof (scan_paths fs _ _ _ H note_name) as Hp. cbn [snd] in Hp.
  rewrite E in Hp.
  destruct (find _ _) as [[d f]|] eqn:Ef; [|discriminate].
  apply find_some in Ef. destruct Ef as [Hin Hn].
  apply pystr_eqb_eq in Hn. unfold name_of_file in Hn. cbn [snd] in Hn.
  apply in_rev, filter_In in Hin. destruct Hin as [Hin _].
  unfold scan_order in Hin. apply in_flat_map in Hin.
  destruct Hin as [[[dirpath dirs] files] [Hentry Hfile]].
  apply in_map_iff in Hfile. destruct Hfile as [file [Epair Hfile]].
  inversion Epair; subst.
  apply (Hw _ _ _ _ Hentry Hfile).
  unfold slice_to in Hs.
  rewrite <- (firstn_skipn (clamp_index f (-3)) f).
  apply in_or_app. left. exact Hs.
Qed.

Lemma slashed_link_never_resolved_witness :
  (forall dirpath dirs files file,
     In (dirpath, dirs, files) Vault.walk -> In file files ->
     ~ In SLASH file) /\
  jump_target [(str "A", str "v/A.md"); (str "B", str "v/B.md")]
    (str "v") (str "sub/A")
  = (str "v/sub/A.md", true).
Proof.
  assert (H : forall dirpath dirs files file,
             In (dirpath, dirs, files) Vault.walk -> In file files ->
             ~ In SLASH file).
  { intros dirpath dirs files file [E|[]] Hf. inversion E; subst.
    simpl in Hf. destruct Hf as [<-|[<-|[<-|[]]]]; intros Hin; simpl in Hin;
      repeat (destruct Hin as [Hin|Hin]; [discriminate|]); exact Hin. }
  split; [exact H|].
  assert (Hs : In SLASH (str "sub/A")) by (simpl; unfold SLASH; auto 6).
  exact (slashed_link_never_resolved Vault.fs Vault.walk Vault.graph
           [(str "A", str "v/A.md"); (str "B", str "v/B.md")]
           (str "v") (str "sub/A") H eq_refl Hs).
Defined.

End JumpFacts.

(** ** The graph view: degrees and symbols *)

Section DegreeFacts.

Import LinkUtils Float Graph GraphView.
Local Open Scope Z_scope.

Variables graph incoming : dict (list pystr).

Lemma degrees_loop (keys : list pystr) :
  forall acc ds,
    for_each keys (degree_of graph incoming) acc = Ok ds ->
    forall note,
      (In note keys ->
       exists out inc,
         dict_get graph note = Some out /\ dict_get incoming note = Some inc /\
         dict_get ds note = Some (len out + len inc)) /\
      (~ In note keys -> dict_get ds note = dict_get acc note).
Proof.
  induction keys as [|key keys IH]; intros acc ds H note; simpl in H.
  - inversion H; subst. split; [intros [] | reflexivity].
  - destruct (degree_of graph incoming acc key) as [acc1|e] eqn:E;
      cbn [bind] in H; [|discriminate].
    destruct (IH acc1 ds H note) as [IH1 IH2].
    unfold degree_of, lookup in E.
    destruct (dict_get graph key) as [out|] eqn:Eo; cbn [bind] in E;
      [|discriminate].
    destruct (dict_get incoming key) as [inc|] eqn:Ei; cbn [bind] in E;
      [|discriminate].
    inversion E; subst acc1; clear E.
    destruct (in_dec pystr_eq_dec note keys) as [Hin|Hout].
    + split; [intros _; apply IH1; exact Hin|].
      intros Hn. exfalso. apply Hn. right. exact Hin.
    + rewrite (IH2 Hout), dict_get_set. split.
      * intros [<-|Hin]; [|contradiction].
        destruct (pystr_eq_dec key key); [|congruence].
        exists out, inc. auto.
      * intros Hn. destruct (pystr_eq_dec note key) as [->|_]; [|reflexivity].
        exfalso. apply Hn. left. reflexivity.
Qed.

Lemma degrees_total (keys : list pystr) :
  (forall note, In note keys ->
     dict_mem graph note = true /\ dict_mem incoming note = true) ->
  forall acc, exists ds, for_each keys (degree_of graph incoming) acc = Ok ds.
Proof.
  induction keys as [|key keys IH]; intros Hk acc; cbn [for_each]; [eauto|].
  destruct (Hk key (or_introl eq_refl)) as [Hg Hi].
  unfold dict_mem in Hg, Hi. unfold degree_of, lookup.
  destruct (dict_get graph key); [|discriminate].
  destruct (dict_get incoming key); [|discriminate].
  cbn [bind]. apply IH. intros note Hin. apply Hk. right. exact Hin.
Qed.

End DegreeFacts.

Section DegreeProperties.

Import LinkUtils Float Graph GraphView.
Local Open Scope Z_scope.

(** The number of links to [note] in the whole graph, counted with
    repetitions. *)
Definition links_to (graph : dict (list pystr)) (note : pystr) : nat :=
  list_sum (map (fun item => count_occ pystr_eq_dec (snd item) note) graph).

Lemma length_links_from (graph : dict (list pystr)) (note : pystr) :
  length (flat_map (links_from note) graph) = links_to graph note.
Proof.
  unfold links_to. induction graph as [|item graph IH]; simpl; [reflexivity|].
  rewrite length_app, IH. unfold links_from. rewrite repeat_length.
  reflexivity.
Qed.

(** X17: With the incoming map built from the graph, computing the degrees raises
    no [KeyError], and the degree of a note is the number of links it holds
    plus the number of links to it in the whole vault, repetitions
    counted. *)
Theorem degrees_count_links (graph : dict (list pystr)) :
  exists ds,
    degrees graph (build_incoming_links graph) = Ok ds /\
    (forall note out,
       dict_get graph note = Some out ->
       dict_get ds note = Some (len out + Z.of_nat (links_to graph note))) /\
    (forall note, dict_mem ds note = dict_mem graph note).
Proof.
  assert (Hm : forall name,
             dict_mem (build_incoming_links graph) name = dict_mem graph name).
  { intros name. unfold build_incoming_links.
    change (fun incoming item =>
              fold_left (add_incoming (fst item)) (snd item) incoming)
      with add_all_incoming.
    rewrite fold_items_mem. apply empty_incoming_mem. }
  destruct (degrees_total graph (build_incoming_links graph) (dict_keys graph))
    with (acc := @nil (pystr * Z)) as [ds E].
  { intros note Hin. apply dict_mem_in_keys in Hin. rewrite Hm. auto. }
  exists ds. split; [exact E|].
  pose proof (degrees_loop graph (build_incoming_links graph) _ _ _ E) as Hl.
  split.
  - intros note out Ho.
    assert (Hin : In note (dict_keys graph)).
    { apply dict_mem_in_keys. unfold dict_mem. rewrite Ho. reflexivity. }
    destruct (proj1 (Hl note) Hin) as [out' [inc [Eo [Ei Ed]]]].
    assert (out' = out) by congruence. subst out'.
    assert (Ee : dict_get (empty_incoming graph) note = Some []).
    { unfold empty_incoming. rewrite fold_dict_set_const_get.
      apply existsb_pystr_eqb in Hin. rewrite Hin. reflexivity. }
    pose proof (fold_items_get graph (empty_incoming graph) note [] Ee) as Ex.
    change (dict_get (build_incoming_links graph) note
            = Some ([] ++ flat_map (links_from note) graph)) in Ex.
    rewrite Ex in Ei. inversion Ei; subst inc. rewrite Ed. unfold len at 2.
    simpl app. rewrite length_links_from. reflexivity.
  - intros note. destruct (in_dec pystr_eq_dec note (dict_keys graph)) as [Hin|Hout].
    + destruct (proj1 (Hl note) Hin) as [out [inc [Eo [Ei Ed]]]].
      unfold dict_mem. rewrite Ed, Eo. reflexivity.
    + unfold dict_mem at 1. rewrite (proj2 (Hl note) Hout). simpl.
      destruct (dict_mem graph note) eqn:Eg; [|reflexivity].
      apply dict_mem_in_keys in Eg. contradiction.
Qed.

End DegreeProperties.

Section SymbolFacts.

Import LinkUtils Float Graph GraphView.
Local Open Scope Z_scope.

(** A positive integer divided by itself is exactly [1.0]. *)
Lemma int_truediv_self (d : Z) : 0 < d -> int_truediv d d = Ok lit_1_0.
Proof.
  intros H. destruct d as [|p|p]; try lia.
  unfold int_truediv. cbn [Z.abs Z.to_pos Z.ltb Z.compare SFdiv xorb].
  unfold SFdiv_core_binary.
  replace (Zdigits2 (Z.pos p) + 0 - (Zdigits2 (Z.pos p) + 0)) with 0 by lia.
  change (Z.min (fexp prec emax 0) (0 - 0)) with (-53).
  change (0 - 0 - -53) with 53. cbv iota.
  change IntDef.Z.div_eucl with Z.div_eucl. change IntDef.Z.shiftl with Z.shiftl.
  assert (E : Z.div_eucl (Z.shiftl (Z.pos p) 53) (Z.pos p) = (2 ^ 53, 0)).
  { rewrite Z.shiftl_mul_pow2 by lia.
    pose proof (Z.div_mul (2 ^ 53) (Z.pos p) ltac:(lia)) as Hq.
    pose proof (Z.mod_mul (2 ^ 53) (Z.pos p) ltac:(lia)) as Hr.
    rewrite (Z.mul_comm (Z.pos p)).
    unfold Z.div, Z.modulo in Hq, Hr.
    destruct (Z.div_eucl (2 ^ 53 * Z.pos p) (Z.pos p)) as [q r].
    congruence. }
  rewrite E.
  unfold new_location. destruct (Z.even (Z.pos p)); reflexivity.
Qed.

Lemma fold_max_ge (l : list Z) :
  forall d0 x, x = d0 \/ In x l -> x <= fold_left Z.max l d0.
Proof.
  induction l as [|d l IH]; intros d0 x H; simpl.
  - destruct H as [->|[]]. lia.
  - destruct H as [E|[E|H]].
    + transitivity (Z.max d0 d); [lia | apply IH; auto].
    + transitivity (Z.max d0 d); [lia | apply IH; auto].
    + apply IH. auto.
Qed.

Lemma max_deg_ge (ds : dict Z) (note : pystr) (deg : Z) :
  dict_get ds note = Some deg -> deg <= max_deg ds.
Proof.
  intros H. apply dict_get_in in H.
  apply (in_map snd) in H. simpl in H. unfold max_deg.
  destruct (map snd ds) as [|d rest]; [destruct H|].
  apply fold_max_ge. destruct H; auto.
Qed.

(** X18: The symbols of the graph view: with fewer than [2^62] links around any
    note, drawing a node raises nothing; a note without links is drawn as
    the middle dot, a note of the greatest degree as the fisheye. *)
Theorem node_symbols (graph incoming : dict (list pystr)) (ds : dict Z)
  (note : pystr) (deg : Z) :
  degrees graph incoming = Ok ds ->
  dict_get ds note = Some deg ->
  max_deg ds < 2 ^ 62 ->
  exists sym,
    node_symbol ds (max_deg ds) note = Ok sym /\
    (deg = 0 -> sym = MIDDLE_DOT) /\
    (0 < deg -> deg = max_deg ds -> sym = FISHEYE).
Proof.
  intros Hd Hg Hb.
  assert (Hpos : 0 <= deg).
  { pose proof (degrees_loop graph incoming _ _ _ Hd note) as [H1 H2].
    destruct (in_dec pystr_eq_dec note (dict_keys graph)) as [Hin|Hout].
    - destruct (H1 Hin) as [out [inc [_ [_ E]]]].
      assert (deg = len out + len inc) by congruence.
      pose proof (len_nonneg out). pose proof (len_nonneg inc). lia.
    - rewrite (H2 Hout) in Hg. discriminate. }
  pose proof (max_deg_ge ds note deg Hg) as Hle.
  unfold node_symbol, lookup. rewrite Hg. cbn [bind]. unfold importance.
  destruct (Z.ltb_spec 0 (max_deg ds)) as [Hm|Hm].
  - destruct (Z.eq_dec deg 0) as [->|Hnz].
    + destruct (max_deg ds) eqn:Em; try lia.
      eexists. split; [reflexivity|]. split; [reflexivity | lia].
    + destruct (Z.eq_dec deg (max_deg ds)) as [Heq|Hne].
      * rewrite <- Heq, int_truediv_self by lia.
        eexists. split; [reflexivity|]. split; [lia | reflexivity].
      * destruct (int_truediv_pos deg (max_deg ds)) as [m [e [E _]]];
          [lia | lia |].
        rewrite E. eexists. split; [reflexivity|]. split; lia.
  - eexists. split; [reflexivity|]. split; [reflexivity | lia].
Qed.

Lemma node_symbols_witness :
  let ds := [(str "A", 1); (str "B", 1)] in
  degrees Vault.graph (build_incoming_links Vault.graph) = Ok ds /\
  dict_get ds (str "A") = Some 1 /\ max_deg ds < 2 ^ 62 /\
  node_symbol ds (max_deg ds) (str "A") = Ok FISHEYE.
Proof.
  intros ds.
  assert (H1 : degrees Vault.graph (build_incoming_links Vault.graph) = Ok ds)
    by reflexivity.
  assert (H2 : dict_get ds (str "A") = Some 1) by reflexivity.
  assert (H3 : max_deg ds < 2 ^ 62) by reflexivity.
  repeat (split; [assumption|]).
  destruct (node_symbols _ _ ds (str "A") 1 H1 H2 H3) as [sym [E [_ Hs]]].
  rewrite E. f_equal. apply Hs; [lia | reflexivity].
Defined.

End SymbolFacts.

(** ** The graph view: the cursor and the note under it *)

Section ViewFacts.

Import GraphView.
Local Open Scope Z_scope.

Definition on_cell (cx cy : Z) (item : pystr * (Z * Z)) : bool :=
  (cx =? fst (snd item)) && (cy =? snd (snd item)).

Lemma current_note_snoc (positions : dict (Z * Z)) (item : pystr * (Z * Z))
  (cx cy : Z) :
  current_note (positions ++ [item]) cx cy =
  if on_cell cx cy item then Some (fst item) else current_note positions cx cy.
Proof. unfold current_note. rewrite fold_left_app. reflexivity. Qed.

(** X19: The note under the cursor is the last one laid on the cursor's cell: a
    note is reported exactly when no later entry of [positions] shares its
    cell, so of two notes on one cell the earlier is never reported. *)
Theorem current_note_is_last_on_cell (positions : dict (Z * Z))
  (cx cy : Z) (note : pystr) :
  current_note positions cx cy = Some note <->
  exists before after,
    positions = before ++ (note, (cx, cy)) :: after /\
    forallb (fun item => negb (on_cell cx cy item)) after = true.
Proof.
  induction positions as [|item positions IH] using rev_ind.
  - split; [discriminate|]. intros [before [after [E _]]].
    destruct before; discriminate.
  - rewrite current_note_snoc. destruct (on_cell cx cy item) eqn:Ec.
    + split.
      * intros E. inversion E; subst. exists positions, [].
        destruct item as [n [px py]]. unfold on_cell in Ec. simpl in *.
        apply andb_true_iff in Ec. destruct Ec as [E1 E2].
        apply Z.eqb_eq in E1, E2. subst. split; reflexivity.
      * intros [before [after [E Hf]]].
        destruct after as [|a after] using rev_ind.
        -- apply app_inj_tail in E. destruct E as [_ ->]. reflexivity.
        -- rewrite app_comm_cons, app_assoc in E.
           apply app_inj_tail in E. destruct E as [_ ->].
           rewrite forallb_app in Hf. simpl in Hf. rewrite Ec in Hf.
           simpl in Hf. rewrite andb_false_r in Hf. discriminate.
    + rewrite IH. split.
      * intros [before [after [E Hf]]]. exists before, (after ++ [item]).
        split.
        -- rewrite E, <- app_assoc. reflexivity.
        -- rewrite forallb_app, Hf. simpl. rewrite Ec. reflexivity.
      * intros [before [after [E Hf]]].
        destruct after as [|a after _] using rev_ind.
        -- apply app_inj_tail in E. destruct E as [_ ->].
           unfold on_cell in Ec. simpl in Ec. rewrite !Z.eqb_refl in Ec.
           discriminate.
        -- rewrite app_comm_cons, app_assoc in E.
           apply app_inj_tail in E. destruct E as [-> ->].
           rewrite forallb_app in Hf. apply andb_true_iff in Hf.
           exists before, after. split; [reflexivity | apply Hf].
Qed.

Definition in_screen (width height : Z) (v : view) : Prop :=
  0 <= cursor_x v <= width - 1 /\ 0 <= cursor_y v <= height - 2.

Lemma handle_key_in_screen (key width height : Z) (v v' : view) :
  in_screen width height v -> handle_key key width height v = Some v' ->
  in_screen width height v'.
Proof.
  unfold in_screen, handle_key. intros H E.
  repeat match type of E with
         | (if ?c then _ else _) = Some _ => destruct c eqn:?
         end;
    inversion E; subst; simpl;
    repeat match goal with
           | Hc : (_ && _) = true |- _ =>
               apply andb_true_iff in Hc; destruct Hc
           end;
    repeat match goal with
           | Hc : (_ >? _) = true |- _ => apply Z.gtb_lt in Hc
           | Hc : (_ <? _) = true |- _ => apply Z.ltb_lt in Hc
           end;
    lia.
Qed.

Lemma run_in_screen (keys : list Z) (width height : Z) :
  forall v, in_screen width height v ->
            in_screen width height (run keys width height v).
Proof.
  induction keys as [|key keys IH]; intros v H; simpl; [exact H|].
  destruct (handle_key key width height v) as [v'|] eqn:E; [|exact H].
  apply IH. eapply handle_key_in_screen; eassumption.
Qed.

Lemma run_app (keys1 keys2 : list Z) (width height : Z) :
  ~ In 17 keys1 ->
  forall v, run (keys1 ++ keys2) width height v =
            run keys2 width height (run keys1 width height v).
Proof.
  induction keys1 as [|key keys1 IH]; intros Hq v; simpl; [reflexivity|].
  destruct (handle_key key width height v) as [v'|] eqn:E.
  - apply IH. intros Hin. apply Hq. right. exact Hin.
  - unfold handle_key in E. destruct (Z.eqb_spec key 17) as [->|_].
    + exfalso. apply Hq. left. reflexivity.
    + repeat match type of E with
             | (if ?c then _ else _) = None => destruct c; try discriminate
             end.
Qed.

Lemma run_right (n : nat) (width height : Z) :
  forall v, cursor_x v + Z.of_nat n <= width - 1 ->
    run (repeat Editor.KEY_RIGHT n) width height v =
    {| cursor_x := cursor_x v + Z.of_nat n; cursor_y := cursor_y v |}.
Proof.
  induction n as [|n IH]; intros v H.
  - simpl. rewrite Z.add_0_r. destruct v; reflexivity.
  - cbn [repeat run]. unfold handle_key. cbn [Z.eqb Editor.KEY_RIGHT
      Editor.KEY_UP Editor.KEY_DOWN Editor.KEY_LEFT Pos.eqb andb].
    destruct (Z.ltb_spec (cursor_x v) (width - 1)); [|lia].
    rewrite IH by (simpl; lia). simpl. f_equal. lia.
Qed.

Lemma run_left (n : nat) (width height : Z) :
  forall v, 0 <= cursor_x v - Z.of_nat n ->
    run (repeat Editor.KEY_LEFT n) width height v =
    {| cursor_x := cursor_x v - Z.of_nat n; cursor_y := cursor_y v |}.
Proof.
  induction n as [|n IH]; intros v H.
  - simpl. rewrite Z.sub_0_r. destruct v; reflexivity.
  - cbn [repeat run]. unfold handle_key. cbn [Z.eqb Editor.KEY_RIGHT
      Editor.KEY_UP Editor.KEY_DOWN Editor.KEY_LEFT Pos.eqb andb].
    destruct (Z.gtb_spec (cursor_x v) 0); [|lia].
    rewrite IH by (simpl; lia). simpl. f_equal. lia.
Qed.

Lemma run_down (n : nat) (width height : Z) :
  forall v, cursor_y v + Z.of_nat n <= height - 2 ->
    run (repeat Editor.KEY_DOWN n) width height v =
    {| cursor_x := cursor_x v; cursor_y := cursor_y v + Z.of_nat n |}.
Proof.
  induction n as [|n IH]; intros v H.
  - simpl. rewrite Z.add_0_r. destruct v; reflexivity.
  - cbn [repeat run]. unfold handle_key. cbn [Z.eqb Editor.KEY_RIGHT
      Editor.KEY_UP Editor.KEY_DOWN Editor.KEY_LEFT Pos.eqb andb].
    destruct (Z.ltb_spec (cursor_y v) (height - 2)); [|lia].
    rewrite IH by (simpl; lia). simpl. f_equal. lia.
Qed.

Lemma run_up (n : nat) (width height : Z) :
  forall v, 0 <= cursor_y v - Z.of_nat n ->
    run (repeat Editor.KEY_UP n) width height v =
    {| cursor_x := cursor_x v; cursor_y := cursor_y v - Z.of_nat n |}.
Proof.
  induction n as [|n IH]; intros v H.
  - simpl. rewrite Z.sub_0_r. destruct v; reflexivity.
  - cbn [repeat run]. unfold handle_key. cbn [Z.eqb Editor.KEY_RIGHT
      Editor.KEY_UP Editor.KEY_DOWN Editor.KEY_LEFT Pos.eqb andb].
    destruct (Z.gtb_spec (cursor_y v) 0); [|lia].
    rewrite IH by (simpl; lia). simpl. f_equal. lia.
Qed.

(** The keys that take the cursor from column [a] to column [b], and from
    row [a] to row [b]. *)
Definition keys_across (a b : Z) : list Z :=
  if a <=? b then repeat Editor.KEY_RIGHT (Z.to_nat (b - a))
  else repeat Editor.KEY_LEFT (Z.to_nat (a - b)).

Definition keys_along (a b : Z) : list Z :=
  if a <=? b then repeat Editor.KEY_DOWN (Z.to_nat (b - a))
  else repeat Editor.KEY_UP (Z.to_nat (a - b)).

(** X20: The arrow keys keep the cursor on the screen above the status bar, and
    take it from wherever it is to any cell there: every node that
    [force_layout] placed can be brought under the cursor. *)
Theorem cursor_reaches_every_cell (width height : Z) (v : view) (x y : Z) :
  0 <= x <= width - 1 -> 0 <= y <= height - 2 ->
  run (keys_across (cursor_x v) x ++ keys_along (cursor_y v) y) width height v
  = {| cursor_x := x; cursor_y := y |} /\
  (in_screen width height v ->
   forall keys, in_screen width height (run keys width height v)).
Proof.
  intros Hx Hy. split; [|intros H keys; apply run_in_screen; exact H].
  rewrite run_app.
  - unfold keys_across, keys_along.
    destruct (Z.leb_spec (cursor_x v) x).
    + rewrite run_right by lia.
      destruct (Z.leb_spec (cursor_y v) y); cbn [cursor_x cursor_y].
      * rewrite run_down by (simpl; lia). simpl. f_equal; lia.
      * rewrite run_up by (simpl; lia). simpl. f_equal; lia.
    + rewrite run_left by lia.
      destruct (Z.leb_spec (cursor_y v) y); cbn [cursor_x cursor_y].
      * rewrite run_down by (simpl; lia). simpl. f_equal; lia.
      * rewrite run_up by (simpl; lia). simpl. f_equal; lia.
  - unfold keys_across. destruct (cursor_x v <=? x); intros Hin;
      apply repeat_spec in Hin; discriminate.
Qed.

Lemma cursor_reaches_every_cell_witness :
  0 <= 3 <= 80 - 1 /\ 0 <= 20 <= 24 - 2 /\
  run (keys_across 40 3 ++ keys_along 12 20) 80 24 (start 80 24)
  = {| cursor_x := 3; cursor_y := 20 |}.
Proof.
  assert (Hx : 0 <= 3 <= 80 - 1) by lia.
  assert (Hy : 0 <= 20 <= 24 - 2) by lia.
  split; [exact Hx|]. split; [exact Hy|].
  exact (proj1 (cursor_reaches_every_cell 80 24 (start 80 24) 3 20 Hx Hy)).
Defined.

End ViewFacts.

(** ** The link tree: cursor, window and links *)

Section TreeFacts.

Import LinkUtils Spans EditorLinks LinkTree.
Local Open Scope Z_scope.

Lemma len_slice {A : Type} (l : list A) (a b : Z) :
  0 <= a -> 0 <= b ->
  len (slice l a b) = Z.max 0 (Z.min b (len l) - Z.min a (len l)).
Proof.
  intros Ha Hb. unfold slice, len.
  rewrite length_firstn, length_skipn. unfold clamp_index, len.
  destruct (Z.ltb_spec a 0); [lia|]. destruct (Z.ltb_spec b 0); lia.
Qed.

Definition tree_ok (lines : list pystr) (t : tree) : Prop :=
  0 <= cursor_y t /\ 0 <= cursor_x t /\ 0 <= offset t < len lines.

(** A terminal with room for one line of the tree and the status bar. *)
Definition roomy (i : input) : Prop := 2 <= height i /\ 1 <= width i.

Lemma len_visible (lines : list pystr) (h : Z) (t : tree) :
  0 <= offset t < len lines -> 2 <= h ->
  len (visible lines h t) = Z.min (h - 1) (len lines - offset t).
Proof.
  intros Ho Hh. unfold visible. rewrite len_slice by lia. lia.
Qed.

Lemma moved_to_ok (lines : list pystr) (i : input) (t : tree) :
  tree_ok lines t -> roomy i ->
  0 <= cursor_y (moved_to lines i t) < len (visible lines (height i) t) /\
  0 <= cursor_x (moved_to lines i t) < width i /\
  offset (moved_to lines i t) = offset t.
Proof.
  intros [Hy [Hx Ho]] [Hh Hw].
  pose proof (len_visible lines (height i) t Ho Hh) as Hv.
  unfold moved_to, clamp_cursor. simpl.
  destruct (Z.geb_spec (cursor_y t) (len (visible lines (height i) t)));
    destruct (Z.geb_spec (cursor_x t) (width i)); repeat split; lia.
Qed.

Lemma iteration_ok (lines : list pystr) (i : input) (t t' : tree) :
  tree_ok lines t -> roomy i -> iteration lines i t = Some t' ->
  tree_ok lines t'.
Proof.
  intros H Hr E. pose proof (moved_to_ok lines i t H Hr) as [Hy [Hx Ho]].
  destruct H as [_ [_ Hoff]]. destruct Hr as [Hh Hw].
  pose proof (len_visible lines (height i) t Hoff Hh) as Hv.
  unfold iteration, handle_key in E.
  remember (moved_to lines i t) as t1 eqn:Et1. clear Et1.
  remember (visible lines (height i) t) as vis eqn:Ev. clear Ev.
  unfold tree_ok.
  repeat match type of E with
         | (if ?c then _ else _) = Some _ => destruct c eqn:?
         | match ?v with [] => _ | _ :: _ => _ end = Some _ => destruct v eqn:?
         end;
    inversion E; subst; cbn [cursor_y cursor_x offset];
    repeat match goal with
           | Hc : (_ && _) = true |- _ =>
               apply andb_true_iff in Hc; destruct Hc
           end;
    repeat match goal with
           | Hc : (_ >? _) = true |- _ => apply Z.gtb_lt in Hc
           | Hc : (_ <? _) = true |- _ => apply Z.ltb_lt in Hc
           end;
    first [lia | split; [lia | split; [apply len_nonneg | lia]]].
Qed.

Lemma run_ok (inputs : list input) (lines : list pystr) :
  Forall roomy inputs ->
  forall t, tree_ok lines t -> tree_ok lines (run inputs lines t).
Proof.
  induction 1 as [|i inputs Hr _ IH]; intros t H; simpl; [exact H|].
  destruct (iteration lines i t) as [t'|] eqn:E; [|exact H].
  apply IH. eapply iteration_ok; eassumption.
Qed.

Lemma slice_nil {A : Type} (a b : Z) : slice (@nil A) a b = [].
Proof. unfold slice. rewrite skipn_nil, firstn_nil. reflexivity. Qed.

Lemma iteration_without_lines (i : input) (t t' : tree) :
  roomy i -> cursor_y t = 0 \/ cursor_y t = -1 -> offset t = 0 ->
  iteration [] i t = Some t' -> cursor_y t' = -1 /\ offset t' = 0.
Proof.
  intros [Hh Hw] Hy Ho E.
  unfold iteration, moved_to, clamp_cursor, handle_key, visible in E.
  rewrite slice_nil in E.
  change (len (@nil pystr)) with 0 in E.
  cbn [cursor_y cursor_x offset] in E. rewrite Ho in E.
  assert (Ey : (if cursor_y t >=? 0 then 0 - 1 else cursor_y t) = -1).
  { destruct (Z.geb_spec (cursor_y t) 0); lia. }
  rewrite Ey in E.
  change (-1 >? 0) with false in E. change (0 >? 0) with false in E.
  change (-1 <? 0 - 1) with false in E.
  destruct (Z.ltb_spec 0 (0 - (height i - 1))); [lia|].
  repeat match type of E with
         | (if ?c then _ else _) = Some _ => destruct c eqn:?
         end;
    inversion E; subst; simpl; auto.
Qed.

Lemma run_without_lines (inputs : list input) :
  Forall roomy inputs ->
  forall t, cursor_y t = 0 \/ cursor_y t = -1 -> offset t = 0 ->
    (cursor_y (run inputs [] t) = 0 \/ cursor_y (run inputs [] t) = -1) /\
    offset (run inputs [] t) = 0.
Proof.
  induction 1 as [|i inputs Hr _ IH]; intros t Hy Ho; simpl; [auto|].
  destruct (iteration [] i t) as [t'|] eqn:E; [|auto].
  destruct (iteration_without_lines i t t' Hr Hy Ho E) as [Hy' Ho'].
  apply IH; auto.
Qed.

(** X22: On terminals of two rows and one column or more: when the tree has a
    line, [stdscr.move] is always given a row of the window and a column of
    the screen, and the row holds a line of the tree; when it has none, the
    row given is -1, from the first pass on. *)
Theorem tree_cursor_on_a_line (lines : list pystr) (inputs : list input)
  (i : input) :
  Forall roomy inputs -> roomy i ->
  let t := run inputs lines start in
  let at_cursor := moved_to lines i t in
  (lines <> [] ->
   0 <= cursor_y at_cursor < len (visible lines (height i) t) /\
   0 <= cursor_x at_cursor < width i /\
   exists line,
     nth_error (visible lines (height i) t) (Z.to_nat (cursor_y at_cursor))
     = Some line /\
     nth_error lines (Z.to_nat (offset t + cursor_y at_cursor)) = Some line) /\
  (lines = [] -> cursor_y at_cursor = -1).
Proof.
  intros Hin Hi. cbv zeta. split.
  - intros Hne.
    assert (H0 : tree_ok lines start).
    { unfold tree_ok, start. simpl. destruct lines; [congruence|].
      rewrite len_cons. pose proof (len_nonneg lines). lia. }
    pose proof (run_ok inputs lines Hin start H0) as Ht.
    pose proof (moved_to_ok lines i _ Ht Hi) as [Hy [Hx Ho]].
    split; [exact Hy|]. split; [exact Hx|].
    destruct (nth_error (visible lines (height i) (run inputs lines start))
                (Z.to_nat (cursor_y (moved_to lines i (run inputs lines start)))))
      as [line|] eqn:E.
    + exists line. split; [reflexivity|].
      unfold visible in E. apply slice_nth_inv in E; [|apply Ht].
      destruct Ht as [_ [_ Hoff]].
      replace (Z.to_nat (offset (run inputs lines start)
                         + cursor_y (moved_to lines i (run inputs lines start))))
        with (Z.to_nat (offset (run inputs lines start))
              + Z.to_nat (cursor_y (moved_to lines i (run inputs lines start))))%nat
        by lia.
      exact E.
    + apply nth_error_None in E. unfold len in Hy. lia.
  - intros ->.
    destruct (run_without_lines inputs Hin start (or_introl eq_refl) eq_refl)
      as [Hy _].
    unfold moved_to, clamp_cursor, visible. rewrite slice_nil.
    cbn [cursor_y]. change (len (@nil pystr)) with 0.
    destruct (Z.geb_spec (cursor_y (run inputs [] start)) 0); lia.
Qed.

Lemma tree_cursor_on_a_line_witness :
  let lines := [str "A"; str "  Incoming (0)"; str "  Outgoing (0)"; []] in
  let down := {| key := Editor.KEY_DOWN; height := 3; width := 80 |} in
  lines <> [] /\ Forall roomy [down; down; down] /\ roomy down /\
  0 <= cursor_y (moved_to lines down (run [down; down; down] lines start))
    < len (visible lines 3 (run [down; down; down] lines start)).
Proof.
  intros lines down.
  assert (H1 : lines <> []) by discriminate.
  assert (H3 : roomy down) by (unfold roomy; simpl; lia).
  assert (H2 : Forall roomy [down; down; down]) by (repeat constructor; apply H3).
  repeat (split; [assumption|]).
  exact (proj1 (proj1 (tree_cursor_on_a_line lines [down; down; down] down
                         H2 H3) H1)).
Defined.

(** *** The lines of the tree *)

Section Membership.

Context {A K : Type}.
Variables (sort_key : A -> K) (stays_before : K -> K -> bool).

Lemma in_insert_sorted (x a : A) (l : list A) :
  In x (insert_sorted sort_key stays_before a l) <-> x = a \/ In x l.
Proof.
  induction l as [|b l IH]; simpl.
  - intuition congruence.
  - destruct (stays_before (sort_key b) (sort_key a)); simpl.
    + rewrite IH. intuition congruence.
    + intuition congruence.
Qed.

Lemma in_sorted_from (x : A) (l placed : list A) :
  In x (fold_left (fun placed a => insert_sorted sort_key stays_before a placed)
          l placed)
  <-> In x l \/ In x placed.
Proof.
  revert placed. induction l as [|a l IH]; intros placed; simpl.
  - intuition.
  - rewrite IH, in_insert_sorted. intuition congruence.
Qed.

Lemma in_sorted (x : A) (l : list A) :
  In x (sorted sort_key stays_before l) <-> In x l.
Proof. unfold sorted. rewrite in_sorted_from. simpl. intuition. Qed.

End Membership.

Section LinesFacts.

Variable lower : pystr -> pystr.
Variables (sort : option pystr) (graph incoming : dict (list pystr)).

Lemma in_ordered_notes (note : pystr) :
  In note (ordered_notes lower sort graph incoming) <->
  In note (dict_keys graph).
Proof.
  unfold ordered_notes.
  destruct (is_mode sort "alpha"); [apply in_sorted|].
  destruct (is_mode sort "quantity"); [apply in_sorted | reflexivity].
Qed.

Lemma in_ordered_links (x : pystr) (l : list pystr) :
  In x (ordered_links lower sort graph l) <-> In x l.
Proof.
  unfold ordered_links.
  destruct (is_mode sort "alpha"); [apply in_sorted|].
  destruct (is_mode sort "quantity"); [apply in_sorted | reflexivity].
Qed.

Definition append_block (lines : list pystr) (note : pystr)
  : result (list pystr) :=
  block <- note_lines lower sort graph incoming note ;; Ok (lines ++ block).

Lemma build_lines_loop (notes : list pystr) :
  (forall note, In note notes -> dict_mem graph note = true) ->
  forall acc, exists lines,
    for_each notes append_block acc = Ok lines /\
    (forall x, In x acc -> In x lines) /\
    (forall note block,
       In note notes -> note_lines lower sort graph incoming note = Ok block ->
       forall x, In x block -> In x lines) /\
    (notes = [] -> lines = acc) /\
    (notes <> [] -> lines <> []).
Proof.
  induction notes as [|note notes IH]; intros Hk acc.
  - exists acc. simpl. repeat split; auto; try tauto.
  - assert (Hm : dict_mem graph note = true) by (apply Hk; left; reflexivity).
    cbn [for_each]. unfold append_block at 1, note_lines, Graph.lookup.
    unfold dict_mem in Hm.
    destruct (dict_get graph note) as [out|] eqn:Eo; [|discriminate].
    cbn [bind].
    match goal with
    | |- context [for_each notes append_block (acc ++ ?b)] => set (block := b)
    end.
    destruct (IH (fun n Hn => Hk n (or_intror Hn)) (acc ++ block))
      as [lines [E [Hacc [Hblocks [_ _]]]]].
    exists lines. split; [exact E|].
    assert (Hb : forall x, In x block -> In x lines)
      by (intros x Hx; apply Hacc, in_or_app; right; exact Hx).
    repeat split.
    + intros x Hx. apply Hacc, in_or_app. left. exact Hx.
    + intros n b [<-|Hn] Hnl x Hx.
      * unfold note_lines, Graph.lookup in Hnl. rewrite Eo in Hnl.
        cbn [bind] in Hnl. inversion Hnl; subst b. apply Hb. exact Hx.
      * eapply Hblocks; eassumption.
    + discriminate.
    + intros _ ->. assert (Hin : In note []) by (apply Hb; left; reflexivity).
      destruct Hin.
Qed.

(** X23: Building the tree raises nothing and loses nothing: the tree is empty
    exactly when the vault has no note, and it holds, for every note, its
    name, an entry for each of its links and an entry for each note that
    links to it, in every sort mode. *)
Theorem build_lines_lists_every_link :
  exists lines,
    build_lines lower sort graph incoming = Ok lines /\
    (lines = [] <-> graph = []) /\
    (forall note out,
       dict_get graph note = Some out ->
       In note lines /\
       (forall tgt, In tgt out -> In (entry "->" tgt) lines) /\
       (forall src, In src (get_or_empty incoming note) ->
                    In (entry "<-" src) lines)).
Proof.
  destruct (build_lines_loop (ordered_notes lower sort graph incoming))
    with (acc := @nil pystr) as [lines [E [_ [Hblocks [H0 H1]]]]].
  { intros note Hin. apply in_ordered_notes in Hin.
    apply dict_mem_in_keys. exact Hin. }
  exists lines. split; [exact E|]. split; [split|].
  - intros Hl. destruct (dict_keys graph) as [|k ks] eqn:Ek.
    + unfold dict_keys in Ek. apply map_eq_nil in Ek. exact Ek.
    + exfalso. apply H1; [|exact Hl]. intros Hn.
      assert (Hin : In k (ordered_notes lower sort graph incoming))
        by (apply in_ordered_notes; rewrite Ek; left; reflexivity).
      rewrite Hn in Hin. destruct Hin.
  - intros Hg. apply H0.
    destruct (ordered_notes lower sort graph incoming) as [|n l] eqn:En;
      [reflexivity|].
    assert (Hin : In n (dict_keys graph))
      by (apply in_ordered_notes; rewrite En; left; reflexivity).
    rewrite Hg in Hin. destruct Hin.
  - intros note out Ho.
    assert (Hin : In note (ordered_notes lower sort graph incoming)).
    { apply in_ordered_notes, dict_mem_in_keys. unfold dict_mem.
      rewrite Ho. reflexivity. }
    assert (Hnl : exists block,
               note_lines lower sort graph incoming note = Ok block /\
               In note block /\
               (forall tgt, In tgt out -> In (entry "->" tgt) block) /\
               (forall src, In src (get_or_empty incoming note) ->
                            In (entry "<-" src) block)).
    { unfold note_lines, Graph.lookup. rewrite Ho. cbn [bind].
      eexists. split; [reflexivity|]. split; [left; reflexivity|]. split.
      - intros tgt Ht. rewrite !in_app_iff. do 4 right. left.
        apply in_map, in_ordered_links. exact Ht.
      - intros src Hs. rewrite !in_app_iff. do 2 right. left.
        apply in_map, in_ordered_links. exact Hs. }
    destruct Hnl as [block [Eb [Hn [Ht Hs]]]].
    pose proof (Hblocks note block Hin Eb) as Hb.
    repeat split; auto.
Qed.

End LinesFacts.

(** *** Walking down the tree *)

Definition down (h w : Z) : input :=
  {| key := Editor.KEY_DOWN; height := h; width := w |}.

(** Where [n] presses of the down arrow leave the cursor and the window. *)
Definition after_down (lines : list pystr) (h n : Z) (t : tree) : Prop :=
  let window := Z.min (h - 1) (len lines) in
  cursor_y t = Z.min n (window - 1) /\
  offset t = Z.min (Z.max 0 (n - (window - 1))) (Z.max 0 (len lines - (h - 1))) /\
  0 <= cursor_x t.

Lemma down_step (lines : list pystr) (h w n : Z) (t : tree) :
  lines <> [] -> 2 <= h -> 1 <= w -> 0 <= n ->
  after_down lines h n t ->
  exists t', iteration lines (down h w) t = Some t' /\
             after_down lines h (n + 1) t'.
Proof.
  intros Hne Hh Hw Hn [Hy [Ho Hx]].
  assert (HL : 1 <= len lines).
  { destruct lines; [congruence|]. rewrite len_cons.
    pose proof (len_nonneg lines). lia. }
  assert (Hoff : 0 <= offset t < len lines) by lia.
  pose proof (len_visible lines h t Hoff Hh) as Hv.
  unfold iteration, moved_to, clamp_cursor, handle_key, down.
  cbn [key height width cursor_y cursor_x offset].
  change (Editor.KEY_DOWN =? 17) with false.
  change (Editor.KEY_DOWN =? Editor.KEY_UP) with false.
  change (Editor.KEY_DOWN =? Editor.KEY_DOWN) with true. cbv iota.
  remember (visible lines h t) as vis eqn:Ev.
  destruct (Z.geb_spec (cursor_y t) (len vis)); [lia|].
  destruct (Z.ltb_spec (cursor_y t) (len vis - 1)).
  - eexists. split; [reflexivity|]. unfold after_down. simpl.
    destruct (Z.geb_spec (cursor_x t) w); repeat split; lia.
  - destruct (Z.ltb_spec (offset t) (len lines - (h - 1))).
    + eexists. split; [reflexivity|]. unfold after_down. simpl.
      destruct (Z.geb_spec (cursor_x t) w); repeat split; lia.
    + destruct vis as [|line vis];
        [change (len (@nil pystr)) with 0 in Hv; lia|].
      eexists. split; [reflexivity|]. unfold after_down.
      cbn [cursor_y cursor_x offset].
      repeat split; try lia. apply len_nonneg.
Qed.

Lemma run_down_tree (lines : list pystr) (h w : Z) (k : nat) :
  lines <> [] -> 2 <= h -> 1 <= w ->
  forall n t, 0 <= n -> after_down lines h n t ->
    after_down lines h (n + Z.of_nat k) (run (repeat (down h w) k) lines t).
Proof.
  intros Hne Hh Hw. induction k as [|k IH]; intros n t Hn H.
  - simpl. rewrite Z.add_0_r. exact H.
  - cbn [repeat run].
    destruct (down_step lines h w n t Hne Hh Hw Hn H) as [t' [E H']].
    rewrite E. replace (n + Z.of_nat (S k)) with (n + 1 + Z.of_nat k) by lia.
    apply IH; [lia | exact H'].
Qed.

(** X24: Pressing the down arrow [n] times from the top puts the cursor on line
    [n] of the tree, or on its last line when the tree is shorter: every
    line of the tree can be reached, the window following the cursor. *)
Theorem tree_down_reaches_every_line (lines : list pystr) (h w : Z) (n : nat) :
  lines <> [] -> 2 <= h -> 1 <= w ->
  let t := run (repeat (down h w) n) lines start in
  offset t + cursor_y t = Z.min (Z.of_nat n) (len lines - 1) /\
  0 <= cursor_y t < len (visible lines h t).
Proof.
  intros Hne Hh Hw. cbv zeta.
  assert (HL : 1 <= len lines).
  { destruct lines; [congruence|]. rewrite len_cons.
    pose proof (len_nonneg lines). lia. }
  assert (H0 : after_down lines h 0 start).
  { unfold after_down, start. simpl. repeat split; lia. }
  pose proof (run_down_tree lines h w n Hne Hh Hw 0 start ltac:(lia) H0)
    as [Hy [Ho Hx]].
  rewrite Z.add_0_l in Hy, Ho.
  rewrite len_visible by lia. lia.
Qed.

Lemma tree_down_reaches_every_line_witness :
  let lines := [str "A"; str "  Incoming (0)"; str "  Outgoing (0)"; []] in
  lines <> [] /\ 2 <= 3 /\ 1 <= 80 /\
  offset (run (repeat (down 3 80) 2) lines start)
  + cursor_y (run (repeat (down 3 80) 2) lines start) = 2.
Proof.
  intros lines.
  assert (H1 : lines <> []) by discriminate.
  assert (H2 : 2 <= 3) by lia.
  assert (H3 : 1 <= 80) by lia.
  repeat (split; [assumption|]).
  exact (proj1 (tree_down_reaches_every_line lines 3 80 2 H1 H2 H3)).
Defined.

(** *** Following an entry *)

Lemma finditer_from_link (prefix name rest : pystr) :
  ~ In LBRACKET prefix -> linkable name ->
  forall pos,
    finditer_from pos (prefix ++ link_text name ++ rest) =
    {| group1 := name; span_start := pos + len prefix;
       span_end := pos + len prefix + len name + 4 |}
      :: finditer_from (pos + len prefix + len name + 4) rest.
Proof.
  intros Hp Hl. induction prefix as [|c prefix IH]; intros pos.
  - pose proof (match_here_link name rest Hl) as Hm.
    unfold link_text in *. simpl app in *.
    rewrite finditer_from_cons, Hm.
    assert (E : len (LBRACKET :: LBRACKET :: (name ++ [RBRACKET; RBRACKET]) ++ rest)
                - len rest = len name + 4).
    { rewrite !len_cons, len_app, len_app.
      change (len [RBRACKET; RBRACKET]) with 2. lia. }
    rewrite E. change (len (@nil char)) with 0.
    rewrite Z.add_0_r.
    replace (pos + (len name + 4)) with (pos + len name + 4) by lia.
    reflexivity.
  - simpl app. rewrite finditer_from_cons, match_here_not_bracket
      by (intros ->; apply Hp; left; reflexivity).
    rewrite IH by (intros Hin; apply Hp; right; exact Hin).
    rewrite len_cons.
    replace (pos + 1 + len prefix) with (pos + (1 + len prefix)) by lia.
    reflexivity.
Qed.

Lemma finditer_entry (arrow : string) (name : pystr) :
  arrow = "<-"%string \/ arrow = "->"%string -> linkable name ->
  finditer (entry arrow name) =
  [{| group1 := name; span_start := 7; span_end := 7 + len name + 4 |}].
Proof.
  intros Ha Hl. unfold finditer, entry.
  assert (E : str "    " ++ str arrow ++ str " [[" ++ name ++ str "]]"
              = (str "    " ++ str arrow ++ str " ") ++ link_text name ++ []).
  { unfold link_text. rewrite <- !app_assoc. reflexivity. }
  rewrite E, finditer_from_link.
  - destruct Ha as [->| ->]; simp finditer_from; reflexivity.
  - destruct Ha as [->| ->]; simpl; intuition discriminate.
  - exact Hl.
Qed.

(** X25: CTRL+G on an entry of the tree: with the cursor on the link of an
    incoming or outgoing entry, the file opened is the one recorded for the
    note the entry names, and nothing is opened when there is none. *)
Theorem tree_follow_entry (lines : list pystr) (paths : dict pystr)
  (i : input) (t : tree) (arrow : string) (name : pystr) :
  tree_ok lines t -> roomy i ->
  nth_error lines (Z.to_nat (offset t + cursor_y (moved_to lines i t)))
  = Some (entry arrow name) ->
  arrow = "<-"%string \/ arrow = "->"%string -> linkable name ->
  7 <= cursor_x (moved_to lines i t) < 7 + len name + 4 ->
  follow lines paths i t = dict_get paths name.
Proof.
  intros Ht Hr Hline Ha Hl Hx.
  pose proof (moved_to_ok lines i t Ht Hr) as [Hy [_ _]].
  destruct Ht as [_ [_ Hoff]]. destruct Hr as [Hh Hw].
  pose proof (len_visible lines (height i) t Hoff Hh) as Hv.
  unfold follow. cbv zeta.
  remember (moved_to lines i t) as c eqn:Ec. clear Ec.
  assert (Hrow : nth_error (visible lines (height i) t) (Z.to_nat (cursor_y c))
                 = Some (entry arrow name)).
  { unfold visible. apply slice_nth_intro; try lia.
    replace (Z.to_nat (offset t) + Z.to_nat (cursor_y c))%nat
      with (Z.to_nat (offset t + cursor_y c)) by lia.
    exact Hline. }
  remember (visible lines (height i) t) as vis eqn:Ev. clear Ev.
  set (l0 := {| note := name; link_y := cursor_y c;
                x_start := 7; x_end := 7 + len name + 4 |}).
  assert (Hin : In l0 (links_on_screen vis)).
  { unfold links_on_screen. apply in_flat_map.
    exists (cursor_y c, entry arrow name). split.
    - apply enumerate_from_in. split; [lia|]. rewrite Z.sub_0_r. exact Hrow.
    - cbn [fst snd]. rewrite (finditer_entry arrow name Ha Hl).
      left. reflexivity. }
  assert (Hover : (link_y l0 =? cursor_y c) && (x_start l0 <=? cursor_x c)
                  && (cursor_x c <? x_end l0) = true).
  { unfold l0. cbn [link_y x_start x_end]. rewrite !andb_true_iff.
    repeat split; [apply Z.eqb_eq | apply Z.leb_le | apply Z.ltb_lt]; lia. }
  destruct (find_exists
              (fun l => (link_y l =? cursor_y c) && (x_start l <=? cursor_x c)
                        && (cursor_x c <? x_end l))
              _ l0 Hin Hover) as [l El].
  rewrite El. f_equal.
  apply find_some in El. destruct El as [Hl' Hc].
  apply andb_true_iff in Hc. destruct Hc as [Hc _].
  apply andb_true_iff in Hc. destruct Hc as [H1 _].
  apply Z.eqb_eq in H1.
  unfold links_on_screen in Hl'. apply in_flat_map in Hl'.
  destruct Hl' as [[row line] [Hent Hm]]. cbn [fst snd] in Hm.
  apply in_map_iff in Hm. destruct Hm as [m [<- Hm]]. simpl in H1. subst row.
  apply enumerate_from_in in Hent. destruct Hent as [_ Hent].
  rewrite Z.sub_0_r, Hrow in Hent. inversion Hent; subst line.
  rewrite (finditer_entry arrow name Ha Hl) in Hm.
  destruct Hm as [<-|[]]. reflexivity.
Qed.

Lemma tree_follow_entry_witness :
  let lines := [str "B"; str "  Incoming (1)"; str "    <- [[A]]";
                str "  Outgoing (0)"; []] in
  let t := {| cursor_y := 2; cursor_x := 8; offset := 0 |} in
  let i := {| key := 7; height := 24; width := 80 |} in
  tree_ok lines t /\ roomy i /\ linkable (str "A") /\
  follow lines [(str "A", str "v/A.md")] i t = Some (str "v/A.md").
Proof.
  intros lines t i.
  assert (H1 : tree_ok lines t) by (unfold tree_ok, len; simpl; lia).
  assert (H2 : roomy i) by (unfold roomy; simpl; lia).
  assert (H3 : linkable (str "A"))
    by (split; [discriminate | simpl; intuition discriminate]).
  repeat (split; [assumption|]).
  assert (H4 : 7 <= cursor_x (moved_to lines i t) < 7 + len (str "A") + 4)
    by (unfold len; simpl; lia).
  exact (tree_follow_entry lines [(str "A", str "v/A.md")] i t "<-" (str "A")
           H1 H2 eq_refl (or_introl eq_refl) H3 H4).
Defined.

End TreeFacts.

(** ** The help screen: what scrolling can show *)

Section HelpFacts.

Import Spans Help.
Local Open Scope Z_scope.

Lemma slice_nth_bound {A : Type} (l : list A) (a b : Z) (n : nat) (v : A) :
  0 <= a -> 0 <= b -> nth_error (slice l a b) n = Some v ->
  a + Z.of_nat n < b.
Proof.
  intros Ha Hb H. unfold slice in H. rewrite nth_error_firstn in H.
  destruct (Nat.ltb_spec n (clamp_index l b - clamp_index l a)); [|discriminate].
  rewrite nth_error_skipn in H.
  assert (Hk : (clamp_index l a + n < length l)%nat)
    by (apply nth_error_Some; congruence).
  unfold clamp_index, len in *.
  destruct (Z.ltb_spec a 0); [lia|]. destruct (Z.ltb_spec b 0); lia.
Qed.

Lemma help_handle_key_range (lines : list pystr) (height key offset offset' : Z) :
  0 <= offset <= len lines - height ->
  handle_key lines height key offset = Some offset' ->
  0 <= offset' <= len lines - height.
Proof.
  unfold handle_key. intros H E.
  repeat match type of E with
         | (if ?c then _ else _) = Some _ => destruct c eqn:?
         end;
    inversion E; subst;
    repeat match goal with
           | Hc : (_ && _) = true |- _ =>
               apply andb_true_iff in Hc; destruct Hc
           end;
    repeat match goal with
           | Hc : (_ >? _) = true |- _ => apply Z.gtb_lt in Hc
           | Hc : (_ <? _) = true |- _ => apply Z.ltb_lt in Hc
           end;
    lia.
Qed.

Lemma help_run_range (keys : list Z) (lines : list pystr) (height : Z) :
  forall offset, 0 <= offset <= len lines - height ->
                 0 <= run keys lines height offset <= len lines - height.
Proof.
  induction keys as [|key keys IH]; intros offset H; simpl; [exact H|].
  destruct (handle_key lines height key offset) as [offset'|] eqn:E; [|exact H].
  apply IH. eapply help_handle_key_range; eassumption.
Qed.

Lemma help_run_down (n : nat) (lines : list pystr) (height : Z) :
  forall offset, offset + Z.of_nat n <= len lines - height ->
    run (repeat Editor.KEY_DOWN n) lines height offset = offset + Z.of_nat n.
Proof.
  induction n as [|n IH]; intros offset H.
  - simpl. lia.
  - cbn [repeat run]. unfold handle_key.
    cbn [Z.eqb Editor.KEY_UP Editor.KEY_DOWN Pos.eqb andb].
    destruct (Z.ltb_spec offset (len lines - height)); [|lia].
    rewrite IH by lia. lia.
Qed.

(** X21: When the text does not fit above the status bar ([height <= len(lines)]),
    no sequence of keys brings its last line into view: the offset stays
    within [0, len(lines) - height] and the window ends one line short.
    Every other line can be scrolled into view. *)
Theorem help_last_line_never_shown (lines : list pystr) (height : Z) :
  2 <= height <= len lines ->
  (forall keys n line,
     nth_error (visible lines (run keys lines height 0) height) n = Some line ->
     nth_error lines (Z.to_nat (run keys lines height 0) + n) = Some line /\
     run keys lines height 0 + Z.of_nat n < len lines - 1) /\
  (forall i line,
     nth_error lines i = Some line -> Z.of_nat i < len lines - 1 ->
     exists keys n,
       nth_error (visible lines (run keys lines height 0) height) n
       = Some line).
Proof.
  intros Hh. split.
  - intros keys n line H.
    pose proof (help_run_range keys lines height 0 ltac:(lia)) as Hr.
    unfold visible in H. split.
    + apply slice_nth_inv in H; [exact H | lia].
    + apply slice_nth_bound in H; lia.
  - intros i line Hi Hlt.
    set (k := Z.to_nat (Z.max 0 (Z.of_nat i - (height - 2)))).
    exists (repeat Editor.KEY_DOWN k), (i - k)%nat.
    rewrite help_run_down by lia. unfold visible.
    apply slice_nth_intro; try lia.
    replace (Z.to_nat (0 + Z.of_nat k) + (i - k))%nat with i by lia.
    exact Hi.
Qed.

Lemma help_last_line_never_shown_witness :
  let lines := [str "Usage:"; str "  greenlight -h"; str "-"] in
  2 <= 3 <= len lines /\
  forall keys n line,
    nth_error (visible lines (run keys lines 3 0) 3) n = Some line ->
    run keys lines 3 0 + Z.of_nat n < len lines - 1.
Proof.
  intros lines.
  assert (H : 2 <= 3 <= len lines) by (unfold len; simpl; lia).
  split; [exact H|].
  intros keys n line Hn.
  exact (proj2 (proj1 (help_last_line_never_shown lines 3 H) keys n line Hn)).
Defined.

End HelpFacts.

(** ** The layout on a screen that is too small *)

Section SmallScreen.

Import Float Graph.
Local Open Scope Z_scope.

(** X30: Below three columns or four rows there is no cell to draw from, and
    [force_layout] raises [ValueError] at the first note it places: the
    graph view of a vault with a note cannot start on such a terminal. *)
Theorem force_layout_small_screen (draws : nat -> N)
  (graph : dict (list pystr)) (width height iterations : Z) :
  graph <> [] -> width < 3 \/ height < 4 ->
  force_layout draws graph width height iterations = Raise ValueError.
Proof.
  intros Hne Hs. destruct graph as [|[note targets] graph]; [congruence|].
  unfold force_layout, simulate, init_positions. cbn [dict_keys map fst for_each].
  unfold place at 1, randint.
  destruct (Z.ltb_spec (width - 2) 1); [reflexivity|]. cbn [bind].
  destruct (Z.ltb_spec (height - 3) 1); [reflexivity | lia].
Qed.

Lemma force_layout_small_screen_witness :
  Vault.graph <> [] /\ (80 < 3 \/ 3 < 4) /\
  force_layout Vault.draws Vault.graph 80 3 default_iterations
  = Raise ValueError.
Proof.
  assert (H1 : Vault.graph <> []) by discriminate.
  assert (H2 : 80 < 3 \/ 3 < 4) by (right; lia).
  split; [exact H1|]. split; [exact H2|].
  exact (force_layout_small_screen Vault.draws Vault.graph 80 3
           default_iterations H1 H2).
Defined.

End SmallScreen.

(** ** Themes *)

Section ThemeFacts.

Import Themes.
Local Open Scope Z_scope.

(** X29: Whatever the theme name, known or not, [init_colors] leaves pair 1
    (text) and pair 2 (links) with two different foreground colours, none
    of them black, on a black background, and touches no other pair; and
    the theme chosen for ["random"] is one of the seven themes. *)
Theorem theme_colors_differ (theme : pystr) (p : pairs) (draw : N) :
  (exists text link,
     init_colors theme p 1 = Some (text, COLOR_BLACK) /\
     init_colors theme p 2 = Some (link, COLOR_BLACK) /\
     text <> link /\ text <> COLOR_BLACK /\ link <> COLOR_BLACK) /\
  (forall k, k <> 1 -> k <> 2 -> init_colors theme p k = p k) /\
  In (resolve_theme draw (str "random")) AVAILABLE_THEMES.
Proof.
  split; [|split].
  - unfold init_colors.
    repeat match goal with
           | |- context [if pystr_eqb theme ?s then _ else _] =>
               destruct (pystr_eqb theme s)
           end;
      eexists; eexists; (split; [reflexivity|]); (split; [reflexivity|]);
      repeat split; discriminate.
  - intros k H1 H2. unfold init_colors.
    repeat match goal with
           | |- context [if pystr_eqb theme ?s then _ else _] =>
               destruct (pystr_eqb theme s)
           end;
      unfold init_pair;
      destruct (Z.eqb_spec k 1); try lia;
      destruct (Z.eqb_spec k 2); try lia; reflexivity.
  - unfold resolve_theme.
    change (pystr_eqb (str "random") (str "random")) with true. cbv iota.
    assert (H : (N.to_nat (draw mod 7) < 7)%nat).
    { pose proof (N.mod_upper_bound draw 7 ltac:(discriminate)). lia. }
    destruct (N.to_nat (draw mod 7)) as [|[|[|[|[|[|[|n]]]]]]];
      simpl; auto 10. lia.
Qed.

End ThemeFacts.

(** ** The command line *)

Section MainFacts.

Import LinkUtils Themes Boot Main.
Local Open Scope Z_scope.

Definition known_mode (c : config) : Prop :=
  mode c = str "edit" \/ mode c = str "link-tree" \/
  mode c = str "link-graph" \/ mode c = str "help".

(** A property of [parse] that holds of the empty command line and goes
    from the rest of the arguments, and from what follows the value of
    [--theme], to the whole. *)
Lemma parse_rect (Q : list pystr -> Prop) :
  Q [] ->
  (forall arg rest,
     Q rest -> (forall value rest', rest = value :: rest' -> Q rest') ->
     Q (arg :: rest)) ->
  forall args, Q args.
Proof.
  intros H0 Hstep args.
  assert (H : Q args /\ forall value rest', args = value :: rest' -> Q rest').
  { induction args as [|arg rest [IH1 IH2]].
    - split; [exact H0 | discriminate].
    - split; [apply Hstep; assumption|].
      intros value rest' E. inversion E; subst. exact IH1. }
  apply H.
Qed.

Ltac parse_cases H :=
  cbn [parse] in H;
  repeat match type of H with
         | (if ?c then _ else _) = _ => destruct c eqn:?
         | match ?l with [] => _ | _ :: _ => _ end = _ => destruct l eqn:?
         | match ?o with Some _ => _ | None => _ end = _ => destruct o eqn:?
         end.

Lemma parse_known (args : list pystr) :
  forall c c', known_mode c -> parse args c = Done c' -> known_mode c'.
Proof.
  induction args as [|arg rest IH1 IH2] using parse_rect; intros c c' Hk H.
  - inversion H; subst. exact Hk.
  - parse_cases H; try discriminate;
      first [ eapply IH1; [|exact H]
            | eapply IH2; [reflexivity | | exact H] ];
      unfold known_mode in *; cbn [mode set_mode set_theme set_sort set_path
                                     set_file_name]; auto.
Qed.

Definition parse_message (args : list pystr) (m : pystr) : Prop :=
  m = str "Error: --theme requires a value" \/
  exists arg, In arg args /\ m = str "Unknown argument: " ++ arg.

Lemma parse_message_cons (arg : pystr) (args : list pystr) (m : pystr) :
  parse_message args m -> parse_message (arg :: args) m.
Proof.
  intros [E|[a [Hin E]]]; [left; exact E|].
  right. exists a. split; [right; exact Hin | exact E].
Qed.

Lemma parse_exit (args : list pystr) :
  forall c m, parse args c = Exit m -> parse_message args m.
Proof.
  induction args as [|arg rest IH1 IH2] using parse_rect; intros c m H.
  - discriminate.
  - parse_cases H;
      try (apply parse_message_cons; eapply IH1; exact H);
      try (inversion H; subst; left; reflexivity);
      try (inversion H; subst; right; exists arg; split; [left|]; reflexivity).
    do 2 apply parse_message_cons. exact (IH2 _ _ eq_refl _ _ H).
Qed.

(** Parsing goes on from where a prefix that parsed left off. *)
Lemma parse_app (a b : list pystr) :
  forall c c', parse a c = Done c' -> parse (a ++ b) c = parse b c'.
Proof.
  induction a as [|arg rest IH1 IH2] using parse_rect; intros c c' H.
  - inversion H; subst. reflexivity.
  - cbn [app parse]. cbn [parse] in H.
    repeat match type of H with
           | (if ?c then _ else _) = _ => destruct c eqn:?
           end;
      try (apply IH1; exact H).
    + destruct rest as [|value rest']; [discriminate|].
      cbn [app]. apply (IH2 value rest' eq_refl). exact H.
    + destruct (path c); [destruct (file_name c)|];
        try discriminate; apply IH1; exact H.
Qed.

(** The usage line of a mode. *)
Definition usage_of (m : pystr) : pystr :=
  if pystr_eqb m (str "edit") then
    str "Usage: greenlight <directory> <filename>"
  else if pystr_eqb m (str "link-tree") then
    str "Usage: greenlight <directory> --link-tree [-a|-q]"
  else str "Usage: greenlight <directory> --link-graph".

(** What a mode needs on the command line: nothing for the help, a
    directory for the two views, a directory and a file name for the
    editor. *)
Definition complete (c : config) : bool :=
  if pystr_eqb (mode c) (str "help") then true
  else if pystr_eqb (mode c) (str "edit") then
    negb (missing (path c)) && negb (missing (file_name c))
  else negb (missing (path c)).

(** X26: [main_entry] refuses a command line or dispatches it, and never
    ignores it.  When parsing stops, it exits with
    ["Error: --theme requires a value"] or with ["Unknown argument: "]
    followed by an argument that was given.  Otherwise the mode is one of
    the four; [main_entry] exits with the usage line of the mode exactly
    when the mode needs a directory (or, for the editor, a file name) that
    is missing or empty, and in every other case it enters the branch of
    the mode, so it never falls through the four branches.  What happens
    inside the branch is no part of the statement. *)
Theorem command_line_is_dispatched (w : world) (screen_size : Z * Z)
  (argv : list pystr) :
  match parse argv defaults with
  | Exit m => main_entry w screen_size argv = Exit m /\ parse_message argv m
  | Done c =>
      known_mode c /\
      if complete c then
        exists r, main_entry w screen_size argv = Done r /\ r <> Ok None
      else main_entry w screen_size argv = Exit (usage_of (mode c))
  end.
Proof.
  unfold main_entry.
  destruct (parse argv defaults) as [c|m] eqn:E;
    [|split; [reflexivity | eapply parse_exit; exact E]].
  assert (Hk : known_mode c).
  { eapply parse_known; [|exact E]. left. reflexivity. }
  split; [exact Hk|].
  unfold complete, usage_of, launch, bootup_screen, precompute_for_mode.
  destruct Hk as [Hm|[Hm|[Hm|Hm]]]; rewrite Hm;
    repeat match goal with
           | |- context [pystr_eqb (str ?a) (str ?b)] =>
               let v := eval vm_compute in (pystr_eqb (str a) (str b)) in
               change (pystr_eqb (str a) (str b)) with v
           end; cbv iota.
  - destruct (missing (path c)), (missing (file_name c)); cbn [negb andb orb];
      try reflexivity.
    eexists. split; [reflexivity|].
    destruct (makedirs w (given (path c))) as [[]|e]; cbn [bind]; discriminate.
  - destruct (missing (path c)); cbn [negb]; [reflexivity|].
    eexists. split; [reflexivity|].
    destruct (build_note_graph (fs w) (walk_of w (given (path c))))
      as [[graph paths]|e]; cbn [bind]; discriminate.
  - destruct (missing (path c)); cbn [negb]; [reflexivity|].
    eexists. split; [reflexivity|].
    destruct (build_note_graph (fs w) (walk_of w (given (path c))))
      as [[graph paths]|e]; cbn [bind]; [|discriminate].
    destruct screen_size as [height width].
    destruct (Graph.force_layout (layout_draws w) graph width height
                Graph.default_iterations) as [cells|e]; cbn [bind];
      discriminate.
  - eexists. split; [reflexivity | discriminate].
Qed.

(** X27: A help flag that comes last wins: any command line that parses,
    followed by [-h] or [--help], opens the help screen in the theme asked
    for, with or without a directory. *)
Theorem help_flag_at_the_end (w : world) (screen_size : Z * Z)
  (argv : list pystr) (c : config) (flag : pystr) :
  parse argv defaults = Done c ->
  flag = str "-h" \/ flag = str "--help" ->
  main_entry w screen_size (argv ++ [flag])
  = Done (Ok (Some (help_screen (resolve_theme (theme_draw w) (theme c))))).
Proof.
  intros E Hf. unfold main_entry. rewrite (parse_app argv [flag] _ _ E).
  destruct Hf as [->| ->]; reflexivity.
Qed.

Lemma help_flag_at_the_end_witness :
  let w := {| fs := Vault.fs; walk_of := fun _ => Vault.walk;
              layout_draws := Vault.draws; theme_draw := 0%N;
              makedirs := fun _ => Ok tt |} in
  let argv := [str "v"; str "--link-tree"; str "--theme"; str "cyan"] in
  (exists c, parse argv defaults = Done c) /\
  main_entry w (24, 80) (argv ++ [str "-h"])
  = Done (Ok (Some (help_screen (str "cyan")))).
Proof.
  intros w argv. split; [eexists; reflexivity|].
  exact (help_flag_at_the_end w (24, 80) argv _ (str "-h") eq_refl
           (or_introl eq_refl)).
Defined.

(** X28: What was parsed is what the screen gets: the editor is opened on
    [path/file_name.md] with [path] as the vault, the link tree with the
    sort mode and the graph of [path], the graph view with the layout
    computed for the width and height of the screen, each with the theme
    and, for the two views, the incoming map built from the graph. *)
Theorem main_entry_passes_arguments (w : world) (screen_size : Z * Z)
  (argv : list pystr) (c : config) (d : pystr) :
  parse argv defaults = Done c ->
  path c = Some d -> d <> [] ->
  let theme := resolve_theme (theme_draw w) (theme c) in
  (mode c = str "edit" ->
   forall f, file_name c = Some f -> f <> [] -> makedirs w d = Ok tt ->
     main_entry w screen_size argv
     = Done (Ok (Some (editing_screen (path_join d (f ++ extension))
                         (Some theme) d)))) /\
  (mode c = str "link-tree" ->
   forall graph paths,
     build_note_graph (fs w) (walk_of w d) = Ok (graph, paths) ->
     main_entry w screen_size argv
     = Done (Ok (Some (link_tree_screen d (link_tree_sort c) theme graph paths
                         (build_incoming_links graph))))) /\
  (mode c = str "link-graph" ->
   forall graph paths cells,
     build_note_graph (fs w) (walk_of w d) = Ok (graph, paths) ->
     Graph.force_layout (layout_draws w) graph (snd screen_size)
       (fst screen_size) Graph.default_iterations = Ok cells ->
     main_entry w screen_size argv
     = Done (Ok (Some (graph_view_screen d theme graph paths
                         (build_incoming_links graph) cells)))).
Proof.
  intros E Hp Hd. cbv zeta. unfold main_entry. rewrite E.
  unfold launch, bootup_screen, precompute_for_mode.
  assert (Hmiss : missing (path c) = false)
    by (rewrite Hp; destruct d; [congruence | reflexivity]).
  assert (Hgiven : given (path c) = d) by (rewrite Hp; reflexivity).
  rewrite Hmiss, Hgiven.
  split; [|split]; intros Hm; rewrite Hm;
    repeat match goal with
           | |- context [pystr_eqb (str ?a) (str ?b)] =>
               let v := eval vm_compute in (pystr_eqb (str a) (str b)) in
               change (pystr_eqb (str a) (str b)) with v
           end; cbv iota.
  - intros f Hf Hne Hmk. rewrite Hf, Hmk.
    destruct f; [congruence | reflexivity].
  - intros graph paths Hb. rewrite Hb. reflexivity.
  - intros graph paths cells Hb Hl. rewrite Hb. cbn [bind].
    destruct screen_size as [height width]. cbn [fst snd] in Hl.
    rewrite Hl. reflexivity.
Qed.

Lemma main_entry_passes_arguments_witness :
  let w := {| fs := Vault.fs; walk_of := fun _ => Vault.walk;
              layout_draws := Vault.draws; theme_draw := 0%N;
              makedirs := fun _ => Ok tt |} in
  let argv := [str "v"; str "-q"; str "--link-tree"] in
  let c := {| mode := str "link-tree"; theme := str "green";
              link_tree_sort := Some (str "quantity");
              path := Some (str "v"); file_name := None |} in
  parse argv defaults = Done c /\ path c = Some (str "v") /\ str "v" <> [] /\
  main_entry w (24, 80) argv
  = Done (Ok (Some (link_tree_screen (str "v") (Some (str "quantity"))
                      (str "green") Vault.graph
                      [(str "A", str "v/A.md"); (str "B", str "v/B.md")]
                      (build_incoming_links Vault.graph)))).
Proof.
  intros w argv c.
  assert (H1 : parse argv defaults = Done c) by reflexivity.
  assert (H2 : path c = Some (str "v")) by reflexivity.
  assert (H3 : str "v" <> []) by discriminate.
  repeat (split; [assumption|]).
  exact (proj1 (proj2 (main_entry_passes_arguments w (24, 80) argv c (str "v")
                         H1 H2 H3))
           eq_refl Vault.graph _ eq_refl).
Defined.

End MainFacts.
